(** * Schematic packer: decode, translate, compact

    A shallow embedding of [SchematicPacker/server/commands.mjs] and the
    properties of its pipeline: the decompression probe, the packed
    block-state decoder, the varint decoder, the classic loader, the block
    translator with its shared translation table, the origin finder, the
    greedy box merger, and the splitting of the command file into
    function files.

    Conventions of the embedding.
    - JavaScript numbers that the code uses as integers are [Z] or [nat];
      BigInt values are [Z]; typed arrays are lists with their wrap-around
      written out.
    - A call that may throw returns a [completion] or an [option].
    - Strings are byte strings; [toLowerCase] acts on ASCII letters (block
      descriptors are ASCII resource locations).
    - A read with a computed key, on an object of a parsed table or on
      [javaStates], consults the own properties and then the members of
      [Object.prototype], which is taken to be as the language defines
      it.  What a dispatch walk reads off a value that is not part of the
      table (a built-in function, a number, [Object.prototype]) is left
      out, as is a read of a leaf field other than [name] by a state
      value; the branch keys of a node differ from the names of its leaf
      fields.
    - What the host decides is a parameter: the two zlib entry points,
      and whether a typed array of a given length can be created.
    - The two JSON tables are not among the sources; their shape follows
      the spec's data model and their contents are parameters. *)

From Stdlib Require Import ZArith Lia List Ascii String Bool Arith.
From Stdlib Require Import DecimalString.
From stdpp Require Import base option list gmap strings fin_maps.

Local Open Scope string_scope.

(** ** Exceptions *)

Inductive completion (A : Type) : Type :=
| Returns (a : A)
| Throws.
Arguments Returns {A} a.
Arguments Throws {A}.

(** [try { return c } catch {}] followed by [rest]. *)
Definition try_return {A} (c rest : completion A) : completion A :=
  match c with
  | Returns a => Returns a
  | Throws => rest
  end.

(** ** Decompressor *)

Section Decompressor.
(** The two zlib entry points of the host; each either returns the
    decoded bytes or throws. *)
Variable gunzipSync : list Byte.byte -> completion (list Byte.byte).
Variable inflateSync : list Byte.byte -> completion (list Byte.byte).

Definition maybeDecompress (raw : list Byte.byte) : completion (list Byte.byte) :=
  try_return (gunzipSync raw)
    (try_return (inflateSync raw)
       (Returns raw)).
End Decompressor.

(** ** Packed block states *)

Module Packed.
Local Open Scope Z_scope.

Definition u64 (v : Z) : Z := Z.land v (Z.shiftl 1 64 - 1).

(** A store into a [Uint32Array]. *)
Definition toUint32 (v : Z) : Z := v mod 2 ^ 32.

(** One iteration of the loop of [decodePackedBlockStates]; reading
    past the end of [longArr] yields [undefined], and [undefined & 1n]
    throws, which is [None] here. *)
Definition decodeEntry (longArr : list Z) (bitsPerEntry : Z) (i : nat) : option Z :=
  let maskVal := Z.shiftl 1 bitsPerEntry - 1 in
  let bitIndex := Z.of_nat i * bitsPerEntry in
  let longIndex := Z.shiftr bitIndex 6 in
  let startBit := Z.land bitIndex 63 in
  b ← longArr !! Z.to_nat longIndex;
  let base := u64 b in
  let val := Z.land (Z.shiftr base startBit) maskVal in
  let endBit := startBit + bitsPerEntry in
  if 64 <? endBit then
    let bitsFromNext := endBit - 64 in
    nb ← longArr !! Z.to_nat (longIndex + 1);
    let nextBase := u64 nb in
    let nextPart :=
      Z.shiftl (Z.land nextBase (Z.shiftl 1 bitsFromNext - 1)) (64 - startBit) in
    Some (toUint32 (Z.lor val (Z.land nextPart maskVal)))
  else Some (toUint32 val).

Definition decodePackedBlockStates (longArr : list Z) (count : nat) (bitsPerEntry : Z)
  : option (list Z) :=
  mapM (decodeEntry longArr bitsPerEntry) (seq 0 count).

(** Modelled from the spec: the reference straddling encoder.  Entry
    [i] occupies bits [i*bpe .. (i+1)*bpe - 1] of one little-endian bit
    stream, which is then cut into signed 64-bit longs. *)
Fixpoint bitStream (xs : list Z) (bpe : Z) : Z :=
  match xs with
  | [] => 0
  | x :: rest => Z.lor x (Z.shiftl (bitStream rest bpe) bpe)
  end.

Definition asInt64 (u : Z) : Z := if u <? 2 ^ 63 then u else u - 2 ^ 64.

Definition longCount (len : nat) (bpe : Z) : nat :=
  Z.to_nat ((Z.of_nat len * bpe + 63) / 64).

Definition encodePacked (xs : list Z) (bpe : Z) : list Z :=
  map (fun j => asInt64 (u64 (Z.shiftr (bitStream xs bpe) (64 * Z.of_nat j))))
      (seq 0 (longCount (length xs) bpe)).
End Packed.

(** ** Classic loader *)

Module Classic.
Local Open Scope Z_scope.

(** What [root.Blocks], [root.Data], [root.AddBlocks] and [root.Add] can
    hold, by the runtime class [normalizeClassicArray] tests for.  The
    elements of a [Buffer] are bytes, 0 to 255; the elements of an
    [RArray] are integers, numbers or the BigInts of a list of longs. *)
Inductive RawArray : Type :=
| RBuffer (bytes : list Z)
| RIntArray (ints : list Z)
| RArray (numbers : list Z)
| ROther.

Definition isByte (v : Z) : Prop := 0 <= v < 256.

Definition toUint8 (v : Z) : Z := v mod 256.
Definition toUint16 (v : Z) : Z := v mod 65536.

(** [Number(x)] of an integer: the nearest binary64 value, ties to
    even; [None] is an infinity. *)
Definition toDouble (x : Z) : option Z :=
  let a := Z.abs x in
  if a <? 2 ^ 53 then Some x
  else
    let e := Z.log2 a - 52 in
    let q := a / 2 ^ e in
    let r := a mod 2 ^ e in
    let q :=
      if 2 * r <? 2 ^ e then q
      else if 2 ^ e <? 2 * r then q + 1
      else if Z.even q then q else q + 1 in
    if 2 ^ 1024 <=? q * 2 ^ e then None else Some (Z.sgn x * (q * 2 ^ e)).

(** [Number(x) & mask]; an infinity counts as 0. *)
Definition numberAnd (x mask : Z) : Z :=
  match toDouble x with
  | Some v => Z.land v mask
  | None => 0
  end.

(** [None] is [null]; an absent field is [None] on input. *)
Definition normalizeClassicArray (input : option RawArray) (mask : Z) : option (list Z) :=
  match input with
  | None => None
  | Some (RBuffer bytes) =>
      if mask =? 255 then Some bytes
      else Some (map (fun x => toUint8 (Z.land x mask)) bytes)
  | Some (RIntArray ints) => Some (map (fun x => toUint8 (Z.land x mask)) ints)
  | Some (RArray numbers) => Some (map (fun x => toUint8 (numberAnd x mask)) numbers)
  | Some ROther => None
  end.

(** [a ?? b] on fields. *)
Definition orElse {A} (a b : option A) : option A :=
  match a with
  | Some _ => a
  | None => b
  end.

(** The value stored in [out[i]]. *)
Definition combinedId (add b : list Z) (i : Z) : Z :=
  let hiByte := default 0 (add !! Z.to_nat (Z.shiftr i 1)) in
  let hi4 := if Z.land i 1 =? 0 then Z.shiftr hiByte 4 else Z.land hiByte 15 in
  let lo := default 0 (b !! Z.to_nat i) in
  toUint16 (Z.lor (Z.shiftl (Z.land hi4 15) 8) (Z.land lo 255)).

Section Host.
(** Whether the host can create a typed array: [allocates size n] for
    [n] elements of [size] bytes each.  The host refuses a length above
    its limit and a length it has no memory for. *)
Variable allocates : Z -> Z -> bool.

(** [new Uint8Array(n)] for [size] 1, [new Uint16Array(n)] for 2,
    [new Uint32Array(n)] for 4: a negative length throws, and so does a
    length the host refuses. *)
Definition newTypedArray (size n : Z) : completion (list Z) :=
  if n <? 0 then Throws
  else if allocates size n then Returns (replicate (Z.to_nat n) 0)
  else Throws.

(** The [fmt === "classic"] branch of [loadSchematic], after the
    dimensions are read: [(legacyBlocks, legacyData)]. *)
Definition loadClassic (vol : Z) (Blocks Data AddBlocks Add : option RawArray)
  : completion (list Z * list Z) :=
  let bRaw := Blocks in
  let dRaw := Data in
  let addRaw := orElse AddBlocks Add in
  let b := normalizeClassicArray bRaw 255 in
  let dOrNew :=
    match normalizeClassicArray dRaw 15 with
    | Some d => Returns d
    | None => newTypedArray 1 vol
    end in
  match dOrNew with
  | Throws => Throws
  | Returns d =>
      match b with
      | None => Throws
      | Some b =>
          let add := normalizeClassicArray addRaw 255 in
          match add with
          | Some add =>
              if (vol + 1) / 2 <=? Z.of_nat (length add) then
                match newTypedArray 2 vol with
                | Throws => Throws
                | Returns out =>
                    Returns (imap (fun i _ => combinedId add b (Z.of_nat i)) out, d)
                end
              else Returns (b, d)
          | None => Returns (b, d)
          end
      end
  end.
End Host.

(** A host without a limit.  It stands for the host where an array is
    no longer than the data it is decoded from. *)
Definition unlimited : Z -> Z -> bool := fun _ _ => true.
End Classic.

(** ** JavaScript values, strings and objects *)

Module Js.
(** The values that flow through a block state: [undefined], a string
    from the descriptor, or a scalar taken from the translation table.
    Table numbers are integers (printed in plain decimal). *)
Inductive scalar : Type :=
| SStr (s : string)
| SNum (n : Z)
| SBool (b : bool).

Inductive value : Type :=
| VUndefined
| VNull
| VScalar (c : scalar).

Definition VStr (s : string) : value := VScalar (SStr s).

Definition decimal (n : Z) : string := NilZero.string_of_int (Z.to_int n).

(** [String(v)], also the conversion inside a template literal. *)
Definition scalarToString (c : scalar) : string :=
  match c with
  | SStr s => s
  | SNum n => decimal n
  | SBool true => "true"
  | SBool false => "false"
  end.

Definition toString (v : value) : string :=
  match v with
  | VUndefined => "undefined"
  | VNull => "null"
  | VScalar c => scalarToString c
  end.

Definition optToValue (o : option string) : value :=
  match o with
  | Some s => VStr s
  | None => VUndefined
  end.

(** *** Strings *)

Definition lowerChar (c : ascii) : ascii :=
  let n := nat_of_ascii c in
  if (65 <=? n)%nat && (n <=? 90)%nat then ascii_of_nat (n + 32) else c.

Fixpoint toLowerCase (s : string) : string :=
  match s with
  | EmptyString => EmptyString
  | String c r => String (lowerChar c) (toLowerCase r)
  end.

Fixpoint includes (c : ascii) (s : string) : bool :=
  match s with
  | EmptyString => false
  | String d r => Ascii.eqb d c || includes c r
  end.

(** [s.split(sep)] for a one-character separator. *)
Fixpoint split (sep : ascii) (s : string) : list string :=
  match s with
  | EmptyString => [EmptyString]
  | String c r =>
      if Ascii.eqb c sep then EmptyString :: split sep r
      else match split sep r with
           | h :: t => String c h :: t
           | [] => [String c EmptyString]
           end
  end.

Definition startsWith (p s : string) : bool := String.prefix p s.

Fixpoint slice (n : nat) (s : string) : string :=
  match n, s with
  | O, _ => s
  | S n', String _ r => slice n' r
  | S _, EmptyString => EmptyString
  end.

(** [s.replace(/\]$/, "")]. *)
Fixpoint stripClosingBracket (s : string) : string :=
  match s with
  | EmptyString => EmptyString
  | String c EmptyString => if Ascii.eqb c "]" then EmptyString else s
  | String c r => String c (stripClosingBracket r)
  end.

Fixpoint join (sep : string) (l : list string) : string :=
  match l with
  | [] => EmptyString
  | [x] => x
  | x :: rest => x ++ sep ++ join sep rest
  end.

Definition nonEmpty (s : string) : bool := negb (String.eqb s "").

(** *** [Number(s)] on strings

    The numeric value is kept exact, as [m * 10^e]; the rounding to
    binary64 is applied where the outcome depends on it: in the test
    for an infinity and in the use as an array index. *)
Inductive number : Type :=
| NaN
| Infinite
| Finite (m e : Z).

Definition isSpace (c : ascii) : bool :=
  let n := nat_of_ascii c in
  ((9 <=? n)%nat && (n <=? 13)%nat) || (n =? 32)%nat.

Fixpoint dropSpaces (l : list ascii) : list ascii :=
  match l with
  | c :: r => if isSpace c then dropSpaces r else l
  | [] => []
  end.

Definition trim (l : list ascii) : list ascii :=
  rev (dropSpaces (rev (dropSpaces l))).

Definition digitOf (base : nat) (c : ascii) : option Z :=
  let n := nat_of_ascii c in
  let d :=
    if (48 <=? n)%nat && (n <=? 57)%nat then Some (n - 48)%nat
    else if (97 <=? n)%nat && (n <=? 102)%nat then Some (n - 87)%nat
    else if (65 <=? n)%nat && (n <=? 70)%nat then Some (n - 55)%nat
    else None in
  match d with
  | Some k => if (k <? base)%nat then Some (Z.of_nat k) else None
  | None => None
  end.

(** The longest prefix of digits: its value, its length, the rest. *)
Fixpoint digits (base : nat) (acc : Z) (len : nat) (l : list ascii)
  : Z * nat * list ascii :=
  match l with
  | c :: r =>
      match digitOf base c with
      | Some d => digits base (acc * Z.of_nat base + d)%Z (S len) r
      | None => (acc, len, l)
      end
  | [] => (acc, len, [])
  end.

Definition radixLiteral (base : nat) (l : list ascii) : number :=
  match digits base 0%Z 0 l with
  | (v, S _, []) => Finite v 0
  | _ => NaN
  end.

Definition exponentPart (l : list ascii) : option Z :=
  match l with
  | [] => Some 0%Z
  | c :: r =>
      if Ascii.eqb c "e" || Ascii.eqb c "E" then
        let '(neg, r') :=
          match r with
          | s :: r' =>
              if Ascii.eqb s "-" then (true, r')
              else if Ascii.eqb s "+" then (false, r') else (false, r)
          | [] => (false, r)
          end in
        match digits 10 0%Z 0 r' with
        | (v, S _, []) => Some (if neg then - v else v)%Z
        | _ => None
        end
      else None
  end.

Definition unsignedDecimal (l : list ascii) : number :=
  if String.eqb (string_of_list_ascii l) "Infinity" then Infinite else
  let '(ip, ilen, r) := digits 10 0%Z 0 l in
  let '(m, flen, hasDigits, r2) :=
    match r with
    | c :: r1 =>
        if Ascii.eqb c "." then
          let '(m, flen, r2) := digits 10 ip 0 r1 in
          (m, flen, negb ((ilen =? 0)%nat && (flen =? 0)%nat), r2)
        else (ip, 0%nat, negb (ilen =? 0)%nat, r)
    | [] => (ip, 0%nat, negb (ilen =? 0)%nat, r)
    end in
  if hasDigits then
    match exponentPart r2 with
    | Some ex => Finite m (ex - Z.of_nat flen)
    | None => NaN
    end
  else NaN.

Definition negate (n : number) : number :=
  match n with
  | Finite m e => Finite (- m) e
  | other => other
  end.

Definition stringToNumber (s : string) : number :=
  match trim (list_ascii_of_string s) with
  | [] => Finite 0 0
  | c :: r =>
      let l := c :: r in
      if Ascii.eqb c "-" then negate (unsignedDecimal r)
      else if Ascii.eqb c "+" then unsignedDecimal r
      else if Ascii.eqb c "0" then
        match r with
        | x :: r' =>
            if Ascii.eqb x "x" || Ascii.eqb x "X" then radixLiteral 16 r'
            else if Ascii.eqb x "o" || Ascii.eqb x "O" then radixLiteral 8 r'
            else if Ascii.eqb x "b" || Ascii.eqb x "B" then radixLiteral 2 r'
            else unsignedDecimal l
        | [] => unsignedDecimal l
        end
      else unsignedDecimal l
  end.

(** Values at or above [2^1024 - 2^970] in magnitude become infinite. *)
Definition overflowBound : Z := (2 ^ 1024 - 2 ^ 970)%Z.

Definition isFinite (n : number) : bool :=
  match n with
  | Finite m e =>
      if (0 <=? e)%Z then (Z.abs m * 10 ^ e <? overflowBound)%Z
      else (Z.abs m <? overflowBound * 10 ^ (- e))%Z
  | _ => false
  end.

(** Whether [Number] rounds [m * 10^e] to the integer [k], for
    [0 <= k < 2^32]: the value lies within half a unit in the last
    place of [k] on either side, the bounds included, since the
    significand of such a [k] is even.  Below a power of two the unit is
    half as wide, and next to 0 it is [2^-1074]. *)
Definition roundsTo (m e k : Z) : bool :=
  let num := if (0 <=? e)%Z then (m * 10 ^ e)%Z else m in
  let den := if (0 <=? e)%Z then 1%Z else (10 ^ (- e))%Z in
  if (k =? 0)%Z then (Z.abs num * 2 ^ 1075 <=? den)%Z
  else
    let p := Z.log2 k in
    let s := (53 - p)%Z in
    let sLow := if (k =? 2 ^ p)%Z then (s + 1)%Z else s in
    ((k * 2 ^ sLow - 1) * den <=? num * 2 ^ sLow)%Z
    && (num * 2 ^ s <=? (k * 2 ^ s + 1) * den)%Z.

(** The index a number denotes in an array of [len] elements: the
    integer below [len] that [Number] rounds it to, if there is one.  An
    array has fewer than [2^32 - 1] elements. *)
Definition asIndex (n : number) (len : Z) : option Z :=
  match n with
  | Finite m e =>
      let lo := if (0 <=? e)%Z then (m * 10 ^ e)%Z else (m / 10 ^ (- e))%Z in
      List.find
        (fun k => (0 <=? k)%Z && (k <? Z.min len 4294967295)%Z && roundsTo m e k)
        [lo; (lo + 1)%Z]
  | _ => None
  end.

Definition toNumber (v : value) : number :=
  match v with
  | VUndefined => NaN
  | VNull => Finite 0 0
  | VScalar (SStr s) => stringToNumber s
  | VScalar (SNum n) => Finite n 0
  | VScalar (SBool true) => Finite 1 0
  | VScalar (SBool false) => Finite 0 0
  end.

(** *** Objects with string keys

    Properties are kept in insertion order; enumeration puts the
    array-index keys first, in ascending numeric order. *)
Definition object (A : Type) : Type := list (string * A).

Fixpoint get {A} (o : object A) (k : string) : option A :=
  match o with
  | [] => None
  | (k', v) :: r => if String.eqb k' k then Some v else get r k
  end.

Fixpoint set {A} (o : object A) (k : string) (v : A) : object A :=
  match o with
  | [] => [(k, v)]
  | (k', v') :: r =>
      if String.eqb k' k then (k', v) :: r else (k', v') :: set r k v
  end.

Fixpoint delete {A} (o : object A) (k : string) : object A :=
  match o with
  | [] => []
  | (k', v') :: r =>
      if String.eqb k' k then delete r k else (k', v') :: delete r k
  end.

Definition arrayIndex (k : string) : option Z :=
  match list_ascii_of_string k with
  | [] => None
  | c :: r =>
      if Ascii.eqb c "0" && negb (match r with [] => true | _ => false end) then None
      else match digits 10 0%Z 0 (c :: r) with
           | (v, _, []) => if (v <=? 4294967294)%Z then Some v else None
           | _ => None
           end
  end.

Fixpoint insertSorted {A} (i : Z) (kv : string * A) (l : list (Z * (string * A)))
  : list (Z * (string * A)) :=
  match l with
  | [] => [(i, kv)]
  | (j, kv') :: r =>
      if (i <? j)%Z then (i, kv) :: l else (j, kv') :: insertSorted i kv r
  end.

Definition entries {A} (o : object A) : list (string * A) :=
  let indexed :=
    fold_left
      (fun acc kv =>
         match arrayIndex (fst kv) with
         | Some i => insertSorted i kv acc
         | None => acc
         end) o [] in
  let named :=
    List.filter (fun kv => match arrayIndex (fst kv) with
                      | Some _ => false
                      | None => true
                      end) o in
  map snd indexed ++ named.

Definition values {A} (o : object A) : list A := map snd (entries o).

Definition assign {A} (target : object A) (src : object A) : object A :=
  fold_left (fun acc kv => set acc (fst kv) (snd kv)) (entries src) target.

(** [{ ...a, ...b }]. *)
Definition spread {A} (a b : object A) : object A := assign (assign [] a) b.

(** *** The members of [Object.prototype]

    A read [o[k]] with a computed key [k], on an object of a parsed
    table or on [javaStates], that finds no own property goes on to
    [Object.prototype]: it finds a built-in function, or, for
    [__proto__], [Object.prototype] itself. *)
Inductive inherited : Type :=
| IFunction (name : string)
| IPrototype.

Definition objectPrototype (k : string) : option inherited :=
  if String.eqb k "__proto__" then Some IPrototype
  else if String.eqb k "constructor" then Some (IFunction "Object")
  else if existsb (String.eqb k)
            ["__defineGetter__"; "__defineSetter__"; "hasOwnProperty";
             "__lookupGetter__"; "__lookupSetter__"; "isPrototypeOf";
             "propertyIsEnumerable"; "toString"; "valueOf"; "toLocaleString"]
  then Some (IFunction k)
  else None.

(** [String(v)] of such a member, also the property key it is turned
    into: the source text V8 gives a built-in function. *)
Definition inheritedText (i : inherited) : string :=
  match i with
  | IFunction name => "function " ++ name ++ "() { [native code] }"
  | IPrototype => "[object Object]"
  end.

(** [s[k]] on a string, for a key that is an index into it. *)
Definition stringIndex (s k : string) : option ascii :=
  match arrayIndex k with
  | Some i => String.get (Z.to_nat i) s
  | None => None
  end.
End Js.

(** ** Translation tables *)

(** Modelled from the spec: the entries of [java-to-bedrock.json] (the
    file is not among the sources), with the fields [translateBlock]
    reads.  A dispatch node of the table is a Bedrock name, or an object
    whose [branches] are keyed by state values (and [def]) and which may
    carry leaf fields of its own; the keys of [branches] are kept apart
    from the leaf fields.  A walk can leave the table: it reaches a
    [Foreign] value when it reads a member of [Object.prototype] off an
    object node, or the length of a name. *)
Inductive Foreign : Type :=
| FFunction
| FPrototype
| FNumber (n : Z).

Inductive RemapSpec : Type :=
| RemapList (items : list Js.scalar)
| RemapObject (table : Js.object Js.scalar).

#[warnings="-register-all"] Inductive Node : Type :=
| NName (s : string)
| NObject (branches : list (string * Node))
          (name : option string)
          (additions : option (Js.object Js.scalar))
          (removals : option (list string))
          (renames : option (Js.object string))
          (remaps : option (Js.object RemapSpec))
| NForeign (f : Foreign).

Inductive Identifier : Type :=
| IdKey (k : string)
| IdKeys (ks : list string).

Module Entry.
Record t : Type := mk {
  name : option string;
  identifier : option Identifier;
  mapping : option Node;
  defaults : option (Js.object Js.scalar);
  removals : option (list string);
  tile_extra : option (Js.object string);
  renames : option (Js.object string);
  remaps : option (Js.object RemapSpec);
  additions : option (Js.object Js.scalar)
}.
End Entry.

(** [java-to-bedrock.json] after [JSON.parse]: block name to entry. *)
Abbreviation Table := (gmap string Entry.t).

(** Modelled from the spec: [legacy-conversion-map.json], from ["id:data"]
    to a Java descriptor. *)
Abbreviation LegacyMap := (gmap string string).

(** ** Translator *)

Definition isAir (n : string) : bool :=
  String.eqb n "minecraft:air" || String.eqb n "minecraft:cave_air"
  || String.eqb n "minecraft:void_air".

Definition INVALID_BLOCKS (n : string) : bool :=
  String.eqb n "minecraft:piston_head" || String.eqb n "minecraft:moving_block"
  || String.eqb n "minecraft:moving_piston".

Definition isAirName (n : string) : bool := isAir n.

Definition normalizeNamespace (n : string) : string :=
  if String.eqb n "" then ""
  else
    let n := Js.toLowerCase n in
    if Js.includes ":" n then n else "minecraft:" ++ n.

Definition isNumericOrBoolean (v : Js.value) : bool :=
  match v with
  | Js.VScalar (Js.SBool _) => true
  | Js.VScalar (Js.SStr s) =>
      String.eqb s "true" || String.eqb s "false"
      || Js.isFinite (Js.stringToNumber s)
  | _ => Js.isFinite (Js.toNumber v)
  end.

(** [blockName.replace(/^minecraft:/, "")]. *)
Definition stripNamespace (n : string) : string :=
  if Js.startsWith "minecraft:" n then Js.slice 10 n else n.

(** What [javaToBedrockMap[k]] finds on [Object.prototype], seen through
    the fields of an entry: a built-in function has a [name] and none of
    the other fields, [Object.prototype] has none of them. *)
Definition inheritedEntry (k : string) : option Entry.t :=
  match Js.objectPrototype k with
  | Some (Js.IFunction name) =>
      Some (Entry.mk (Some name) None None None None None None None None)
  | Some Js.IPrototype =>
      Some (Entry.mk None None None None None None None None None)
  | None => None
  end.

(** [javaToBedrockMap[k]]: an own entry, or else an inherited member. *)
Definition readEntry (T : Table) (k : string) : option Entry.t :=
  match T !! k with
  | Some e => Some e
  | None => inheritedEntry k
  end.

(** The entry [translateBlock] works on, with the key it was read
    under. *)
Definition lookupEntry (T : Table) (blockName : string) : option (string * Entry.t) :=
  match readEntry T blockName with
  | Some e => Some (blockName, e)
  | None =>
      match readEntry T (stripNamespace blockName) with
      | Some e => Some (stripNamespace blockName, e)
      | None => None
      end
  end.

(** [javaStates[k] = v] for a string or [undefined] [v]: the setter
    of [__proto__] ignores such a value, so that no property is made. *)
Definition assignState (states : Js.object (option string)) (k : string)
    (v : option string) : Js.object (option string) :=
  if String.eqb k "__proto__" then states else Js.set states k v.

(** [javaStates[k]]: [None] is [undefined]; a member of
    [Object.prototype] is read as the string it is turned into when it
    is used as a key. *)
Definition readState (states : Js.object (option string)) (k : string) : option string :=
  match Js.get states k with
  | Some v => v
  | None => Js.inheritedText <$> Js.objectPrototype k
  end.

(** The state list between the brackets, as the object [javaStates]. *)
Definition parseStates (stateStr : option string) : Js.object (option string) :=
  match stateStr with
  | None => []
  | Some st =>
      if Js.nonEmpty st then
        let st := Js.stripClosingBracket st in
        if Js.nonEmpty st then
          fold_left
            (fun states part =>
               let kv := Js.split "=" part in
               let k := nth 0 kv "" in
               if Js.nonEmpty k then assignState states k (kv !! 1%nat) else states)
            (Js.split "," st) []
        else []
      else []
  end.

Definition isUndefined (o : option string) : bool :=
  match o with
  | Some _ => false
  | None => true
  end.

Definition applyDefaults (defaults : option (Js.object Js.scalar))
    (javaStates : Js.object (option string)) : Js.object (option string) :=
  match defaults with
  | Some d =>
      fold_left
        (fun states kv =>
           if isUndefined (readState states (fst kv))
           then assignState states (fst kv) (Some (Js.scalarToString (snd kv)))
           else states)
        (Js.entries d) javaStates
  | None => javaStates
  end.

Definition deleteKeys {A} (keys : list string) (o : Js.object A) : Js.object A :=
  fold_left (fun acc k => Js.delete acc k) keys o.

Definition idKeysOf (i : Identifier) : list string :=
  match i with
  | IdKey k => [k]
  | IdKeys ks => ks
  end.

Definition identifierTruthy (i : option Identifier) : bool :=
  match i with
  | Some (IdKey k) => Js.nonEmpty k
  | Some (IdKeys _) => true
  | None => false
  end.

Definition nodeTruthy (n : Node) : bool :=
  match n with
  | NName s => Js.nonEmpty s
  | NObject _ _ _ _ _ _ => true
  | NForeign (FNumber n) => negb (n =? 0)%Z
  | NForeign _ => true
  end.

(** [node[k]], [None] for [undefined].  An object node has its
    branches, its [name] and the members of [Object.prototype]; a name
    has its characters and its length.  Left out are the other leaf
    fields of an object node, the methods of a name, which are functions
    and give no node that carries a name or leaf fields, and whatever is
    read off a [Foreign] value. *)
Definition child (n : Node) (k : string) : option Node :=
  match n with
  | NName s =>
      match Js.stringIndex s k with
      | Some c => Some (NName (String c EmptyString))
      | None =>
          if String.eqb k "length"
          then Some (NForeign (FNumber (Z.of_nat (String.length s))))
          else None
      end
  | NObject branches name _ _ _ _ =>
      match Js.get branches k with
      | Some n => Some n
      | None =>
          match (if String.eqb k "name" then name else None) with
          | Some s => Some (NName s)
          | None =>
              match Js.objectPrototype k with
              | Some (Js.IFunction _) => Some (NForeign FFunction)
              | Some Js.IPrototype => Some (NForeign FPrototype)
              | None => None
              end
          end
      end
  | NForeign _ => None
  end.

(** The loop over [idKeys]: [None] is [node = null]. *)
Fixpoint walk (idKeys : list string) (javaStates : Js.object (option string))
    (node : Node) : option Node :=
  match idKeys with
  | [] => Some node
  | key :: rest =>
      let viaState :=
        match readState javaStates key with
        | Some val => child node val
        | None => None
        end in
      match viaState with
      | Some n => walk rest javaStates n
      | None =>
          match child node "def" with
          | Some n => walk rest javaStates n
          | None => None
          end
      end
  end.

Definition orEmpty {A} (o : option (list A)) : list A :=
  match o with
  | Some l => l
  | None => []
  end.

(** The four assignments to [mapEntry] at an object leaf. *)
Definition mergeLeaf (e : Entry.t) (leaf : Node) : Entry.t :=
  match leaf with
  | NName _ => e
  | NForeign _ => e
  | NObject _ _ additions removals renames remaps =>
      let e1 :=
        match additions with
        | Some a =>
            Entry.mk (Entry.name e) (Entry.identifier e) (Entry.mapping e)
              (Entry.defaults e) (Entry.removals e) (Entry.tile_extra e)
              (Entry.renames e) (Entry.remaps e)
              (Some (Js.spread (orEmpty (Entry.additions e)) a))
        | None => e
        end in
      let e2 :=
        match removals with
        | Some r =>
            Entry.mk (Entry.name e1) (Entry.identifier e1) (Entry.mapping e1)
              (Entry.defaults e1) (Some (orEmpty (Entry.removals e1) ++ r)%list)
              (Entry.tile_extra e1) (Entry.renames e1) (Entry.remaps e1)
              (Entry.additions e1)
        | None => e1
        end in
      let e3 :=
        match renames with
        | Some r =>
            Entry.mk (Entry.name e2) (Entry.identifier e2) (Entry.mapping e2)
              (Entry.defaults e2) (Entry.removals e2) (Entry.tile_extra e2)
              (Some (Js.spread (orEmpty (Entry.renames e2)) r)) (Entry.remaps e2)
              (Entry.additions e2)
        | None => e2
        end in
      match remaps with
      | Some r =>
          Entry.mk (Entry.name e3) (Entry.identifier e3) (Entry.mapping e3)
            (Entry.defaults e3) (Entry.removals e3) (Entry.tile_extra e3)
            (Entry.renames e3) (Some (Js.spread (orEmpty (Entry.remaps e3)) r))
            (Entry.additions e3)
      | None => e3
      end
  end.

(** The name a reached node yields: [normalizeNamespace(node)] for a
    string, [normalizeNamespace(node.name || buildStateName(node))] for an
    object ([buildStateName] of an object without [Name] is air), which
    [Object.prototype] is too; a function or a number yields none. *)
Definition leafName (n : Node) : option string :=
  match n with
  | NName s => if Js.nonEmpty s then Some (normalizeNamespace s) else None
  | NObject _ name _ _ _ _ =>
      match name with
      | Some nm =>
          if Js.nonEmpty nm then Some (normalizeNamespace nm)
          else Some (normalizeNamespace "minecraft:air")
      | None => Some (normalizeNamespace "minecraft:air")
      end
  | NForeign FPrototype => Some (normalizeNamespace "minecraft:air")
  | NForeign _ => None
  end.

(** The identifier block: the chosen name (if any), the entry as the
    block leaves it, and [javaStates] without the identifier keys. *)
Definition dispatch (e : Entry.t) (javaStates : Js.object (option string))
  : option string * Entry.t * Js.object (option string) :=
  match Entry.mapping e with
  | Some m =>
      if nodeTruthy m && identifierTruthy (Entry.identifier e) then
        let idKeys :=
          match Entry.identifier e with
          | Some i => idKeysOf i
          | None => []
          end in
        let '(bedrockName, e') :=
          match walk idKeys javaStates m with
          | Some node =>
              if nodeTruthy node then (leafName node, mergeLeaf e node)
              else (None, e)
          | None => (None, e)
          end in
        (bedrockName, e', deleteKeys idKeys javaStates)
      else (None, e, javaStates)
  | None => (None, e, javaStates)
  end.

Definition truthyName (o : option string) : bool :=
  match o with
  | Some s => Js.nonEmpty s
  | None => false
  end.

(** Lines 464-465: the name before any state list is appended. *)
Definition chooseName (bedrockName : option string) (entryName : option string)
    (blockName : string) : string :=
  let bedrockName :=
    if negb (truthyName bedrockName) && truthyName entryName
    then match entryName with
         | Some n => Some (normalizeNamespace n)
         | None => bedrockName
         end
    else bedrockName in
  match bedrockName with
  | Some n => if Js.nonEmpty n then n else blockName
  | None => blockName
  end.

Definition dquote : string := String (ascii_of_nat 34) EmptyString.

Definition quoteUnlessNumeric (v : Js.value) : string :=
  if isNumericOrBoolean v then Js.toString v
  else dquote ++ Js.toString v ++ dquote.


Definition renameKey (renames : option (Js.object string)) (jKey : string) : string :=
  match renames with
  | Some r =>
      match Js.get r jKey with
      | Some n => if Js.nonEmpty n then n else jKey
      | None =>
          match Js.objectPrototype jKey with
          | Some i => Js.inheritedText i
          | None => jKey
          end
      end
  | None => jKey
  end.

(** What a read of [remaps] finds: a spec of the table, or a member of
    [Object.prototype]. *)
Inductive RemapFound : Type :=
| RemapOwn (spec : RemapSpec)
| RemapFunction
| RemapPrototype.

Definition readRemap (r : Js.object RemapSpec) (k : string) : option RemapFound :=
  match Js.get r k with
  | Some spec => Some (RemapOwn spec)
  | None =>
      match Js.objectPrototype k with
      | Some (Js.IFunction _) => Some RemapFunction
      | Some Js.IPrototype => Some RemapPrototype
      | None => None
      end
  end.

(** [mapEntry?.remaps?.[renamedKey] ?? mapEntry?.remaps?.[jKey]]. *)
Definition findRemap (remaps : option (Js.object RemapSpec)) (renamedKey jKey : string)
  : option RemapFound :=
  match remaps with
  | Some r =>
      match readRemap r renamedKey with
      | Some found => Some found
      | None => readRemap r jKey
      end
  | None => None
  end.

(** Lines 472-479.  A function is neither an array nor an object and
    remaps nothing; a value read off [Object.prototype] is kept as the
    string it prints as, except [null], the prototype of
    [Object.prototype]. *)
Definition applyRemap (spec : option RemapFound) (value : Js.value) : Js.value :=
  match spec with
  | Some (RemapOwn (RemapList items)) =>
      if Js.isFinite (Js.toNumber value) then
        match Js.asIndex (Js.toNumber value) (Z.of_nat (length items)) with
        | Some idx =>
            match items !! Z.to_nat idx with
            | Some c => Js.VScalar c
            | None => value
            end
        | None => value
        end
      else value
  | Some (RemapOwn (RemapObject table)) =>
      match Js.get table (Js.toString value) with
      | Some c => Js.VScalar c
      | None =>
          match Js.objectPrototype (Js.toString value) with
          | Some i => Js.VStr (Js.inheritedText i)
          | None => value
          end
      end
  | Some RemapPrototype =>
      match Js.objectPrototype (Js.toString value) with
      | Some (Js.IFunction name) => Js.VStr (Js.inheritedText (Js.IFunction name))
      | Some Js.IPrototype => Js.VNull
      | None => value
      end
  | Some RemapFunction => value
  | None => value
  end.

Definition statePair (key : string) (v : Js.value) : string :=
  dquote ++ key ++ dquote ++ "=" ++ quoteUnlessNumeric v.

(** The list [bedrockStates]: translated states, then the additions. *)
Definition bedrockStatesOf (e : option Entry.t) (javaStates : Js.object (option string))
  : list string :=
  let renames := e ≫= Entry.renames in
  let remaps := e ≫= Entry.remaps in
  let additions := e ≫= Entry.additions in
  (map (fun kv =>
          let jKey := fst kv in
          let renamedKey := renameKey renames jKey in
          let value := applyRemap (findRemap remaps renamedKey jKey) (Js.optToValue (snd kv)) in
          statePair renamedKey value)
       (Js.entries javaStates)
   ++ match additions with
      | Some a => map (fun kv => statePair (fst kv) (Js.VScalar (snd kv))) (Js.entries a)
      | None => []
      end)%list.

(** Everything between the first filter and the last: the chosen bare
    name, the state pairs, and the table as the call leaves it.  The
    assignments of lines 455-458 change the entry object in place, which
    changes the table when the entry is one of its own; an inherited
    member has no [mapping] and is never assigned to. *)
Definition translateCore (blockName : string) (stateStr : option string) (T : Table)
  : string * list string * Table :=
  let found := lookupEntry T blockName in
  let mapEntry := snd <$> found in
  let javaStates := parseStates stateStr in
  let javaStates := applyDefaults (mapEntry ≫= Entry.defaults) javaStates in
  let javaStates := deleteKeys (orEmpty (mapEntry ≫= Entry.removals)) javaStates in
  let javaStates :=
    match mapEntry ≫= Entry.tile_extra with
    | Some te => deleteKeys (Js.values te) javaStates
    | None => javaStates
    end in
  match found with
  | Some (key, e) =>
      let '(bedrockName, e', javaStates) := dispatch e javaStates in
      (chooseName bedrockName (Entry.name e') blockName,
       bedrockStatesOf (Some e') javaStates,
       match T !! key with
       | Some _ => <[key := e']> T
       | None => T
       end)
  | None =>
      (chooseName None None blockName, bedrockStatesOf None javaStates, T)
  end.

Definition withStates (bedrockName : string) (bedrockStates : list string) : string :=
  match bedrockStates with
  | [] => bedrockName
  | _ => bedrockName ++ "[" ++ Js.join "," bedrockStates ++ "]"
  end.

(** [translateBlock] on a descriptor string: the result ([None] is
    [null]) and the shared table after the call. *)
Definition translateBlock (javaBlock : string) (T : Table) : option string * Table :=
  if negb (Js.nonEmpty javaBlock) then (None, T) else
  let parts := Js.split "[" javaBlock in
  let namePart := nth 0 parts "" in
  let stateStr := parts !! 1%nat in
  let blockName := normalizeNamespace namePart in
  if isAir blockName || INVALID_BLOCKS blockName then (None, T) else
  let '(name, bedrockStates, T') := translateCore blockName stateStr T in
  let bedrockName := withStates name bedrockStates in
  let outNameOnly := normalizeNamespace (nth 0 (Js.split "[" bedrockName) "") in
  if isAir outNameOnly || INVALID_BLOCKS outNameOnly then (None, T')
  else (Some bedrockName, T').

(** ** Volumes and merge keys *)

Inductive SchemType : Type := classic | modern | states_wrapped | unknown.

Module Schem.
(** What [loadSchematic] returns; the arrays a dialect does not use are
    empty.  Dimensions are non-negative. *)
Record t : Type := mk {
  width : nat;
  height : nat;
  length : nat;
  type : SchemType;
  legacyBlocks : list nat;
  legacyData : list nat;
  blocks : list nat;
  paletteStr : list string
}.

Definition volume (s : t) : nat := width s * height s * length s.
End Schem.

(** The two memo maps of [makeMergeKeyGetter]. *)
Record KeyCache : Type := mkCache {
  paletteToBedrock : gmap nat (option string);
  classicToBedrock : gmap string (option string)
}.

Definition emptyCache : KeyCache := mkCache ∅ ∅.

(** A getter's own memo maps together with the shared table. *)
Definition GetterState : Type := KeyCache * Table.

Definition sanitize (n : option string) : option string :=
  match n with
  | Some s =>
      if Js.nonEmpty s && Js.startsWith "minecraft:" s then Some (Js.slice 10 s) else n
  | None => None
  end.

(** [isAir(br ?? "") ? null : sanitize(br)]. *)
Definition keyOfTranslation (br : option string) : option string :=
  if isAir (default "" br) then None else sanitize br.

Definition classicKey (schem : Schem.t) (i : nat) : string :=
  let id :=
    match Schem.legacyBlocks schem !! i with
    | Some n => Js.decimal (Z.of_nat n)
    | None => "undefined"
    end in
  let dv := default 0%nat (Schem.legacyData schem !! i) in
  id ++ ":" ++ Js.decimal (Z.of_nat dv).

Definition classicFallbackKey (schem : Schem.t) (i : nat) : string :=
  let id :=
    match Schem.legacyBlocks schem !! i with
    | Some n => Js.decimal (Z.of_nat n)
    | None => "undefined"
    end in
  id ++ ":0".

(** [legacyMap[key] ?? legacyMap[`${id}:0`] ?? "minecraft:air"]. *)
Definition classicJavaName (legacyMap : LegacyMap) (schem : Schem.t) (i : nat) : string :=
  match legacyMap !! classicKey schem i with
  | Some n => n
  | None =>
      match legacyMap !! classicFallbackKey schem i with
      | Some n => n
      | None => "minecraft:air"
      end
  end.

Definition paletteIndex (schem : Schem.t) (i : nat) : nat :=
  default 0%nat (Schem.blocks schem !! i).

(** [palette[p] || "minecraft:air"]. *)
Definition paletteJavaName (schem : Schem.t) (p : nat) : string :=
  match Schem.paletteStr schem !! p with
  | Some n => if Js.nonEmpty n then n else "minecraft:air"
  | None => "minecraft:air"
  end.

(** The function [makeMergeKeyGetter] returns, applied to cell [i]. *)
Definition getKeyAt (legacyMap : LegacyMap) (schem : Schem.t) (i : nat) (st : GetterState)
  : option string * GetterState :=
  let '(cache, T) := st in
  match Schem.type schem with
  | classic =>
      let key := classicKey schem i in
      match classicToBedrock cache !! key with
      | Some k => (k, st)
      | None =>
          let javaName := classicJavaName legacyMap schem i in
          if isAirName javaName then
            (None, (mkCache (paletteToBedrock cache) (<[key := None]> (classicToBedrock cache)), T))
          else
            let '(br, T') := translateBlock javaName T in
            let out := keyOfTranslation br in
            (out, (mkCache (paletteToBedrock cache) (<[key := out]> (classicToBedrock cache)), T'))
      end
  | _ =>
      let p := paletteIndex schem i in
      match paletteToBedrock cache !! p with
      | Some k => (k, st)
      | None =>
          let javaName := paletteJavaName schem p in
          if isAirName javaName then
            (None, (mkCache (<[p := None]> (paletteToBedrock cache)) (classicToBedrock cache), T))
          else
            let '(br, T') := translateBlock javaName T in
            let out := keyOfTranslation br in
            (out, (mkCache (<[p := out]> (paletteToBedrock cache)) (classicToBedrock cache), T'))
      end
  end.

(** The memo entry that answers cell [i], if there is one. *)
Definition cachedKey (schem : Schem.t) (st : GetterState) (i : nat) : option (option string) :=
  match Schem.type schem with
  | classic => classicToBedrock (fst st) !! classicKey schem i
  | _ => paletteToBedrock (fst st) !! paletteIndex schem i
  end.

(** ** Coordinates *)

Definition coordsXZY (i w h l : nat) : nat * nat * nat :=
  let x := i mod w in
  let z := (i / w) mod l in
  let y := i / (w * l) in
  (x, y, z).

Definition indexXZY (x y z w h l : nat) : nat := x + z * w + y * w * l.

Module Origin.
Record t : Type := mk { x : nat; y : nat; z : nat }.
End Origin.

Module Box.
(** The inclusive corners of an emitted box and its key. *)
Record t : Type := mk {
  x0 : nat; y0 : nat; z0 : nat;
  x1 : nat; y1 : nat; z1 : nat;
  key : string
}.

Definition cells (b : t) : nat :=
  (x1 b - x0 b + 1) * (y1 b - y0 b + 1) * (z1 b - z0 b + 1).

Definition contains (b : t) (x y z : nat) : Prop :=
  x0 b <= x <= x1 b /\ y0 b <= y <= y1 b /\ z0 b <= z <= z1 b.
End Box.

(** [!key]: a key is falsy when it is [null] or the empty string. *)
Definition truthyKey (k : option string) : bool :=
  match k with
  | Some s => Js.nonEmpty s
  | None => false
  end.

(** [k0 === k1] on keys. *)
Definition strictEq (k0 k1 : option string) : bool :=
  match k0, k1 with
  | Some a, Some b => String.eqb a b
  | None, None => true
  | _, _ => false
  end.

(** ** Origin finder and greedy merger

    Both are written against a key getter, a closure over memo maps and
    the shared table; its state is threaded through explicitly. *)

Inductive bound : Type :=
| Infinity
| Fin (n : nat).

Definition ltBound (n : nat) (b : bound) : bool :=
  match b with
  | Infinity => true
  | Fin m => (n <? m)%nat
  end.

Definition eqBound (n : nat) (b : bound) : bool :=
  match b with
  | Infinity => false
  | Fin m => (n =? m)%nat
  end.

Definition isVisited (visited : list bool) (j : nat) : bool :=
  default false (visited !! j).

(** [for (...; xx <= x1; xx++, base++) visited[base] = 1]. *)
Fixpoint markRun (n : nat) (base : nat) (visited : list bool) : list bool :=
  match n with
  | O => visited
  | S n' => markRun n' (S base) (<[base := true]> visited)
  end.

Definition newline : string := String (ascii_of_nat 10) EmptyString.

Definition relative (a o : nat) : Z := (Z.of_nat a - Z.of_nat o + 1)%Z.

Definition commandLine (origin : Origin.t) (b : Box.t) : string :=
  let rx1 := relative (Box.x0 b) (Origin.x origin) in
  let ry1 := relative (Box.y0 b) (Origin.y origin) in
  let rz1 := relative (Box.z0 b) (Origin.z origin) in
  let rx2 := relative (Box.x1 b) (Origin.x origin) in
  let ry2 := relative (Box.y1 b) (Origin.y origin) in
  let rz2 := relative (Box.z1 b) (Origin.z origin) in
  if (rx1 =? rx2)%Z && (ry1 =? ry2)%Z && (rz1 =? rz2)%Z then
    "setblock ~" ++ Js.decimal rx1 ++ " ~" ++ Js.decimal ry1 ++ " ~" ++ Js.decimal rz1
    ++ " " ++ Box.key b ++ newline
  else
    "fill ~" ++ Js.decimal rx1 ++ " ~" ++ Js.decimal ry1 ++ " ~" ++ Js.decimal rz1
    ++ " ~" ++ Js.decimal rx2 ++ " ~" ++ Js.decimal ry2 ++ " ~" ++ Js.decimal rz2
    ++ " " ++ Box.key b ++ newline.

Section Merger.
Context {St : Type}.
Variable getKey : nat -> St -> option string * St.
Variables w h l : nat.

Definition sameKey (i0 i1 : nat) (s : St) : bool * St :=
  let '(k0, s1) := getKey i0 s in
  if negb (truthyKey k0) then (false, s1)
  else
    let '(k1, s2) := getKey i1 s1 in
    (strictEq k0 k1, s2).

(** [visited[j] || !sameKey(i, j)]. *)
Definition blocked (visited : list bool) (i j : nat) (s : St) : bool * St :=
  if isVisited visited j then (true, s)
  else
    let '(same, s') := sameKey i j s in
    (negb same, s').

(** [while (x1 + 1 < w)]: [room] is [w - (x1 + 1)]. *)
Fixpoint expandX (visited : list bool) (i y0 z0 : nat) (room x1 : nat) (s : St)
  : nat * St :=
  match room with
  | O => (x1, s)
  | S room' =>
      let j := indexXZY (x1 + 1) y0 z0 w h l in
      let '(stop, s') := blocked visited i j s in
      if stop then (x1, s') else expandX visited i y0 z0 room' (x1 + 1) s'
  end.

(** [for (xi = x0; xi <= x1; xi++)] over [n] cells from [xi]; [false]
    when the loop breaks out. *)
Fixpoint scanRow (visited : list bool) (i yy zz : nat) (n xi : nat) (s : St)
  : bool * St :=
  match n with
  | O => (true, s)
  | S n' =>
      let j := indexXZY xi yy zz w h l in
      let '(stop, s') := blocked visited i j s in
      if stop then (false, s') else scanRow visited i yy zz n' (xi + 1) s'
  end.

Fixpoint expandZ (visited : list bool) (i x0 x1 y0 : nat) (room z1 : nat) (s : St)
  : nat * St :=
  match room with
  | O => (z1, s)
  | S room' =>
      let '(ok, s') := scanRow visited i y0 (z1 + 1) (x1 + 1 - x0) x0 s in
      if ok then expandZ visited i x0 x1 y0 room' (z1 + 1) s' else (z1, s')
  end.

(** [for (zi = z0; zi <= z1; zi++)] over [n] rows from [zi]. *)
Fixpoint scanSlab (visited : list bool) (i x0 x1 yy : nat) (n zi : nat) (s : St)
  : bool * St :=
  match n with
  | O => (true, s)
  | S n' =>
      let '(ok, s') := scanRow visited i yy zi (x1 + 1 - x0) x0 s in
      if ok then scanSlab visited i x0 x1 yy n' (zi + 1) s' else (false, s')
  end.

Fixpoint expandY (visited : list bool) (i x0 x1 z0 z1 : nat) (room y1 : nat) (s : St)
  : nat * St :=
  match room with
  | O => (y1, s)
  | S room' =>
      let '(ok, s') := scanSlab visited i x0 x1 (y1 + 1) (z1 + 1 - z0) z0 s in
      if ok then expandY visited i x0 x1 z0 z1 room' (y1 + 1) s' else (y1, s')
  end.

Definition markVisited (b : Box.t) (visited : list bool) : list bool :=
  fold_left
    (fun v zz =>
       fold_left
         (fun v yy =>
            markRun (Box.x1 b + 1 - Box.x0 b)
                    (indexXZY (Box.x0 b) yy zz w h l) v)
         (seq (Box.y0 b) (Box.y1 b + 1 - Box.y0 b)) v)
    (seq (Box.z0 b) (Box.z1 b + 1 - Box.z0 b)) visited.

(** The box grown from cell [i], whose key [k0] is truthy. *)
Definition growBox (visited : list bool) (i : nat) (k0 : string) (s : St) : Box.t * St :=
  let '(x0, y0, z0) := coordsXZY i w h l in
  let '(x1, s1) := expandX visited i y0 z0 (w - (x0 + 1)) x0 s in
  let '(z1, s2) := expandZ visited i x0 x1 y0 (l - (z0 + 1)) z0 s1 in
  let '(y1, s3) := expandY visited i x0 x1 z0 z1 (h - (y0 + 1)) y0 s2 in
  (Box.mk x0 y0 z0 x1 y1 z1 k0, s3).

(** One iteration of the loop over [visited]. *)
Definition mergeStep (acc : list bool * list Box.t * St) (i : nat)
  : list bool * list Box.t * St :=
  let '(visited, out, s) := acc in
  if isVisited visited i then acc
  else
    let '(k0, s1) := getKey i s in
    match k0 with
    | Some k =>
        if Js.nonEmpty k then
          let '(b, s2) := growBox visited i k s1 in
          (markVisited b visited, (out ++ [b])%list, s2)
        else (<[i := true]> visited, out, s1)
    | None => (<[i := true]> visited, out, s1)
    end.

Definition mergeLoop (s : St) : list bool * list Box.t * St :=
  let visited := replicate (w * h * l) false in
  fold_left mergeStep (seq 0 (length visited)) (visited, [], s).

(** One iteration of the loop of [findOrigin]. *)
Definition originStep (acc : option Origin.t * bound * bound * bound * St) (i : nat)
  : option Origin.t * bound * bound * bound * St :=
  let '(origin, minZ, minX, minY, s) := acc in
  let '(key, s') := getKey i s in
  if negb (truthyKey key) then (origin, minZ, minX, minY, s')
  else
    let '(x, y, z) := coordsXZY i w h l in
    if ltBound z minZ
       || (eqBound z minZ && ltBound x minX)
       || (eqBound z minZ && eqBound x minX && ltBound y minY)
    then (Some (Origin.mk x y z), Fin z, Fin x, Fin y, s')
    else (origin, minZ, minX, minY, s').

Definition originLoop (s : St) : option Origin.t * bound * bound * bound * St :=
  fold_left originStep (seq 0 (w * h * l)) (None, Infinity, Infinity, Infinity, s).
End Merger.

(** The loop of [findOrigin] with a fresh getter: the variable [origin]
    and the getter's final state. *)
Definition originPass (legacyMap : LegacyMap) (schem : Schem.t) (T : Table)
  : option Origin.t * GetterState :=
  let '(origin, _, _, _, st) :=
    originLoop (getKeyAt legacyMap schem)
      (Schem.width schem) (Schem.height schem) (Schem.length schem)
      (emptyCache, T) in
  (origin, st).

(** [findOrigin(schem)]: the origin and the shared table afterwards. *)
Definition findOrigin (legacyMap : LegacyMap) (schem : Schem.t) (T : Table)
  : Origin.t * Table :=
  let '(origin, st) := originPass legacyMap schem T in
  (default (Origin.mk 0 0 0) origin, snd st).

(** The merge pass of [dumpSetblockCommands] with a fresh getter: the
    boxes in emission order and the getter's final state. *)
Definition mergeBoxes (legacyMap : LegacyMap) (schem : Schem.t) (T : Table)
  : list Box.t * GetterState :=
  let '(_, out, st) :=
    mergeLoop (getKeyAt legacyMap schem)
      (Schem.width schem) (Schem.height schem) (Schem.length schem)
      (emptyCache, T) in
  (out, st).

(** [dumpSetblockCommands(schem, outPath)]: the text written to the
    stream and the shared table afterwards. *)
Definition dumpSetblockCommands (legacyMap : LegacyMap) (schem : Schem.t) (T : Table)
  : string * Table :=
  let '(origin, T1) := findOrigin legacyMap schem T in
  let '(out, st) := mergeBoxes legacyMap schem T1 in
  (String.concat "" (map (commandLine origin) out), snd st).

(** ** Accounting for cells and boxes *)

Fixpoint countTrue (v : list bool) : nat :=
  match v with
  | [] => 0%nat
  | b :: r => ((if b then 1 else 0) + countTrue r)%nat
  end.

Definition markAll (js : list nat) (v : list bool) : list bool :=
  fold_left (fun v j => <[j := true]> v) js v.

(** The indices [markVisited] writes for a box, in the order it writes
    them. *)
Definition boxIndices (w h l : nat) (b : Box.t) : list nat :=
  zz ← seq (Box.z0 b) (Box.z1 b + 1 - Box.z0 b);
  yy ← seq (Box.y0 b) (Box.y1 b + 1 - Box.y0 b);
  seq (indexXZY (Box.x0 b) yy zz w h l) (Box.x1 b + 1 - Box.x0 b).

(** The box is a region of the [w] x [h] x [l] volume. *)
Definition inBounds (w h l : nat) (b : Box.t) : Prop :=
  (Box.x0 b <= Box.x1 b < w /\ Box.y0 b <= Box.y1 b < h /\ Box.z0 b <= Box.z1 b < l)%nat.

Definition totalCells (out : list Box.t) : nat :=
  sum_list (Box.cells <$> out).

Definition disjoint (b1 b2 : Box.t) : Prop :=
  forall x y z, ~ (Box.contains b1 x y z /\ Box.contains b2 x y z).

Section CellCount.
Context {St : Type}.
(** [cached s i]: the key the getter has fixed for cell [i] in state [s]. *)
Variable cached : St -> nat -> option (option string).

Definition falsyCached (s : St) (j : nat) : bool :=
  match cached s j with
  | Some k => negb (truthyKey k)
  | None => false
  end.

Definition truthyCached (s : St) (j : nat) : bool :=
  match cached s j with
  | Some k => truthyKey k
  | None => false
  end.

Definition nullCached (s : St) (j : nat) : bool :=
  match cached s j with
  | Some None => true
  | _ => false
  end.

(** The cells below [n] whose key is falsy ([null] or empty). *)
Definition emptyCells (s : St) (n : nat) : nat :=
  length (List.filter (falsyCached s) (seq 0 n)).

(** The cells below [n] whose key is [null]. *)
Definition nullCells (s : St) (n : nat) : nat :=
  length (List.filter (nullCached s) (seq 0 n)).
End CellCount.

(** Lexicographic order on (z, x, y). *)
Definition lexLe (a b : Origin.t) : Prop :=
  (Origin.z a < Origin.z b
   \/ (Origin.z a = Origin.z b
       /\ (Origin.x a < Origin.x b
           \/ (Origin.x a = Origin.x b /\ Origin.y a <= Origin.y b))))%nat.

Definition cellOrigin (i w h l : nat) : Origin.t :=
  let '(x, y, z) := coordsXZY i w h l in Origin.mk x y z.

(** ** Invariants of the two passes

    The predicates the proofs about [mergeLoop] and [originLoop] carry,
    stated over any getter [getKey] and the memo view [cached] of its
    state. *)

Section PassInvariants.
Context {St : Type}.
Variable getKey : nat -> St -> option string * St.
Variables w h l : nat.
Variable cached : St -> nat -> option (option string).

(** States linked by a sequence of getter calls. *)
Inductive reach : St -> St -> Prop :=
| reach_refl s : reach s s
| reach_step s i s' : reach (snd (getKey i s)) s' -> reach s s'.

Definition free (visited : list bool) (s : St) (k : string) (j : nat) : Prop :=
  isVisited visited j = false /\ cached s j = Some (Some k).

(** What holds of a box once it has been emitted. *)
Definition emitted (visited : list bool) (s : St) (b : Box.t) : Prop :=
  inBounds w h l b /\ Js.nonEmpty (Box.key b) = true /\
  forall x y z, Box.contains b x y z ->
    isVisited visited (indexXZY x y z w h l) = true /\
    cached s (indexXZY x y z w h l) = Some (Some (Box.key b)).

Record invariant (i : nat) (visited : list bool) (out : list Box.t) (s : St) : Prop := {
  inv_length : length visited = w * h * l;
  inv_below : forall j, j < i -> isVisited visited j = true;
  inv_known : forall j, isVisited visited j = true -> exists k, cached s j = Some k;
  inv_above : forall j, isVisited visited j = true -> i <= j ->
                        exists k, Js.nonEmpty k = true /\ cached s j = Some (Some k);
  inv_boxes : Forall (emitted visited s) out;
  inv_disjoint : forall m n b1 b2, m <> n -> out !! m = Some b1 -> out !! n = Some b2 ->
                                   disjoint b1 b2;
  inv_count : countTrue visited = (totalCells out + emptyCells cached s i)%nat
}.

Definition originShape (n : nat) (origin : option Origin.t) (minZ minX minY : bound)
    (s : St) : Prop :=
  match origin with
  | None =>
      minZ = Infinity /\ minX = Infinity /\ minY = Infinity /\
      forall j, j < n -> truthyCached cached s j = false
  | Some o =>
      minZ = Fin (Origin.z o) /\ minX = Fin (Origin.x o) /\ minY = Fin (Origin.y o) /\
      (exists j, j < n /\ truthyCached cached s j = true /\ cellOrigin j w h l = o) /\
      forall j, j < n -> truthyCached cached s j = true -> lexLe o (cellOrigin j w h l)
  end.

Definition originInvariant (n : nat)
    (acc : option Origin.t * bound * bound * bound * St) : Prop :=
  let '(origin, minZ, minX, minY, s) := acc in
  (forall j, j < n -> exists k, cached s j = Some k) /\
  originShape n origin minZ minX minY s.

End PassInvariants.

(** Neither ["id:data"] nor ["id:0"] of cell [j] is in the legacy map. *)
Definition unmapped (legacyMap : LegacyMap) (schem : Schem.t) (j : nat) : Prop :=
  legacyMap !! classicKey schem j = None /\
  legacyMap !! classicFallbackKey schem j = None.

(** The classic memo map answers null for every unmapped cell. *)
Definition airCached (legacyMap : LegacyMap) (schem : Schem.t) (st : GetterState) : Prop :=
  forall j v, unmapped legacyMap schem j ->
              classicToBedrock (fst st) !! classicKey schem j = Some v -> v = None.

(** ** Sample inputs *)

(** The names both filters of [translateBlock] reject. *)
Definition filtered (n : string) : bool := isAir n || INVALID_BLOCKS n.

(** Scenario 6 of the spec: one cell of [minecraft:piston_head]. *)
Definition pistonHeadVolume : Schem.t :=
  Schem.mk 1 1 1 modern [] [] [0] ["minecraft:piston_head"%string].

(** A table that maps [foo] to an invalid Bedrock name. *)
Definition movingTable : Table :=
  {[ "minecraft:foo"%string :=
       Entry.mk (Some "minecraft:moving_block"%string)
                None None None None None None None None ]}.

(** A block [x] dispatched on [type]: the leaf for [a] carries an
    addition and a removal, the fallback leaf carries a removal. *)
Definition leafTable : Table :=
  {[ "minecraft:x"%string :=
       Entry.mk None (Some (IdKey "type"))
         (Some (NObject
                  [("a"%string,
                    NObject [] (Some "xa"%string)
                      (Some [("lit"%string, Js.SBool true)])
                      (Some ["type"%string]) None None);
                   ("def"%string,
                    NObject [] (Some "xd"%string) None
                      (Some ["color"%string]) None None)]
                  None None None None None))
         None None None None None None ]}.

(** One cell of [x[color=red,type=a]]. *)
Definition leafVolume : Schem.t :=
  Schem.mk 1 1 1 modern [] [] [0] ["minecraft:x[color=red,type=a]"%string].

(** ** Coverage and emission order

    What the merge pass keeps beyond [invariant]: a visited cell is
    either skipped for its falsy key or inside an emitted box, and the
    boxes are emitted in the order of their first cells. *)

Definition boxStart (w h l : nat) (b : Box.t) : nat :=
  indexXZY (Box.x0 b) (Box.y0 b) (Box.z0 b) w h l.

Section Coverage.
Context {St : Type}.
Variables w h l : nat.
Variable cached : St -> nat -> option (option string).

Record coverage (i : nat) (visited : list bool) (out : list Box.t) (s : St) : Prop := {
  cov_cells : forall j, isVisited visited j = true ->
                falsyCached cached s j = true \/
                exists b x y z, b ∈ out /\ Box.contains b x y z /\
                                j = indexXZY x y z w h l;
  cov_start : forall b, b ∈ out -> (boxStart w h l b < i)%nat;
  cov_order : forall m n b1 b2, (m < n)%nat ->
                out !! m = Some b1 -> out !! n = Some b2 ->
                (boxStart w h l b1 < boxStart w h l b2)%nat
}.
End Coverage.

(** ** Greedy growth

    Why a box stopped growing: the cell it could not take has another
    key, or an earlier box holds it. *)

Section Greedy.
Context {St : Type}.
Variables w h l : nat.
Variable cached : St -> nat -> option (option string).

(** What makes [visited[j] || !sameKey(i, j)] true for a box with key
    [k]. *)
Definition stopsAt (visited : list bool) (s : St) (k : string) (j : nat) : Prop :=
  isVisited visited j = true \/ exists k1, cached s j = Some k1 /\ k1 <> Some k.

(** The same, once the pass is over, for the box emitted as number
    [m]. *)
Definition obstacle (out : list Box.t) (s : St) (m : nat) (k : string) (x y z : nat)
  : Prop :=
  (exists k1, cached s (indexXZY x y z w h l) = Some k1 /\ k1 <> Some k) \/
  (exists m' b', (m' < m)%nat /\ out !! m' = Some b' /\ Box.contains b' x y z).

(** The box cannot take the next cell of its first row, nor the next
    row of its first layer, nor the next layer. *)
Definition maximal (out : list Box.t) (s : St) (m : nat) (b : Box.t) : Prop :=
  (Box.x1 b + 1 = w \/
   obstacle out s m (Box.key b) (Box.x1 b + 1) (Box.y0 b) (Box.z0 b))%nat /\
  (Box.z1 b + 1 = l \/
   exists x, Box.x0 b <= x <= Box.x1 b /\
             obstacle out s m (Box.key b) x (Box.y0 b) (Box.z1 b + 1))%nat /\
  (Box.y1 b + 1 = h \/
   exists x z, Box.x0 b <= x <= Box.x1 b /\ Box.z0 b <= z <= Box.z1 b /\
               obstacle out s m (Box.key b) x (Box.y1 b + 1) z)%nat.

Definition greedy (out : list Box.t) (s : St) : Prop :=
  forall m b, out !! m = Some b -> maximal out s m b.
End Greedy.

(** ** Tables that translation leaves alone *)

Definition stable (T : Table) : Prop :=
  forall javaBlock, snd (translateBlock javaBlock T) = T.

(** The key a fresh getter gives cell [i]. *)
Definition pureKey (legacyMap : LegacyMap) (schem : Schem.t) (T : Table) (i : nat)
  : option string :=
  fst (getKeyAt legacyMap schem i (emptyCache, T)).

(** The getter still has the table [T], and its memo holds the keys
    of a fresh getter. *)
Definition agrees (legacyMap : LegacyMap) (schem : Schem.t) (T : Table)
    (st : GetterState) : Prop :=
  snd st = T /\
  forall j k, cachedKey schem st j = Some k -> k = pureKey legacyMap schem T j.

(** A 3 x 2 x 2 volume of air, stone and dirt that merges into three
    boxes. *)
Definition mixedVolume : Schem.t :=
  Schem.mk 3 2 2 modern [] []
    [1; 1; 0; 1; 1; 2; 1; 1; 2; 1; 1; 2]
    ["minecraft:air"; "minecraft:stone"; "dirt"].

(** ** What a conversion leaves of a table entry *)

(** The fields [mergeLeaf] never writes, and how it writes [removals]. *)
Definition sameFixedFields (e e' : Entry.t) : Prop :=
  Entry.name e' = Entry.name e /\
  Entry.identifier e' = Entry.identifier e /\
  Entry.mapping e' = Entry.mapping e /\
  Entry.defaults e' = Entry.defaults e /\
  Entry.tile_extra e' = Entry.tile_extra e /\
  exists extra,
    orEmpty (Entry.removals e') = (orEmpty (Entry.removals e) ++ extra)%list.

(** ** LEB128 varints *)

Module Varint.
Local Open Scope Z_scope.

(** [ToInt32] and [ToUint32] of an integer. *)
Definition toInt32 (v : Z) : Z := (v + 2 ^ 31) mod 2 ^ 32 - 2 ^ 31.
Definition toUint32 (v : Z) : Z := v mod 2 ^ 32.

(** [a << s] on numbers: the count is taken modulo 32 and the result is
    an int32. *)
Definition shl32 (a s : Z) : Z := toInt32 (Z.shiftl (toInt32 a) (Z.land s 31)).

(** [a | b] and [a & b] on numbers. *)
Definition or32 (a b : Z) : Z := toInt32 (Z.lor (toInt32 a) (toInt32 b)).
Definition and32 (a b : Z) : Z := toInt32 (Z.land (toInt32 a) (toInt32 b)).

(** The [for(;;)] loop that reads one varint.  The argument [bytes] is
    the unread part [bytes[i..n-1]] of the input, and the result carries
    what is left of it: [i >= n] is the empty list. *)
Fixpoint readVarint (bytes : list Z) (result shift : Z) : completion (Z * list Z) :=
  match bytes with
  | [] => Throws
  | b :: rest =>
      let result := or32 result (shl32 (and32 b 127) shift) in
      if and32 b 128 =? 0 then Returns (result, rest)
      else
        let shift := shift + 7 in
        if 35 <? shift then Throws else readVarint rest result shift
  end.

(** The [while] loop, by recursion on [expectedCount - w]. *)
Fixpoint decodeLoop (todo : nat) (bytes : list Z) (w : nat) (out : list Z)
  : completion (nat * list Z) :=
  match todo, bytes with
  | O, _ => Returns (w, out)
  | _, [] => Returns (w, out)
  | S todo, _ =>
      match readVarint bytes (toUint32 0) 0 with
      | Throws => Throws
      | Returns (result, rest) =>
          decodeLoop todo rest (S w) (<[w := toUint32 (toUint32 result)]> out)
      end
  end.

(** [bytes] is a [Buffer] or [Uint8Array]; [expectedCount] is the
    volume, an integer.  The output array is created on a host without
    a limit: the decoder returns only from an input that holds
    [expectedCount] varints, so a refusal of the host can change its
    outcome only for an array that is no longer than the input. *)
Definition decodeLEB128Varints (bytes : list Z) (expectedCount : Z)
  : completion (list Z) :=
  match Classic.newTypedArray Classic.unlimited 4 expectedCount with
  | Throws => Throws
  | Returns out =>
      match decodeLoop (Z.to_nat expectedCount) bytes 0 out with
      | Throws => Throws
      | Returns (w, out) =>
          if Z.of_nat w =? expectedCount then Returns out else Throws
      end
  end.

(** The reference encoder, which is not part of the sources: unsigned
    LEB128, least significant group first, in at most [n] bytes. *)
Fixpoint encodeGroups (n : nat) (x : Z) : list Z :=
  match n with
  | O => []
  | S n =>
      if x <? 128 then [x]
      else (x mod 128 + 128) :: encodeGroups n (x / 128)
  end.

Definition encodeVarint (x : Z) : list Z := encodeGroups 5 x.

Definition encodeLEB128 (xs : list Z) : list Z := concat (map encodeVarint xs).

(** What [loadSchematic] does with a byte array found under [Blocks]
    or [Data]: [arr.length === vol ? new Uint32Array(arr)
    : decodeLEB128Varints(arr, vol)]. *)
Definition blocksFromBytes (arr : list Z) (vol : Z) : completion (list Z) :=
  if Z.of_nat (length arr) =? vol then Returns (map toUint32 arr)
  else decodeLEB128Varints arr vol.

(** The bytes without the continuation bit, each of which ends a
    varint. *)
Definition terminators (bytes : list Z) : nat :=
  length (List.filter (fun b => and32 b 128 =? 0) bytes).
End Varint.

(** ** Splitting the command file into function files *)

Module Pack.

(** [MAX_LINES], 10000. *)
Definition MAX_LINES : nat := 100 * 100.

(** The loop state of [buildPack]: the counter, the line buffer, and
    the files written so far, each with the number in its name and the
    lines that [join] puts into it, one per line. *)
Record State : Type := mkState {
  fileCount : nat;
  buffer : list string;
  files : list (nat * list string)
}.

Definition isEmpty (line : string) : bool :=
  match line with
  | EmptyString => true
  | _ => false
  end.

Definition flush (st : State) : State :=
  let count := S (fileCount st) in
  mkState count [] (files st ++ [(count, buffer st)])%list.

(** The body of [for await (const line of rl)]. *)
Definition pushLine (max : nat) (st : State) (line : string) : State :=
  if isEmpty line then st
  else
    let st := mkState (fileCount st) (buffer st ++ [line])%list (files st) in
    if (length (buffer st) =? max)%nat then flush st else st.

(** The loop and the final flush, with the limit as a parameter. *)
Definition splitInto (max : nat) (lines : list string) : State :=
  let st := fold_left (pushLine max) lines (mkState 0 [] []) in
  match buffer st with
  | [] => st
  | _ => flush st
  end.

Definition splitLines (lines : list string) : State := splitInto MAX_LINES lines.

(** [\w] and [\s] on the characters of a pack name, which is taken
    to be ASCII. *)
Definition isWord (c : ascii) : bool :=
  let n := nat_of_ascii c in
  ((48 <=? n)%nat && (n <=? 57)%nat) || ((65 <=? n)%nat && (n <=? 90)%nat)
  || (n =? 95)%nat || ((97 <=? n)%nat && (n <=? 122)%nat).

(** [packName.replace(/[^\w\s-]/g, '')]. *)
Fixpoint dropOthers (s : string) : string :=
  match s with
  | EmptyString => EmptyString
  | String c r =>
      if isWord c || Js.isSpace c || Ascii.eqb c "-"
      then String c (dropOthers r)
      else dropOthers r
  end.

(** [.replace(/\s+/g, '_')]; [inRun] says that the character before
    was white space. *)
Fixpoint underscoreRuns (inRun : bool) (s : string) : string :=
  match s with
  | EmptyString => EmptyString
  | String c r =>
      if Js.isSpace c then
        if inRun then underscoreRuns true r else String "_" (underscoreRuns true r)
      else String c (underscoreRuns false r)
  end.

Definition sanitizedPackName (packName : string) : string :=
  underscoreRuns false (dropOthers packName).

(** The lines the loop does not skip. *)
Definition nonEmptyLines (lines : list string) : list string :=
  List.filter (fun line => negb (isEmpty line)) lines.

(** What the loop keeps after the lines [seen]. *)
Record chunked (max : nat) (seen : list string) (st : State) : Prop := {
  ch_concat : (concat (map snd (files st)) ++ buffer st)%list = nonEmptyLines seen;
  ch_full : Forall (fun c => length c = max) (map snd (files st));
  ch_names : map fst (files st) = seq 1 (fileCount st);
  ch_buffer : (length (buffer st) < max)%nat
}.
End Pack.

(** * Properties *)

Local Open Scope nat_scope.
Local Open Scope list_scope.

Section DecompressorFacts.
Variable gunzipSync : list Byte.byte -> completion (list Byte.byte).
Variable inflateSync : list Byte.byte -> completion (list Byte.byte).

(** C9: [maybeDecompress] always returns; the value is the gzip
    decoding when gzip decoding succeeds, else the zlib decoding when
    that succeeds, else the input itself. *)
Theorem maybeDecompress_total (raw : list Byte.byte) :
  exists out,
    maybeDecompress gunzipSync inflateSync raw = Returns out /\
    (forall g, gunzipSync raw = Returns g -> out = g) /\
    (gunzipSync raw = Throws ->
     forall z, inflateSync raw = Returns z -> out = z) /\
    (gunzipSync raw = Throws -> inflateSync raw = Throws -> out = raw).
Proof.
  unfold maybeDecompress, try_return.
  destruct (gunzipSync raw) as [g|] eqn:Hg.
  - exists g. repeat split; congruence.
  - destruct (inflateSync raw) as [z|] eqn:Hz.
    + exists z. repeat split; congruence.
    + exists raw. repeat split; congruence.
Qed.
End DecompressorFacts.

Module PackedFacts.
Import Packed.
Local Open Scope Z_scope.

Lemma ones_shiftl (k : Z) : Z.shiftl 1 k - 1 = Z.ones k.
Proof. unfold Z.ones. lia. Qed.

Lemma u64_mod (v : Z) : u64 v = v mod 2 ^ 64.
Proof. unfold u64. rewrite ones_shiftl, Z.land_ones by lia. reflexivity. Qed.

Lemma u64_asInt64 (v : Z) : u64 (asInt64 (u64 v)) = u64 v.
Proof.
  rewrite !u64_mod. unfold asInt64.
  pose proof (Z.mod_pos_bound v (2 ^ 64) ltac:(lia)) as Hb.
  destruct (v mod 2 ^ 64 <? 2 ^ 63).
  - apply Z.mod_small; lia.
  - replace (v mod 2 ^ 64 - 2 ^ 64) with (v mod 2 ^ 64 + (-1) * 2 ^ 64) by lia.
    rewrite Z.mod_add by lia. apply Z.mod_small; lia.
Qed.

Lemma u64_testbit (v n : Z) :
  0 <= n -> Z.testbit (u64 v) n = Z.testbit v n && (n <? 64).
Proof.
  intros Hn. unfold u64.
  rewrite ones_shiftl, Z.land_spec, Z.testbit_ones_nonneg by lia. reflexivity.
Qed.

(** Bit [n] of the stream belongs to entry [n / bpe]. *)
Lemma bitStream_testbit (bpe : Z) (xs : list Z) :
  0 < bpe ->
  Forall (fun x => 0 <= x < 2 ^ bpe) xs ->
  forall n, 0 <= n ->
    Z.testbit (bitStream xs bpe) n =
    match xs !! Z.to_nat (n / bpe) with
    | Some x => Z.testbit x (n mod bpe)
    | None => false
    end.
Proof.
  intros Hbpe Hall. induction Hall as [|x rest Hx Hrest IH]; intros n Hn.
  - simpl. rewrite Z.testbit_0_l. reflexivity.
  - simpl bitStream. rewrite Z.lor_spec, Z.shiftl_spec by lia.
    destruct (Z.lt_ge_cases n bpe) as [Hlt|Hge].
    + rewrite (Z.testbit_neg_r _ (n - bpe)) by lia.
      rewrite Z.div_small, Z.mod_small by lia. simpl.
      apply orb_false_r.
    + assert (Z.testbit x n = false) as ->.
      { destruct (Z.eq_dec x 0) as [->|Hx0]; [apply Z.testbit_0_l|].
        apply Z.bits_above_log2; [lia|].
        apply Z.lt_le_trans with bpe; [|lia].
        apply Z.log2_lt_pow2; lia. }
      rewrite IH by lia. simpl orb.
      assert (Hd : n / bpe = (n - bpe) / bpe + 1).
      { rewrite <- Z.div_add by lia. f_equal. lia. }
      assert (Hm : n mod bpe = (n - bpe) mod bpe).
      { rewrite <- (Z.mod_add (n - bpe) 1 bpe) by lia. f_equal. lia. }
      rewrite Hd, Hm.
      replace (Z.to_nat ((n - bpe) / bpe + 1)) with (S (Z.to_nat ((n - bpe) / bpe))).
      * reflexivity.
      * pose proof (Z.div_pos (n - bpe) bpe ltac:(lia) ltac:(lia)). lia.
Qed.

Lemma encodePacked_lookup (xs : list Z) (bpe : Z) (j : nat) :
  (j < longCount (length xs) bpe)%nat ->
  encodePacked xs bpe !! j =
  Some (asInt64 (u64 (Z.shiftr (bitStream xs bpe) (64 * Z.of_nat j)))).
Proof.
  intros Hj. unfold encodePacked.
  change map with (@fmap list _) at 1.
  rewrite list_lookup_fmap, lookup_seq_lt by exact Hj. reflexivity.
Qed.

Lemma entry_testbit (x : Z) (bpe n : Z) :
  0 <= x < 2 ^ bpe -> 0 <= bpe -> bpe <= n -> Z.testbit x n = false.
Proof.
  intros Hx Hb Hn.
  destruct (Z.eq_dec x 0) as [->|Hx0]; [apply Z.testbit_0_l|].
  apply Z.bits_above_log2; [lia|].
  apply Z.lt_le_trans with bpe; [|lia].
  apply Z.log2_lt_pow2; lia.
Qed.

(** The decoder reads entry [i] back, whether or not it straddles. *)
Lemma decodeEntry_encodePacked (xs : list Z) (bpe : Z) (i : nat) (x : Z) :
  0 < bpe <= 32 ->
  Forall (fun x => 0 <= x < 2 ^ bpe) xs ->
  xs !! i = Some x ->
  decodeEntry (encodePacked xs bpe) bpe i = Some x.
Proof.
  intros Hbpe Hall Hi.
  assert (Hx : 0 <= x < 2 ^ bpe).
  { rewrite Forall_forall in Hall. apply Hall. eapply list_elem_of_lookup_2, Hi. }
  pose proof (lookup_lt_Some _ _ _ Hi) as Hlen.
  unfold decodeEntry.
  set (bi := Z.of_nat i * bpe).
  assert (Hbi : 0 <= bi) by (unfold bi; lia).
  rewrite Z.shiftr_div_pow2 by lia.
  change 63 with (Z.ones 6). rewrite Z.land_ones by lia.
  change (2 ^ 6) with 64.
  set (li := bi / 64). set (sb := bi mod 64).
  assert (Hdm : bi = 64 * li + sb) by (unfold li, sb; apply Z.div_mod; lia).
  assert (Hsb : 0 <= sb < 64) by (unfold sb; apply Z.mod_pos_bound; lia).
  assert (Hli : 0 <= li) by (unfold li; apply Z.div_pos; lia).
  assert (Htot : bi + bpe <= Z.of_nat (length xs) * bpe) by (unfold bi; nia).
  assert (Hcnt : forall k, 0 <= k -> 64 * k < bi + bpe ->
                           (Z.to_nat k < longCount (length xs) bpe)%nat).
  { intros k Hk Hlt. unfold longCount.
    apply Z2Nat.inj_lt; [lia| |].
    - apply Z.div_pos; lia.
    - apply Z.lt_le_trans with (k + 1); [lia|].
      apply Z.div_le_lower_bound; lia. }
  rewrite (encodePacked_lookup xs bpe (Z.to_nat li)) by (apply Hcnt; lia).
  rewrite Z2Nat.id by lia. simpl mbind. cbn [option_bind].
  rewrite u64_asInt64.
  set (B := bitStream xs bpe).
  assert (HB : forall k, 0 <= k < bpe -> Z.testbit B (bi + k) = Z.testbit x k).
  { intros k Hk. unfold B.
    rewrite (bitStream_testbit bpe xs ltac:(lia) Hall) by lia.
    replace (bi + k) with (k + Z.of_nat i * bpe) by (unfold bi; lia).
    rewrite Z.div_add, Z.mod_add by lia.
    rewrite Z.div_small, Z.mod_small by lia. simpl.
    rewrite Z.add_0_l, Nat2Z.id, Hi. reflexivity. }
  assert (Hsmall : forall v, 0 <= v < 2 ^ bpe -> toUint32 v = v).
  { intros v Hv. unfold toUint32. apply Z.mod_small.
    split; [lia|]. apply Z.lt_le_trans with (2 ^ bpe); [lia|].
    apply Z.pow_le_mono_r; lia. }
  destruct (64 <? sb + bpe) eqn:Hend.
  - apply Z.ltb_lt in Hend.
    rewrite (encodePacked_lookup xs bpe (Z.to_nat (li + 1))) by (apply Hcnt; lia).
    rewrite Z2Nat.id by lia. cbn [option_bind mbind option_bind].
    simpl. rewrite u64_asInt64.
    f_equal.
    match goal with |- toUint32 ?v = _ => assert (Hv : v = x) end.
    { apply Z.bits_inj'. intros n Hn.
      rewrite Z.lor_spec, !Z.land_spec, Z.shiftr_spec, Z.shiftl_spec by lia.
      rewrite !ones_shiftl, !Z.testbit_ones_nonneg by lia.
      rewrite u64_testbit by lia.
      rewrite Z.shiftr_spec by lia.
      destruct (Z.ltb_spec n bpe) as [Hnb|Hnb].
      2:{ rewrite (entry_testbit x bpe n) by lia.
          rewrite !andb_false_r. reflexivity. }
      rewrite !andb_true_r.
      destruct (Z.ltb_spec (n + sb) 64) as [Hlo|Hhi].
      + rewrite andb_true_r.
        rewrite (Z.testbit_neg_r _ (n - (64 - sb))) by lia.
        rewrite orb_false_r.
        replace (n + sb + 64 * li) with (bi + n) by lia. apply HB; lia.
      + rewrite andb_false_r. simpl orb.
        rewrite Z.land_spec, u64_testbit, Z.shiftr_spec by lia.
        rewrite Z.testbit_ones_nonneg by lia.
        replace (n - (64 - sb) + 64 * (li + 1)) with (bi + n) by lia.
        rewrite HB by lia.
        assert ((n - (64 - sb) <? 64) = true) as -> by (apply Z.ltb_lt; lia).
        assert ((n - (64 - sb) <? sb + bpe - 64) = true) as -> by (apply Z.ltb_lt; lia).
        rewrite !andb_true_r. reflexivity. }
    rewrite Hv. apply Hsmall, Hx.
  - apply Z.ltb_ge in Hend. simpl. f_equal.
    match goal with |- toUint32 ?v = _ => assert (Hv : v = x) end.
    { apply Z.bits_inj'. intros n Hn.
      rewrite Z.land_spec, Z.shiftr_spec by lia.
      rewrite ones_shiftl, Z.testbit_ones_nonneg by lia.
      rewrite u64_testbit, Z.shiftr_spec by lia.
      destruct (Z.ltb_spec n bpe) as [Hnb|Hnb].
      2:{ rewrite (entry_testbit x bpe n) by lia.
          rewrite !andb_false_r. reflexivity. }
      assert ((n + sb <? 64) = true) as -> by (apply Z.ltb_lt; lia).
      rewrite !andb_true_r.
      replace (n + sb + 64 * li) with (bi + n) by lia. apply HB; lia. }
    rewrite Hv. apply Hsmall, Hx.
Qed.

Lemma decode_encode_general (xs : list Z) (bpe : Z) :
  0 < bpe <= 32 ->
  Forall (fun x => 0 <= x < 2 ^ bpe) xs ->
  decodePackedBlockStates (encodePacked xs bpe) (length xs) bpe = Some xs.
Proof.
  intros Hbpe Hall. unfold decodePackedBlockStates.
  apply mapM_Some_2, Forall2_same_length_lookup_2.
  - rewrite length_seq. reflexivity.
  - intros i j x Hseq Hx. apply lookup_seq in Hseq as [-> _]. simpl.
    apply decodeEntry_encodePacked; assumption.
Qed.

(** C5: for 4 <= bpe <= 12 and entries below 2^bpe, decoding the
    reference straddling encoding returns the entries. *)
Theorem decodePacked_roundtrip (xs : list Z) (bpe : Z) :
  4 <= bpe <= 12 ->
  Forall (fun x => 0 <= x < 2 ^ bpe) xs ->
  decodePackedBlockStates (encodePacked xs bpe) (length xs) bpe = Some xs.
Proof. intros Hbpe Hall. apply decode_encode_general; [lia | exact Hall]. Qed.

Lemma decodePacked_roundtrip_witness :
  decodePackedBlockStates
    (encodePacked [1; 2; 3; 4; 5; 6; 7; 8; 9; 10; 11; 12; 31; 17] 5) 14 5
  = Some [1; 2; 3; 4; 5; 6; 7; 8; 9; 10; 11; 12; 31; 17].
Proof.
  apply (decodePacked_roundtrip [1; 2; 3; 4; 5; 6; 7; 8; 9; 10; 11; 12; 31; 17] 5).
  - lia.
  - repeat constructor; lia.
Defined.
End PackedFacts.

(** ** Marking cells *)

Section Marking.
Variables w h l : nat.

Local Abbreviation boxIndices := (boxIndices w h l).
Local Abbreviation inBounds := (inBounds w h l).

Lemma countTrue_insert (v : list bool) (j : nat) :
  v !! j = Some false -> countTrue (<[j := true]> v) = S (countTrue v).
Proof.
  revert j. induction v as [|b r IH]; intros [|j] Hj; simpl in *; try discriminate.
  - injection Hj as ->. reflexivity.
  - rewrite (IH j Hj). lia.
Qed.

Lemma countTrue_replicate (n : nat) : countTrue (replicate n false) = 0.
Proof. induction n; simpl; auto. Qed.

Lemma countTrue_full (v : list bool) :
  (forall j, j < length v -> isVisited v j = true) -> countTrue v = length v.
Proof.
  induction v as [|b r IH]; intros Hall; simpl; [reflexivity|].
  pose proof (Hall 0 ltac:(simpl; lia)) as H0. unfold isVisited in H0. simpl in H0.
  subst b. f_equal. apply IH. intros j Hj.
  apply (Hall (S j)). simpl. lia.
Qed.

Lemma isVisited_insert (v : list bool) (i j : nat) :
  i < length v ->
  isVisited (<[i := true]> v) j = isVisited v j || bool_decide (j = i).
Proof.
  intros Hi. unfold isVisited.
  destruct (decide (j = i)) as [->|Hne].
  - rewrite list_lookup_insert_eq by exact Hi. rewrite bool_decide_eq_true_2 by reflexivity.
    simpl. rewrite orb_true_r. reflexivity.
  - rewrite list_lookup_insert_ne by congruence.
    rewrite bool_decide_eq_false_2 by exact Hne. rewrite orb_false_r. reflexivity.
Qed.

Lemma isVisited_false_lookup (v : list bool) (j : nat) :
  j < length v -> isVisited v j = false -> v !! j = Some false.
Proof.
  intros Hj Hv. unfold isVisited in Hv.
  destruct (lookup_lt_is_Some_2 v j Hj) as [b Hb].
  rewrite Hb in Hv. simpl in Hv. subst b. exact Hb.
Qed.

Lemma markAll_length (js : list nat) (v : list bool) :
  length (markAll js v) = length v.
Proof.
  revert v. induction js as [|j js IH]; intros v; simpl; [reflexivity|].
  unfold markAll in IH. rewrite IH. apply length_insert.
Qed.

Lemma markAll_visited (js : list nat) (v : list bool) (j : nat) :
  (forall i, i ∈ js -> i < length v) ->
  isVisited (markAll js v) j = true <-> isVisited v j = true \/ j ∈ js.
Proof.
  revert v. induction js as [|i js IH]; intros v Hin; simpl.
  - split; [auto|]. intros [H|H]; [exact H|]. inversion H.
  - unfold markAll in IH. rewrite IH.
    + rewrite isVisited_insert by (apply Hin; left).
      rewrite orb_true_iff, bool_decide_eq_true, elem_of_cons. tauto.
    + intros k Hk. rewrite length_insert. apply Hin. right. exact Hk.
Qed.

Lemma markAll_count (js : list nat) (v : list bool) :
  NoDup js ->
  (forall i, i ∈ js -> i < length v /\ isVisited v i = false) ->
  countTrue (markAll js v) = countTrue v + length js.
Proof.
  revert v. induction js as [|i js IH]; intros v Hnd Hfree; simpl; [lia|].
  apply NoDup_cons in Hnd as [Hni Hnd].
  destruct (Hfree i ltac:(left)) as [Hlt Hvi].
  unfold markAll in IH. rewrite IH.
  - rewrite countTrue_insert by (apply isVisited_false_lookup; assumption). lia.
  - exact Hnd.
  - intros k Hk. rewrite length_insert.
    destruct (Hfree k ltac:(right; exact Hk)) as [Hklt Hvk].
    split; [exact Hklt|].
    rewrite isVisited_insert by exact Hlt. rewrite Hvk. simpl.
    apply bool_decide_eq_false_2. intros ->. contradiction.
Qed.

Lemma markRun_markAll (n base : nat) (v : list bool) :
  markRun n base v = markAll (seq base n) v.
Proof.
  revert base v. induction n as [|n IH]; intros base v; simpl; [reflexivity|].
  apply IH.
Qed.

Lemma fold_left_bind {A B C} (f : A -> C -> A) (g : B -> list C) (xs : list B) (a : A) :
  fold_left f (xs ≫= g) a = fold_left (fun a x => fold_left f (g x) a) xs a.
Proof.
  revert a. induction xs as [|x xs IH]; intros a; simpl; [reflexivity|].
  rewrite fold_left_app. apply IH.
Qed.

Lemma fold_left_ext {A B} (f g : A -> B -> A) (xs : list B) (a : A) :
  (forall a x, f a x = g a x) -> fold_left f xs a = fold_left g xs a.
Proof.
  intros Hfg. revert a. induction xs as [|x xs IH]; intros a; simpl; [reflexivity|].
  rewrite Hfg. apply IH.
Qed.

Lemma markVisited_markAll (b : Box.t) (v : list bool) :
  markVisited w h l b v = markAll (boxIndices b) v.
Proof.
  unfold markVisited, boxIndices, markAll.
  rewrite fold_left_bind. apply fold_left_ext. intros a zz.
  rewrite fold_left_bind. apply fold_left_ext. intros a' yy.
  apply markRun_markAll.
Qed.

(** *** Index arithmetic *)

Lemma index_lt (x y z : nat) :
  x < w -> y < h -> z < l -> indexXZY x y z w h l < w * h * l.
Proof.
  unfold indexXZY. intros Hx Hy Hz.
  assert (H1 : (z + 1) * w <= l * w) by (apply Nat.mul_le_mono_r; lia).
  assert (H2 : (y + 1) * (w * l) <= h * (w * l)) by (apply Nat.mul_le_mono_r; lia).
  lia.
Qed.

Lemma coords_index (x y z : nat) :
  x < w -> z < l -> coordsXZY (indexXZY x y z w h l) w h l = (x, y, z).
Proof.
  intros Hx Hz. unfold coordsXZY, indexXZY.
  assert (Hdiv : (x + z * w + y * w * l) / w = z + y * l).
  { replace (x + z * w + y * w * l) with (x + (z + y * l) * w) by lia.
    rewrite Nat.div_add by lia. rewrite Nat.div_small by lia. lia. }
  f_equal; [f_equal|].
  - replace (x + z * w + y * w * l) with (x + (z + y * l) * w) by lia.
    rewrite Nat.Div0.mod_add. apply Nat.mod_small. exact Hx.
  - rewrite <- Nat.Div0.div_div, Hdiv.
    rewrite Nat.div_add by lia. rewrite Nat.div_small by lia. lia.
  - rewrite Hdiv, Nat.Div0.mod_add. apply Nat.mod_small. exact Hz.
Qed.

Lemma index_inj (x y z x' y' z' : nat) :
  x < w -> z < l -> x' < w -> z' < l ->
  indexXZY x y z w h l = indexXZY x' y' z' w h l ->
  x = x' /\ y = y' /\ z = z'.
Proof.
  intros Hx Hz Hx' Hz' Heq.
  pose proof (coords_index x y z Hx Hz) as H1.
  pose proof (coords_index x' y' z' Hx' Hz') as H2.
  rewrite Heq, H2 in H1. injection H1 as -> -> ->. auto.
Qed.

Lemma coords_bounds (i : nat) :
  i < w * h * l ->
  (i mod w) < w /\ i / (w * l) < h /\ (i / w) mod l < l.
Proof.
  intros Hi.
  assert (w <> 0 /\ h <> 0 /\ l <> 0) as (Hw & Hh & Hl) by nia.
  repeat split.
  - apply Nat.mod_upper_bound. exact Hw.
  - apply Nat.Div0.div_lt_upper_bound. nia.
  - apply Nat.mod_upper_bound. exact Hl.
Qed.

Lemma index_coords (i : nat) :
  i < w * h * l ->
  indexXZY (i mod w) (i / (w * l)) ((i / w) mod l) w h l = i.
Proof.
  intros Hi. unfold indexXZY.
  assert (w <> 0 /\ h <> 0 /\ l <> 0) as (Hw & Hh & Hl) by nia.
  pose proof (Nat.div_mod_eq i w) as H1.
  pose proof (Nat.div_mod_eq (i / w) l) as H2.
  rewrite Nat.Div0.div_div in H2. nia.
Qed.

Lemma elem_of_boxIndices (b : Box.t) (j : nat) :
  inBounds b ->
  j ∈ boxIndices b <->
  exists x y z, Box.contains b x y z /\ j = indexXZY x y z w h l.
Proof.
  intros (Hx & Hy & Hz). unfold boxIndices, Box.contains. split.
  - intros Hj.
    apply list_elem_of_bind in Hj as (zz & Hj & Hzz).
    apply list_elem_of_bind in Hj as (yy & Hj & Hyy).
    apply elem_of_seq in Hj, Hyy, Hzz.
    exists (Box.x0 b + (j - indexXZY (Box.x0 b) yy zz w h l)), yy, zz.
    unfold indexXZY in *. repeat split; lia.
  - intros (x & y & z & (Hbx & Hby & Hbz) & ->).
    apply list_elem_of_bind. exists z. split; [|apply elem_of_seq; lia].
    apply list_elem_of_bind. exists y. split; [|apply elem_of_seq; lia].
    apply elem_of_seq. unfold indexXZY. lia.
Qed.

Lemma length_bind_const {A B} (f : A -> list B) (xs : list A) (n : nat) :
  (forall x, length (f x) = n) -> length (xs ≫= f) = length xs * n.
Proof.
  intros Hf. induction xs as [|x xs IH]; [reflexivity|].
  change ((x :: xs) ≫= f) with (f x ++ (xs ≫= f)).
  rewrite length_app, Hf, IH. simpl. reflexivity.
Qed.

Lemma boxIndices_length (b : Box.t) :
  inBounds b -> length (boxIndices b) = Box.cells b.
Proof.
  intros (Hx & Hy & Hz). unfold boxIndices, Box.cells.
  rewrite (length_bind_const _ _
             ((Box.y1 b + 1 - Box.y0 b) * (Box.x1 b + 1 - Box.x0 b))).
  - rewrite length_seq.
    replace (Box.x1 b - Box.x0 b + 1) with (Box.x1 b + 1 - Box.x0 b) by lia.
    replace (Box.y1 b - Box.y0 b + 1) with (Box.y1 b + 1 - Box.y0 b) by lia.
    replace (Box.z1 b - Box.z0 b + 1) with (Box.z1 b + 1 - Box.z0 b) by lia.
    lia.
  - intros zz. rewrite (length_bind_const _ _ (Box.x1 b + 1 - Box.x0 b)).
    + rewrite length_seq. reflexivity.
    + intros yy. apply length_seq.
Qed.

Lemma boxIndices_NoDup (b : Box.t) : inBounds b -> NoDup (boxIndices b).
Proof.
  intros (Hx & Hy & Hz). unfold boxIndices.
  assert (Hmem : forall j yy zz,
             j ∈ seq (indexXZY (Box.x0 b) yy zz w h l) (Box.x1 b + 1 - Box.x0 b) ->
             exists x, x < w /\ j = indexXZY x yy zz w h l).
  { intros j yy zz Hj. apply elem_of_seq in Hj.
    exists (Box.x0 b + (j - indexXZY (Box.x0 b) yy zz w h l)).
    unfold indexXZY in *. split; lia. }
  apply NoDup_bind; [| |apply NoDup_seq].
  - intros z1 z2 j Hz1 Hz2 Hj1 Hj2.
    apply elem_of_seq in Hz1, Hz2.
    apply list_elem_of_bind in Hj1 as (y1 & Hj1 & _).
    apply list_elem_of_bind in Hj2 as (y2 & Hj2 & _).
    apply Hmem in Hj1 as (xa & Hxa & ->).
    apply Hmem in Hj2 as (xb & Hxb & Heq).
    apply index_inj in Heq; lia.
  - intros zz Hzz. apply elem_of_seq in Hzz.
    apply NoDup_bind; [| |apply NoDup_seq].
    + intros y1 y2 j _ _ Hj1 Hj2.
      apply Hmem in Hj1 as (xa & Hxa & ->).
      apply Hmem in Hj2 as (xb & Hxb & Heq).
      apply index_inj in Heq; lia.
    + intros yy _. apply NoDup_seq.
Qed.

Lemma boxIndices_lt (b : Box.t) (j : nat) :
  inBounds b -> j ∈ boxIndices b -> j < w * h * l.
Proof.
  intros Hb Hj. pose proof Hb as (Hx & Hy & Hz).
  apply (elem_of_boxIndices b j Hb) in Hj as (x & y & z & (Hbx & Hby & Hbz) & ->).
  apply index_lt; lia.
Qed.
End Marking.

(** ** The merger over a memoising getter *)

Section MergerFacts.
Context {St : Type}.
Variable getKey : nat -> St -> option string * St.
Variables w h l : nat.

(** [cached s i] is the key the getter has already fixed for cell [i]. *)
Variable cached : St -> nat -> option (option string).
Hypothesis get_cached :
  forall i s, cached (snd (getKey i s)) i = Some (fst (getKey i s)).
Hypothesis get_mono :
  forall i s j kj, cached s j = Some kj -> cached (snd (getKey i s)) j = Some kj.

Local Abbreviation reach := (reach getKey).
Local Abbreviation free := (free cached).
Local Abbreviation emitted := (emitted w h l cached).
Local Abbreviation invariant := (invariant w h l cached).
Local Abbreviation originShape := (originShape w h l cached).
Local Abbreviation originInvariant := (originInvariant w h l cached).

Lemma reach_trans (s1 s2 s3 : St) : reach s1 s2 -> reach s2 s3 -> reach s1 s3.
Proof.
  induction 1 as [s|s i s' _ IH]; intros H23; [exact H23|].
  apply (reach_step getKey s i). apply IH, H23.
Qed.

Lemma reach_get (i : nat) (s : St) : reach s (snd (getKey i s)).
Proof. apply (reach_step getKey s i), reach_refl. Qed.

Lemma reach_cached (s s' : St) (j : nat) (k : option string) :
  reach s s' -> cached s j = Some k -> cached s' j = Some k.
Proof.
  induction 1 as [s|s i s' _ IH]; intros Hc; [exact Hc|].
  apply IH, get_mono, Hc.
Qed.

(** An invariant of the getter holds in every reachable state. *)
Lemma reach_invariant (P : St -> Prop) (s s' : St) :
  (forall i s, P s -> P (snd (getKey i s))) -> reach s s' -> P s -> P s'.
Proof.
  intros Hstep. induction 1 as [s|s i s' _ IH]; intros HP; [exact HP|].
  apply IH, Hstep, HP.
Qed.

Lemma free_reach (visited : list bool) (s s' : St) (k : string) (j : nat) :
  reach s s' -> free visited s k j -> free visited s' k j.
Proof. intros Hr [Hv Hc]. split; [exact Hv|]. eapply reach_cached; eassumption. Qed.

Lemma strictEq_true (a b : option string) : strictEq a b = true -> a = b.
Proof.
  destruct a as [a|], b as [b|]; simpl; try discriminate; [|reflexivity].
  intros H. apply String.eqb_eq in H. congruence.
Qed.

Lemma sameKey_spec (i j : nat) (s : St) (same : bool) (s' : St) :
  sameKey getKey i j s = (same, s') ->
  reach s s' /\
  (same = true -> exists k, cached s' i = Some (Some k) /\ cached s' j = Some (Some k)).
Proof.
  unfold sameKey.
  pose proof (get_cached i s) as Hci. pose proof (reach_get i s) as Hri.
  destruct (getKey i s) as [k0 s1]. simpl in Hci, Hri.
  destruct (truthyKey k0) eqn:Ht; simpl.
  - pose proof (get_cached j s1) as Hcj. pose proof (reach_get j s1) as Hrj.
    pose proof (get_mono j s1 i k0 Hci) as Hci'.
    destruct (getKey j s1) as [k1 s2]. simpl in Hcj, Hrj, Hci'.
    intros [= <- <-]. split; [eapply reach_trans; eassumption|].
    intros Heq. apply strictEq_true in Heq. subst k1.
    destruct k0 as [k|]; [|discriminate]. exists k. auto.
  - intros [= <- <-]. split; [exact Hri|discriminate].
Qed.

Lemma blocked_spec (visited : list bool) (i j : nat) (s : St) (stop : bool) (s' : St) :
  blocked getKey visited i j s = (stop, s') ->
  reach s s' /\
  (forall k0, cached s i = Some (Some k0) -> stop = false -> free visited s' k0 j).
Proof.
  unfold blocked. destruct (isVisited visited j) eqn:Hv.
  - intros [= <- <-]. split; [apply reach_refl|discriminate].
  - destruct (sameKey getKey i j s) as [same s1] eqn:Hs.
    apply sameKey_spec in Hs as [Hr Hsame].
    intros [= <- <-]. split; [exact Hr|].
    intros k0 Hk0 Hstop. apply negb_false_iff in Hstop.
    destruct (Hsame Hstop) as (k & Hki & Hkj).
    pose proof (reach_cached _ _ _ _ Hr Hk0) as Hk0'.
    rewrite Hki in Hk0'. injection Hk0' as ->.
    split; assumption.
Qed.

Lemma expandX_spec (visited : list bool) (i y0 z0 : nat) (k0 : string)
    (room x1 : nat) (s : St) (x1' : nat) (s' : St) :
  expandX getKey w h l visited i y0 z0 room x1 s = (x1', s') ->
  cached s i = Some (Some k0) ->
  reach s s' /\ x1 <= x1' <= x1 + room /\
  (forall x, x1 < x <= x1' -> free visited s' k0 (indexXZY x y0 z0 w h l)).
Proof.
  revert x1 s. induction room as [|room IH]; intros x1 s; simpl.
  - intros [= <- <-] _. split; [apply reach_refl|]. split; [lia|]. intros x Hx. lia.
  - destruct (blocked getKey visited i (indexXZY (x1 + 1) y0 z0 w h l) s)
      as [stop s1] eqn:Hb.
    apply blocked_spec in Hb as [Hr Hfree].
    destruct stop.
    + intros [= <- <-] _. split; [exact Hr|]. split; [lia|]. intros x Hx. lia.
    + intros Hrec Hk0.
      apply IH in Hrec as (Hr' & Hle & Hcells);
        [|eapply reach_cached; eassumption].
      split; [eapply reach_trans; eassumption|]. split; [lia|].
      intros x Hx. destruct (decide (x = x1 + 1)) as [->|Hne].
      * eapply free_reach; [exact Hr'|]. apply Hfree; [exact Hk0|reflexivity].
      * apply Hcells. lia.
Qed.

Lemma scanRow_spec (visited : list bool) (i yy zz : nat) (k0 : string)
    (n xi : nat) (s : St) (ok : bool) (s' : St) :
  scanRow getKey w h l visited i yy zz n xi s = (ok, s') ->
  cached s i = Some (Some k0) ->
  reach s s' /\
  (ok = true ->
   forall x, xi <= x < xi + n -> free visited s' k0 (indexXZY x yy zz w h l)).
Proof.
  revert xi s. induction n as [|n IH]; intros xi s; simpl.
  - intros [= <- <-] _. split; [apply reach_refl|]. intros _ x Hx. lia.
  - destruct (blocked getKey visited i (indexXZY xi yy zz w h l) s)
      as [stop s1] eqn:Hb.
    apply blocked_spec in Hb as [Hr Hfree].
    destruct stop.
    + intros [= <- <-] _. split; [exact Hr|discriminate].
    + intros Hrec Hk0.
      apply IH in Hrec as (Hr' & Hcells);
        [|eapply reach_cached; eassumption].
      split; [eapply reach_trans; eassumption|].
      intros Hok x Hx. destruct (decide (x = xi)) as [->|Hne].
      * eapply free_reach; [exact Hr'|]. apply Hfree; [exact Hk0|reflexivity].
      * apply Hcells; [exact Hok|lia].
Qed.

Lemma expandZ_spec (visited : list bool) (i x0 x1 y0 : nat) (k0 : string)
    (room z1 : nat) (s : St) (z1' : nat) (s' : St) :
  expandZ getKey w h l visited i x0 x1 y0 room z1 s = (z1', s') ->
  cached s i = Some (Some k0) ->
  reach s s' /\ z1 <= z1' <= z1 + room /\
  (forall x z, z1 < z <= z1' -> x0 <= x <= x1 ->
               free visited s' k0 (indexXZY x y0 z w h l)).
Proof.
  revert z1 s. induction room as [|room IH]; intros z1 s; simpl.
  - intros [= <- <-] _. split; [apply reach_refl|]. split; [lia|]. intros x z Hz. lia.
  - destruct (scanRow getKey w h l visited i y0 (z1 + 1) (x1 + 1 - x0) x0 s)
      as [ok s1] eqn:Hrow.
    intros Hrec Hk0.
    apply (scanRow_spec _ _ _ _ k0) in Hrow as [Hr Hfree]; [|exact Hk0].
    destruct ok.
    + apply IH in Hrec as (Hr' & Hle & Hcells);
        [|eapply reach_cached; eassumption].
      split; [eapply reach_trans; eassumption|]. split; [lia|].
      intros x z Hz Hx. destruct (decide (z = z1 + 1)) as [->|Hne].
      * eapply free_reach; [exact Hr'|]. apply Hfree; [reflexivity|lia].
      * apply Hcells; lia.
    + injection Hrec as <- <-. split; [exact Hr|]. split; [lia|].
      intros x z Hz. lia.
Qed.

Lemma scanSlab_spec (visited : list bool) (i x0 x1 yy : nat) (k0 : string)
    (n zi : nat) (s : St) (ok : bool) (s' : St) :
  scanSlab getKey w h l visited i x0 x1 yy n zi s = (ok, s') ->
  cached s i = Some (Some k0) ->
  reach s s' /\
  (ok = true ->
   forall x z, zi <= z < zi + n -> x0 <= x <= x1 ->
               free visited s' k0 (indexXZY x yy z w h l)).
Proof.
  revert zi s. induction n as [|n IH]; intros zi s; simpl.
  - intros [= <- <-] _. split; [apply reach_refl|]. intros _ x z Hz. lia.
  - destruct (scanRow getKey w h l visited i yy zi (x1 + 1 - x0) x0 s)
      as [ok1 s1] eqn:Hrow.
    intros Hrec Hk0.
    apply (scanRow_spec _ _ _ _ k0) in Hrow as [Hr Hfree]; [|exact Hk0].
    destruct ok1.
    + apply IH in Hrec as (Hr' & Hcells);
        [|eapply reach_cached; eassumption].
      split; [eapply reach_trans; eassumption|].
      intros Hok x z Hz Hx. destruct (decide (z = zi)) as [->|Hne].
      * eapply free_reach; [exact Hr'|]. apply Hfree; [reflexivity|lia].
      * apply Hcells; [exact Hok|lia|lia].
    + injection Hrec as <- <-. split; [exact Hr|discriminate].
Qed.

Lemma expandY_spec (visited : list bool) (i x0 x1 z0 z1 : nat) (k0 : string)
    (room y1 : nat) (s : St) (y1' : nat) (s' : St) :
  expandY getKey w h l visited i x0 x1 z0 z1 room y1 s = (y1', s') ->
  cached s i = Some (Some k0) ->
  reach s s' /\ y1 <= y1' <= y1 + room /\
  (forall x y z, y1 < y <= y1' -> z0 <= z <= z1 -> x0 <= x <= x1 ->
                 free visited s' k0 (indexXZY x y z w h l)).
Proof.
  revert y1 s. induction room as [|room IH]; intros y1 s; simpl.
  - intros [= <- <-] _. split; [apply reach_refl|]. split; [lia|]. intros x y z Hy. lia.
  - destruct (scanSlab getKey w h l visited i x0 x1 (y1 + 1) (z1 + 1 - z0) z0 s)
      as [ok s1] eqn:Hslab.
    intros Hrec Hk0.
    apply (scanSlab_spec _ _ _ _ _ k0) in Hslab as [Hr Hfree]; [|exact Hk0].
    destruct ok.
    + apply IH in Hrec as (Hr' & Hle & Hcells);
        [|eapply reach_cached; eassumption].
      split; [eapply reach_trans; eassumption|]. split; [lia|].
      intros x y z Hy Hz Hx. destruct (decide (y = y1 + 1)) as [->|Hne].
      * eapply free_reach; [exact Hr'|]. apply Hfree; [reflexivity|lia|lia].
      * apply Hcells; lia.
    + injection Hrec as <- <-. split; [exact Hr|]. split; [lia|].
      intros x y z Hy. lia.
Qed.

(** The box grown from a free cell lies inside the volume and covers
    free cells of one key only. *)
Lemma growBox_spec (visited : list bool) (i : nat) (k0 : string) (s : St)
    (b : Box.t) (s' : St) :
  growBox getKey w h l visited i k0 s = (b, s') ->
  i < w * h * l ->
  free visited s k0 i ->
  reach s s' /\ inBounds w h l b /\ Box.key b = k0 /\
  Box.contains b (i mod w) (i / (w * l)) ((i / w) mod l) /\
  (forall x y z, Box.contains b x y z -> free visited s' k0 (indexXZY x y z w h l)).
Proof.
  intros Hgrow Hi Hfree0. unfold growBox, coordsXZY in Hgrow.
  destruct (coords_bounds w h l i Hi) as (Hx0 & Hy0 & Hz0).
  pose proof (index_coords w h l i Hi) as Hidx.
  set (x0 := i mod w) in *. set (y0 := i / (w * l)) in *. set (z0 := (i / w) mod l) in *.
  destruct (expandX getKey w h l visited i y0 z0 (w - (x0 + 1)) x0 s) as [x1 s1] eqn:HX.
  destruct (expandZ getKey w h l visited i x0 x1 y0 (l - (z0 + 1)) z0 s1) as [z1 s2] eqn:HZ.
  destruct (expandY getKey w h l visited i x0 x1 z0 z1 (h - (y0 + 1)) y0 s2) as [y1 s3] eqn:HY.
  injection Hgrow as <- <-.
  destruct Hfree0 as [Hv0 Hc0].
  apply (expandX_spec _ _ _ _ k0) in HX as (Hr1 & Hx1 & HcX); [|exact Hc0].
  pose proof (reach_cached _ _ _ _ Hr1 Hc0) as Hc1.
  apply (expandZ_spec _ _ _ _ _ k0) in HZ as (Hr2 & Hz1 & HcZ); [|exact Hc1].
  pose proof (reach_cached _ _ _ _ Hr2 Hc1) as Hc2.
  apply (expandY_spec _ _ _ _ _ _ k0) in HY as (Hr3 & Hy1 & HcY); [|exact Hc2].
  pose proof (reach_cached _ _ _ _ Hr3 Hc2) as Hc3.
  split; [eapply reach_trans; [eapply reach_trans|]; eassumption|].
  split; [unfold inBounds; simpl; lia|].
  split; [reflexivity|].
  split; [unfold Box.contains; simpl; lia|].
  intros x y z (Hbx & Hby & Hbz). simpl in Hbx, Hby, Hbz.
  destruct (decide (y = y0)) as [->|Hy].
  - destruct (decide (z = z0)) as [->|Hz].
    + destruct (decide (x = x0)) as [->|Hx].
      * rewrite Hidx. split; assumption.
      * eapply free_reach; [exact (reach_trans _ _ _ Hr2 Hr3)|]. apply HcX. lia.
    + eapply free_reach; [exact Hr3|]. apply HcZ; lia.
  - apply HcY; lia.
Qed.

(** *** The loop over all cells *)

Local Abbreviation falsyCached := (falsyCached cached).
Local Abbreviation emptyCells := (emptyCells cached).

Lemma emptyCells_S (s : St) (n : nat) :
  emptyCells s (S n) = emptyCells s n + (if falsyCached s n then 1 else 0).
Proof.
  unfold emptyCells. rewrite seq_S, List.filter_app, length_app. simpl.
  destruct (falsyCached s n); reflexivity.
Qed.

Lemma emptyCells_reach (s s' : St) (n : nat) :
  reach s s' ->
  (forall j, j < n -> exists k, cached s j = Some k) ->
  emptyCells s' n = emptyCells s n.
Proof.
  intros Hr Hknown. induction n as [|n IH]; [reflexivity|].
  rewrite !emptyCells_S, IH by (intros j Hj; apply Hknown; lia).
  destruct (Hknown n ltac:(lia)) as [k Hk].
  unfold falsyCached. rewrite Hk, (reach_cached _ _ _ _ Hr Hk). reflexivity.
Qed.

Lemma totalCells_snoc (out : list Box.t) (b : Box.t) :
  totalCells (out ++ [b]) = totalCells out + Box.cells b.
Proof.
  unfold totalCells. induction out as [|b' out IH]; [simpl; lia|].
  change ((b' :: out) ++ [b]) with (b' :: (out ++ [b])).
  rewrite !fmap_cons. simpl. rewrite IH. lia.
Qed.

Lemma emitted_mono (visited visited' : list bool) (s s' : St) (b : Box.t) :
  (forall j, isVisited visited j = true -> isVisited visited' j = true) ->
  reach s s' -> emitted visited s b -> emitted visited' s' b.
Proof.
  intros Hv Hr (Hb & Hk & Hcells). split; [exact Hb|]. split; [exact Hk|].
  intros x y z Hc. destruct (Hcells x y z Hc) as [H1 H2].
  split; [apply Hv, H1|eapply reach_cached; eassumption].
Qed.

Lemma invariant_init (s : St) : invariant 0 (replicate (w * h * l) false) [] s.
Proof.
  assert (Hnone : forall j, isVisited (replicate (w * h * l) false) j = false).
  { intros j. unfold isVisited.
    destruct (replicate (w * h * l) false !! j) as [b|] eqn:Hb; [|reflexivity].
    apply lookup_replicate in Hb as [-> _]. reflexivity. }
  constructor.
  - apply length_replicate.
  - intros j Hj. lia.
  - intros j Hj. rewrite Hnone in Hj. discriminate.
  - intros j Hj. rewrite Hnone in Hj. discriminate.
  - constructor.
  - intros m n b1 b2 _ Hm. rewrite lookup_nil in Hm. discriminate.
  - rewrite countTrue_replicate. reflexivity.
Qed.

Lemma invariant_step (i : nat) (visited : list bool) (out : list Box.t) (s : St)
    (visited' : list bool) (out' : list Box.t) (s' : St) :
  i < w * h * l ->
  invariant i visited out s ->
  mergeStep getKey w h l (visited, out, s) i = (visited', out', s') ->
  invariant (S i) visited' out' s' /\ reach s s'.
Proof.
  intros Hi [Hlen Hbelow Hknown Habove Hboxes Hdisj Hcount]. unfold mergeStep.
  destruct (isVisited visited i) eqn:Hvi.
  - (* already inside a box *)
    intros [= <- <- <-]. split; [|apply reach_refl].
    destruct (Habove i Hvi ltac:(lia)) as (k & Hk & Hck).
    constructor; try assumption.
    + intros j Hj. destruct (decide (j = i)) as [->|]; [exact Hvi|apply Hbelow; lia].
    + intros j Hj Hle. apply Habove; [exact Hj|lia].
    + rewrite emptyCells_S. unfold falsyCached. rewrite Hck. simpl. rewrite Hk. simpl. lia.
  - pose proof (get_cached i s) as Hci. pose proof (reach_get i s) as Hr1.
    destruct (getKey i s) as [k0 s1]. simpl in Hci, Hr1.
    assert (Hskip :
              truthyKey k0 = false ->
              invariant (S i) (<[i := true]> visited) out s1).
    { intros Hfalsy.
      assert (Hsub : forall j, isVisited visited j = true ->
                               isVisited (<[i := true]> visited) j = true).
      { intros j Hj. rewrite isVisited_insert by lia. rewrite Hj. reflexivity. }
      constructor.
      - rewrite length_insert. exact Hlen.
      - intros j Hj. rewrite isVisited_insert by lia.
        destruct (decide (j = i)) as [->|Hne].
        + rewrite bool_decide_eq_true_2 by reflexivity. apply orb_true_r.
        + rewrite Hbelow by lia. reflexivity.
      - intros j Hj. rewrite isVisited_insert in Hj by lia.
        apply orb_true_iff in Hj as [Hj|Hj].
        + destruct (Hknown j Hj) as [k Hk]. exists k. eapply reach_cached; eassumption.
        + apply bool_decide_eq_true in Hj as ->. exists k0. exact Hci.
      - intros j Hj Hle. rewrite isVisited_insert in Hj by lia.
        apply orb_true_iff in Hj as [Hj|Hj].
        + destruct (Habove j Hj ltac:(lia)) as (k & Hk & Hck).
          exists k. split; [exact Hk|]. eapply reach_cached; eassumption.
        + apply bool_decide_eq_true in Hj. lia.
      - eapply Forall_impl; [exact Hboxes|]. intros b Hb.
        eapply emitted_mono; eassumption.
      - exact Hdisj.
      - rewrite countTrue_insert by (apply isVisited_false_lookup; [lia|exact Hvi]).
        rewrite emptyCells_S.
        rewrite (emptyCells_reach s s1 i Hr1)
          by (intros j Hj; apply Hknown, Hbelow, Hj).
        unfold falsyCached. rewrite Hci, Hfalsy. simpl. lia. }
    destruct k0 as [k|]; [|intros [= <- <- <-]; split; [apply Hskip; reflexivity|exact Hr1]].
    destruct (Js.nonEmpty k) eqn:Hk;
      [|intros [= <- <- <-]; split; [apply Hskip; exact Hk|exact Hr1]].
    clear Hskip.
    destruct (growBox getKey w h l visited i k s1) as [b s2] eqn:Hgrow.
    intros [= <- <- <-].
    apply growBox_spec in Hgrow as (Hr2 & Hb & Hkey & Hstart & Hfree);
      [|exact Hi|split; assumption].
    pose proof (reach_trans _ _ _ Hr1 Hr2) as Hr.
    split; [|exact Hr].
    assert (Hin : forall j, j ∈ boxIndices w h l b -> j < length visited).
    { intros j Hj. rewrite Hlen. eapply boxIndices_lt; eassumption. }
    assert (Hvis : forall j, isVisited (markVisited w h l b visited) j = true <->
                             isVisited visited j = true \/ j ∈ boxIndices w h l b).
    { intros j. rewrite markVisited_markAll. apply markAll_visited, Hin. }
    assert (Hsub : forall j, isVisited visited j = true ->
                             isVisited (markVisited w h l b visited) j = true).
    { intros j Hj. apply Hvis. left. exact Hj. }
    assert (Hcell : forall j, j ∈ boxIndices w h l b -> free visited s2 k j).
    { intros j Hj. apply (elem_of_boxIndices w h l b j Hb) in Hj as (x & y & z & Hc & ->).
      apply Hfree, Hc. }
    constructor.
    + rewrite markVisited_markAll, markAll_length. exact Hlen.
    + intros j Hj. apply Hvis. destruct (decide (j = i)) as [->|Hne].
      * right. apply (elem_of_boxIndices w h l b i Hb).
        eexists _, _, _. split; [exact Hstart|].
        symmetry. apply index_coords, Hi.
      * left. apply Hbelow. lia.
    + intros j Hj. apply Hvis in Hj as [Hj|Hj].
      * destruct (Hknown j Hj) as [k' Hk']. exists k'. eapply reach_cached; eassumption.
      * exists (Some k). apply (Hcell j Hj).
    + intros j Hj Hle. apply Hvis in Hj as [Hj|Hj].
      * destruct (Habove j Hj ltac:(lia)) as (k' & Hk' & Hck').
        exists k'. split; [exact Hk'|]. eapply reach_cached; eassumption.
      * exists k. split; [exact Hk|]. apply (Hcell j Hj).
    + apply Forall_app. split.
      * eapply Forall_impl; [exact Hboxes|]. intros b' Hb'.
        eapply emitted_mono; eassumption.
      * constructor; [|constructor]. split; [exact Hb|]. split; [rewrite Hkey; exact Hk|].
        intros x y z Hc. split.
        -- apply Hvis. right. apply (elem_of_boxIndices w h l b _ Hb). eauto.
        -- rewrite Hkey. apply (Hfree x y z Hc).
    + assert (Hnew : forall b', b' ∈ out -> disjoint b' b).
      { intros b' Hb' x y z [Hc1 Hc2].
        rewrite Forall_forall in Hboxes.
        destruct (Hboxes b' Hb') as (_ & _ & Hcells).
        destruct (Hcells x y z Hc1) as [Hv1 _].
        destruct (Hfree x y z Hc2) as [Hv2 _]. congruence. }
      intros m n b1 b2 Hmn Hm Hn.
      apply lookup_app_Some in Hm as [Hm|[Hlm Hm]];
        apply lookup_app_Some in Hn as [Hn|[Hln Hn]].
      * eapply Hdisj; eassumption.
      * apply list_lookup_singleton_Some in Hn as [_ <-].
        apply Hnew. eapply list_elem_of_lookup_2, Hm.
      * apply list_lookup_singleton_Some in Hm as [_ <-].
        intros x y z [H1 H2]. eapply Hnew; [eapply list_elem_of_lookup_2, Hn|].
        split; eassumption.
      * apply list_lookup_singleton_Some in Hm as [Hm _].
        apply list_lookup_singleton_Some in Hn as [Hn _]. lia.
    + rewrite markVisited_markAll, markAll_count.
      * rewrite totalCells_snoc, emptyCells_S, (boxIndices_length w h l b Hb), Hcount.
        rewrite (emptyCells_reach s s2 i Hr)
          by (intros j Hj; apply Hknown, Hbelow, Hj).
        unfold falsyCached.
        rewrite (reach_cached _ _ _ _ Hr2 Hci). simpl. rewrite Hk. simpl. lia.
      * apply boxIndices_NoDup, Hb.
      * intros j Hj. split; [apply Hin, Hj|apply (Hcell j Hj)].
Qed.

Lemma invariant_loop (n i : nat) (visited : list bool) (out : list Box.t) (s : St)
    (visited' : list bool) (out' : list Box.t) (s' : St) :
  i + n <= w * h * l ->
  invariant i visited out s ->
  fold_left (mergeStep getKey w h l) (seq i n) (visited, out, s) = (visited', out', s') ->
  invariant (i + n) visited' out' s' /\ reach s s'.
Proof.
  revert i visited out s.
  induction n as [|n IH]; intros i visited out s Hle Hinv; cbn [seq fold_left].
  - intros [= <- <- <-]. rewrite Nat.add_0_r. split; [exact Hinv|apply reach_refl].
  - destruct (mergeStep getKey w h l (visited, out, s) i) as [[v1 o1] s1] eqn:Hstep.
    apply invariant_step in Hstep as [Hinv1 Hr1]; [|lia|exact Hinv].
    intros Hrest. apply IH in Hrest as [Hinv2 Hr2]; [|lia|exact Hinv1].
    replace (i + S n) with (S i + n) by lia.
    split; [exact Hinv2|eapply reach_trans; eassumption].
Qed.

(** What the merge pass establishes. *)
Lemma mergeLoop_invariant (s : St) (visited : list bool) (out : list Box.t) (s' : St) :
  mergeLoop getKey w h l s = (visited, out, s') ->
  invariant (w * h * l) visited out s' /\ reach s s'.
Proof.
  unfold mergeLoop. rewrite length_replicate. intros Hloop.
  apply (invariant_loop (w * h * l) 0) in Hloop; [exact Hloop|lia|apply invariant_init].
Qed.

Lemma mergeLoop_conservation (s : St) (visited : list bool) (out : list Box.t) (s' : St) :
  mergeLoop getKey w h l s = (visited, out, s') ->
  totalCells out + emptyCells s' (w * h * l) = w * h * l.
Proof.
  intros Hloop. apply mergeLoop_invariant in Hloop as [[Hlen Hbelow _ _ _ _ Hcount] _].
  rewrite <- Hcount, <- Hlen. apply countTrue_full.
  intros j Hj. apply Hbelow. lia.
Qed.

(** *** The loop of the origin finder *)

Local Abbreviation truthyCached := (truthyCached cached).

Lemma lexLe_refl (a : Origin.t) : lexLe a a.
Proof. unfold lexLe. lia. Qed.

Lemma lexLe_trans (a b c : Origin.t) : lexLe a b -> lexLe b c -> lexLe a c.
Proof. unfold lexLe. lia. Qed.

Lemma truthyCached_reach (s s' : St) (j : nat) :
  reach s s' -> (exists k, cached s j = Some k) ->
  truthyCached s' j = truthyCached s j.
Proof.
  intros Hr [k Hk]. unfold truthyCached.
  rewrite Hk, (reach_cached _ _ _ _ Hr Hk). reflexivity.
Qed.

Lemma originStep_invariant (n : nat) (acc : option Origin.t * bound * bound * bound * St) :
  originInvariant n acc ->
  originInvariant (S n) (originStep getKey w h l acc n).
Proof.
  destruct acc as [[[[origin minZ] minX] minY] s]. intros [Hknown Hshape].
  unfold originStep.
  pose proof (get_cached n s) as Hcn. pose proof (reach_get n s) as Hr.
  destruct (getKey n s) as [key s']. simpl in Hcn, Hr.
  assert (Hknown' : forall j, j < S n -> exists k, cached s' j = Some k).
  { intros j Hj. destruct (decide (j = n)) as [->|Hne]; [eauto|].
    destruct (Hknown j ltac:(lia)) as [k Hk]. exists k.
    eapply reach_cached; eassumption. }
  assert (Hold : forall j, j < n -> truthyCached s' j = truthyCached s j).
  { intros j Hj. apply truthyCached_reach; [exact Hr|apply Hknown, Hj]. }
  assert (Hn : truthyCached s' n = truthyKey key).
  { unfold truthyCached. rewrite Hcn. reflexivity. }
  assert (Hkeep : truthyKey key = false \/
                  (exists o, origin = Some o /\ lexLe o (cellOrigin n w h l)) ->
                  originInvariant (S n) (origin, minZ, minX, minY, s')).
  { intros Hcase. split; [exact Hknown'|].
    destruct origin as [o|]; simpl in *.
    - destruct Hshape as (HZ & HX & HY & (j & Hj & Htj & Hoj) & Hmin).
      repeat split; try assumption.
      + exists j. split; [lia|]. split; [rewrite Hold by lia; exact Htj|exact Hoj].
      + intros j' Hj' Ht'. destruct (decide (j' = n)) as [->|Hne].
        * destruct Hcase as [Hf|(o' & [= <-] & Hle)]; [congruence|exact Hle].
        * apply Hmin; [lia|]. rewrite <- Hold by lia. exact Ht'.
    - destruct Hshape as (HZ & HX & HY & Hnone).
      repeat split; try assumption.
      intros j Hj. destruct (decide (j = n)) as [->|Hne].
      + destruct Hcase as [Hf|(o' & [=] & _)]. congruence.
      + rewrite Hold by lia. apply Hnone. lia. }
  destruct (truthyKey key) eqn:Htruthy; cbn [negb]; [|apply Hkeep; left; reflexivity].
  unfold cellOrigin in *.
  destruct (coordsXZY n w h l) as [p z] eqn:Hxyz. destruct p as [x y].
  match goal with |- context [if ?c then _ else _] => destruct c eqn:Hcond end.
  - (* the cell becomes the origin *)
    split; [exact Hknown'|]. simpl. repeat split.
    + exists n. split; [lia|]. split; [congruence|].
      unfold cellOrigin. rewrite Hxyz. reflexivity.
    + intros j Hj Htj. destruct (decide (j = n)) as [->|Hne].
      * unfold cellOrigin. rewrite Hxyz. apply lexLe_refl.
      * destruct origin as [o|]; simpl in Hshape.
        -- destruct Hshape as (-> & -> & -> & _ & Hmin).
           apply lexLe_trans with o; [|apply Hmin; [lia|rewrite <- Hold by lia; exact Htj]].
           unfold lexLe. simpl in *.
           rewrite !orb_true_iff, !andb_true_iff, !Nat.ltb_lt, !Nat.eqb_eq in Hcond. lia.
        -- destruct Hshape as (_ & _ & _ & Hnone).
           rewrite Hold, Hnone in Htj by lia. discriminate.
  - apply Hkeep. right.
    destruct origin as [o|]; simpl in Hshape.
    + exists o. split; [reflexivity|].
      destruct Hshape as (-> & -> & -> & _).
      unfold lexLe. simpl in *.
      rewrite !orb_false_iff, !andb_false_iff, !Nat.ltb_ge, !Nat.eqb_neq in Hcond. lia.
    + destruct Hshape as (-> & _). simpl in Hcond. discriminate.
Qed.

Lemma originStep_reach (acc : option Origin.t * bound * bound * bound * St) (n : nat) :
  reach (snd acc) (snd (originStep getKey w h l acc n)).
Proof.
  destruct acc as [[[[origin minZ] minX] minY] s]. unfold originStep. simpl.
  pose proof (reach_get n s) as Hr. destruct (getKey n s) as [key s']. simpl in Hr.
  destruct (negb (truthyKey key)); [exact Hr|].
  destruct (coordsXZY n w h l) as [[x y] z].
  match goal with |- context [if ?c then _ else _] => destruct c end; exact Hr.
Qed.

Lemma originLoop_steps (m n : nat) (acc : option Origin.t * bound * bound * bound * St) :
  originInvariant n acc ->
  originInvariant (n + m) (fold_left (originStep getKey w h l) (seq n m) acc) /\
  reach (snd acc) (snd (fold_left (originStep getKey w h l) (seq n m) acc)).
Proof.
  revert n acc. induction m as [|m IH]; intros n acc Hinv; cbn [seq fold_left].
  - rewrite Nat.add_0_r. split; [exact Hinv|apply reach_refl].
  - apply originStep_invariant in Hinv.
    destruct (IH (S n) _ Hinv) as [Hinv' Hr].
    replace (n + S m) with (S n + m) by lia.
    split; [exact Hinv'|].
    eapply reach_trans; [apply originStep_reach|exact Hr].
Qed.

Lemma originLoop_invariant (s : St) :
  originInvariant (w * h * l) (originLoop getKey w h l s) /\
  reach s (snd (originLoop getKey w h l s)).
Proof.
  unfold originLoop.
  apply (originLoop_steps (w * h * l) 0 (None, Infinity, Infinity, Infinity, s)).
  split; [intros j Hj; lia|]. simpl. repeat split. intros j Hj. lia.
Qed.
End MergerFacts.

(** ** The getter of [makeMergeKeyGetter] memoises *)

Section GetterFacts.
Variable legacyMap : LegacyMap.
Variable schem : Schem.t.

Lemma getKeyAt_cached (i : nat) (st : GetterState) :
  cachedKey schem (snd (getKeyAt legacyMap schem i st)) i
  = Some (fst (getKeyAt legacyMap schem i st)).
Proof.
  destruct st as [cache T]. unfold getKeyAt, cachedKey.
  destruct (Schem.type schem).
  - destruct (classicToBedrock cache !! classicKey schem i) as [k|] eqn:Hhit;
      [simpl; exact Hhit|].
    destruct (isAirName (classicJavaName legacyMap schem i));
      [simpl; apply lookup_insert_eq|].
    destruct (translateBlock (classicJavaName legacyMap schem i) T) as [br T'].
    simpl. apply lookup_insert_eq.
  - destruct (paletteToBedrock cache !! paletteIndex schem i) as [k|] eqn:Hhit;
      [simpl; exact Hhit|].
    destruct (isAirName (paletteJavaName schem (paletteIndex schem i)));
      [simpl; apply lookup_insert_eq|].
    destruct (translateBlock (paletteJavaName schem (paletteIndex schem i)) T) as [br T'].
    simpl. apply lookup_insert_eq.
  - destruct (paletteToBedrock cache !! paletteIndex schem i) as [k|] eqn:Hhit;
      [simpl; exact Hhit|].
    destruct (isAirName (paletteJavaName schem (paletteIndex schem i)));
      [simpl; apply lookup_insert_eq|].
    destruct (translateBlock (paletteJavaName schem (paletteIndex schem i)) T) as [br T'].
    simpl. apply lookup_insert_eq.
  - destruct (paletteToBedrock cache !! paletteIndex schem i) as [k|] eqn:Hhit;
      [simpl; exact Hhit|].
    destruct (isAirName (paletteJavaName schem (paletteIndex schem i)));
      [simpl; apply lookup_insert_eq|].
    destruct (translateBlock (paletteJavaName schem (paletteIndex schem i)) T) as [br T'].
    simpl. apply lookup_insert_eq.
Qed.

Lemma getKeyAt_mono (i : nat) (st : GetterState) (j : nat) (kj : option string) :
  cachedKey schem st j = Some kj ->
  cachedKey schem (snd (getKeyAt legacyMap schem i st)) j = Some kj.
Proof.
  destruct st as [cache T]. unfold getKeyAt, cachedKey.
  destruct (Schem.type schem); simpl; intros Hj.
  - destruct (classicToBedrock cache !! classicKey schem i) as [k|] eqn:Hhit;
      [simpl; exact Hj|].
    assert (Hne : classicKey schem i <> classicKey schem j) by congruence.
    destruct (isAirName (classicJavaName legacyMap schem i));
      [simpl; rewrite lookup_insert_ne by exact Hne; exact Hj|].
    destruct (translateBlock (classicJavaName legacyMap schem i) T) as [br T'].
    simpl. rewrite lookup_insert_ne by exact Hne. exact Hj.
  - destruct (paletteToBedrock cache !! paletteIndex schem i) as [k|] eqn:Hhit;
      [simpl; exact Hj|].
    assert (Hne : paletteIndex schem i <> paletteIndex schem j) by congruence.
    destruct (isAirName (paletteJavaName schem (paletteIndex schem i)));
      [simpl; rewrite lookup_insert_ne by exact Hne; exact Hj|].
    destruct (translateBlock (paletteJavaName schem (paletteIndex schem i)) T) as [br T'].
    simpl. rewrite lookup_insert_ne by exact Hne. exact Hj.
  - destruct (paletteToBedrock cache !! paletteIndex schem i) as [k|] eqn:Hhit;
      [simpl; exact Hj|].
    assert (Hne : paletteIndex schem i <> paletteIndex schem j) by congruence.
    destruct (isAirName (paletteJavaName schem (paletteIndex schem i)));
      [simpl; rewrite lookup_insert_ne by exact Hne; exact Hj|].
    destruct (translateBlock (paletteJavaName schem (paletteIndex schem i)) T) as [br T'].
    simpl. rewrite lookup_insert_ne by exact Hne. exact Hj.
  - destruct (paletteToBedrock cache !! paletteIndex schem i) as [k|] eqn:Hhit;
      [simpl; exact Hj|].
    assert (Hne : paletteIndex schem i <> paletteIndex schem j) by congruence.
    destruct (isAirName (paletteJavaName schem (paletteIndex schem i)));
      [simpl; rewrite lookup_insert_ne by exact Hne; exact Hj|].
    destruct (translateBlock (paletteJavaName schem (paletteIndex schem i)) T) as [br T'].
    simpl. rewrite lookup_insert_ne by exact Hne. exact Hj.
Qed.

Lemma mergeBoxes_invariant (T : Table) :
  invariant (Schem.width schem) (Schem.height schem) (Schem.length schem)
    (cachedKey schem) (Schem.volume schem)
    (fst (fst (mergeLoop (getKeyAt legacyMap schem)
                 (Schem.width schem) (Schem.height schem) (Schem.length schem)
                 (emptyCache, T))))
    (fst (mergeBoxes legacyMap schem T)) (snd (mergeBoxes legacyMap schem T)).
Proof.
  unfold mergeBoxes.
  destruct (mergeLoop (getKeyAt legacyMap schem)
              (Schem.width schem) (Schem.height schem) (Schem.length schem)
              (emptyCache, T)) as [[visited out] st] eqn:Hloop.
  simpl.
  apply (mergeLoop_invariant _ _ _ _ (cachedKey schem) getKeyAt_cached getKeyAt_mono)
    in Hloop as [Hinv _].
  exact Hinv.
Qed.
End GetterFacts.

(** * The claims *)

(** C1 (as amended): the cell counts [(x2-x1+1)*(y2-y1+1)*(z2-z1+1)] of
    the emitted boxes plus the number of cells whose key is null or the
    empty string is [W * H * L]; every cell has its key fixed by the end
    of the pass, and every box has its corners in order. *)
Theorem merge_volume_conservation (legacyMap : LegacyMap) (schem : Schem.t) (T : Table) :
  (forall i, i < Schem.volume schem ->
     exists k, cachedKey schem (snd (mergeBoxes legacyMap schem T)) i = Some k) /\
  Forall (fun b => Box.x0 b <= Box.x1 b /\ Box.y0 b <= Box.y1 b /\ Box.z0 b <= Box.z1 b)
         (fst (mergeBoxes legacyMap schem T)) /\
  totalCells (fst (mergeBoxes legacyMap schem T))
  + emptyCells (cachedKey schem) (snd (mergeBoxes legacyMap schem T)) (Schem.volume schem)
  = Schem.volume schem.
Proof.
  pose proof (mergeBoxes_invariant legacyMap schem T) as Hinv.
  destruct Hinv as [Hlen Hbelow Hknown _ Hboxes _ Hcount].
  split; [|split].
  - intros i Hi. apply Hknown, Hbelow, Hi.
  - eapply Forall_impl; [exact Hboxes|].
    intros b ((Hx & Hy & Hz) & _). lia.
  - unfold Schem.volume in *. rewrite <- Hcount, <- Hlen. apply countTrue_full.
    intros j Hj. apply Hbelow. lia.
Qed.

(** C1 as stated fails: a cell whose key is the empty string (palette
    entry [minecraft:]) is in no box and its key is not null. *)
Lemma merge_volume_null_counterexample :
  let schem := Schem.mk 1 1 1 modern [] [] [0] ["minecraft:"%string] in
  cachedKey schem (snd (mergeBoxes ∅ schem ∅)) 0 = Some (Some ""%string) /\
  totalCells (fst (mergeBoxes ∅ schem ∅))
  + nullCells (cachedKey schem) (snd (mergeBoxes ∅ schem ∅)) (Schem.volume schem)
  <> Schem.volume schem.
Proof. vm_compute. split; [reflexivity|discriminate]. Qed.

(** C2: the emitted boxes lie inside the volume and no two of them have
    a cell in common. *)
Theorem merge_boxes_disjoint (legacyMap : LegacyMap) (schem : Schem.t) (T : Table) :
  Forall (inBounds (Schem.width schem) (Schem.height schem) (Schem.length schem))
         (fst (mergeBoxes legacyMap schem T)) /\
  forall m n b1 b2,
    m <> n ->
    fst (mergeBoxes legacyMap schem T) !! m = Some b1 ->
    fst (mergeBoxes legacyMap schem T) !! n = Some b2 ->
    forall x y z, ~ (Box.contains b1 x y z /\ Box.contains b2 x y z).
Proof.
  pose proof (mergeBoxes_invariant legacyMap schem T) as Hinv.
  destruct Hinv as [_ _ _ _ Hboxes Hdisj _]. split.
  - eapply Forall_impl; [exact Hboxes|]. intros b (Hb & _). exact Hb.
  - intros m n b1 b2 Hmn Hm Hn. exact (Hdisj m n b1 b2 Hmn Hm Hn).
Qed.

Lemma merge_boxes_disjoint_witness :
  ~ (Box.contains (Box.mk 0 0 0 1 1 1 "stone") 2 1 1 /\
     Box.contains (Box.mk 2 0 1 2 1 1 "dirt") 2 1 1).
Proof.
  pose (schem := Schem.mk 3 2 2 modern [] []
                   [1; 1; 0; 1; 1; 2; 1; 1; 2; 1; 1; 2]
                   ["minecraft:air"; "minecraft:stone"; "dirt"]%string).
  apply (proj2 (merge_boxes_disjoint ∅ schem ∅) 0 1).
  - lia.
  - vm_compute. reflexivity.
  - vm_compute. reflexivity.
Defined.

(** C6 (as amended): [findOrigin] returns the cell that is least in
    (z, x, y) order among the cells whose key is neither null nor the
    empty string, and (0,0,0) when there is no such cell. *)
Theorem findOrigin_minimal (legacyMap : LegacyMap) (schem : Schem.t) (T : Table) :
  let st := snd (originPass legacyMap schem T) in
  let o := fst (findOrigin legacyMap schem T) in
  let w := Schem.width schem in
  let h := Schem.height schem in
  let l := Schem.length schem in
  ((forall i, i < w * h * l -> truthyCached (cachedKey schem) st i = false) ->
   o = Origin.mk 0 0 0) /\
  ((exists i, i < w * h * l /\ truthyCached (cachedKey schem) st i = true) ->
   (exists i, i < w * h * l /\ truthyCached (cachedKey schem) st i = true /\
              cellOrigin i w h l = o) /\
   (forall j, j < w * h * l -> truthyCached (cachedKey schem) st j = true ->
              lexLe o (cellOrigin j w h l))).
Proof.
  intros st o w h l. subst st o. unfold findOrigin, originPass.
  pose proof (originLoop_invariant (getKeyAt legacyMap schem) w h l (cachedKey schem)
                (getKeyAt_cached legacyMap schem) (getKeyAt_mono legacyMap schem)
                (emptyCache, T)) as [Hinv _].
  fold w h l.
  destruct (originLoop (getKeyAt legacyMap schem) w h l (emptyCache, T))
    as [[[[origin minZ] minX] minY] st].
  destruct Hinv as [_ Hshape]. simpl.
  destruct origin as [o|]; simpl in Hshape |- *.
  - destruct Hshape as (_ & _ & _ & (j & Hj & Htj & Hoj) & Hmin). split.
    + intros Hnone. rewrite Hnone in Htj by exact Hj. discriminate.
    + intros _. split; [exists j; auto|exact Hmin].
  - destruct Hshape as (_ & _ & _ & Hnone). split; [reflexivity|].
    intros (i & Hi & Hti). rewrite Hnone in Hti by exact Hi. discriminate.
Qed.

(** C6 as stated fails: cell 0 has the empty key, which is not null,
    and precedes the origin that is returned. *)
Lemma findOrigin_nonnull_counterexample :
  let schem := Schem.mk 2 1 1 modern [] [] [0; 1]
                 ["minecraft:"; "minecraft:stone"]%string in
  let st := snd (originPass ∅ schem ∅) in
  ~ (forall j, j < 2 * 1 * 1 -> nullCached (cachedKey schem) st j = false ->
               lexLe (fst (findOrigin ∅ schem ∅)) (cellOrigin j 2 1 1)).
Proof.
  intros schem st H. specialize (H 0 ltac:(lia)).
  assert (Hnn : nullCached (cachedKey schem) st 0 = false) by (vm_compute; reflexivity).
  specialize (H Hnn).
  assert (Ho : fst (findOrigin ∅ schem ∅) = Origin.mk 1 0 0) by (vm_compute; reflexivity).
  rewrite Ho in H. vm_compute in H. lia.
Qed.

(** ** The two filters of the translator *)

Lemma filtered_cases (n : string) :
  filtered n = true ->
  n = "minecraft:air"%string \/ n = "minecraft:cave_air"%string \/
  n = "minecraft:void_air"%string \/ n = "minecraft:piston_head"%string \/
  n = "minecraft:moving_block"%string \/ n = "minecraft:moving_piston"%string.
Proof.
  unfold filtered, isAir, INVALID_BLOCKS.
  rewrite !orb_true_iff, !String.eqb_eq. tauto.
Qed.

(** A filtered name survives the appended state list and the second
    normalisation unchanged. *)
Lemma outNameOnly_filtered (n : string) (states : list string) :
  filtered n = true ->
  normalizeNamespace (nth 0 (Js.split "[" (withStates n states)) ""%string) = n.
Proof.
  intros Hn. unfold withStates.
  destruct (filtered_cases n Hn) as [H|[H|[H|[H|[H|H]]]]]; subst n;
    destruct states; reflexivity.
Qed.

Lemma translateBlock_early (javaBlock : string) (T : Table) :
  filtered (normalizeNamespace (nth 0 (Js.split "[" javaBlock) ""%string)) = true ->
  translateBlock javaBlock T = (None, T).
Proof.
  intros Hf. unfold translateBlock.
  destruct (negb (Js.nonEmpty javaBlock)); [reflexivity|].
  unfold filtered in Hf. rewrite Hf. reflexivity.
Qed.

Lemma translateBlock_late (javaBlock : string) (T : Table) :
  filtered
    (fst (fst (translateCore
                 (normalizeNamespace (nth 0 (Js.split "[" javaBlock) ""%string))
                 (Js.split "[" javaBlock !! 1) T))) = true ->
  fst (translateBlock javaBlock T) = None.
Proof.
  intros Hf. unfold translateBlock.
  destruct (negb (Js.nonEmpty javaBlock)); [reflexivity|].
  destruct (isAir _ || INVALID_BLOCKS _); [reflexivity|].
  destruct (translateCore _ _ T) as [[name states] T']. simpl in Hf.
  rewrite (outNameOnly_filtered name states Hf).
  unfold filtered in Hf. rewrite Hf. reflexivity.
Qed.

Lemma pistonHead_key (legacyMap : LegacyMap) (T : Table) :
  getKeyAt legacyMap pistonHeadVolume 0 (emptyCache, T)
  = (None, (mkCache (<[0 := None]> ∅) ∅, T)).
Proof.
  unfold getKeyAt. cbn [Schem.type pistonHeadVolume emptyCache paletteToBedrock
                          classicToBedrock].
  rewrite lookup_empty.
  change (paletteJavaName pistonHeadVolume (paletteIndex pistonHeadVolume 0))
    with "minecraft:piston_head"%string.
  change (isAirName "minecraft:piston_head") with false. cbv iota.
  rewrite translateBlock_early by reflexivity. reflexivity.
Qed.

Lemma pistonHead_stream (legacyMap : LegacyMap) (T : Table) :
  fst (dumpSetblockCommands legacyMap pistonHeadVolume T) = ""%string.
Proof.
  unfold dumpSetblockCommands, findOrigin, originPass, mergeBoxes, originLoop, mergeLoop.
  cbn [Schem.width Schem.height Schem.length pistonHeadVolume Nat.mul Nat.add
       seq fold_left replicate length].
  unfold originStep, mergeStep. rewrite !pistonHead_key. reflexivity.
Qed.

(** C7: a descriptor whose normalised name is air or invalid translates
    to null; so does one whose chosen Bedrock name is air or invalid;
    and the 1x1x1 volume of [minecraft:piston_head] yields the empty
    stream. *)
Theorem translateBlock_filters (legacyMap : LegacyMap) (javaBlock : string) (T : Table) :
  let blockName := normalizeNamespace (nth 0 (Js.split "[" javaBlock) ""%string) in
  let stateStr := Js.split "[" javaBlock !! 1 in
  (isAir blockName || INVALID_BLOCKS blockName = true ->
   fst (translateBlock javaBlock T) = None) /\
  (isAir (fst (fst (translateCore blockName stateStr T)))
   || INVALID_BLOCKS (fst (fst (translateCore blockName stateStr T))) = true ->
   fst (translateBlock javaBlock T) = None) /\
  fst (dumpSetblockCommands legacyMap pistonHeadVolume T) = ""%string.
Proof.
  intros blockName stateStr. split; [|split].
  - intros Hf. rewrite translateBlock_early by exact Hf. reflexivity.
  - intros Hf. apply translateBlock_late. exact Hf.
  - apply pistonHead_stream.
Qed.

Lemma translateBlock_filters_witness :
  fst (translateBlock "Minecraft:Piston_Head[facing=up]" movingTable) = None /\
  fst (translateBlock "minecraft:foo[a=b]" movingTable) = None.
Proof.
  split.
  - apply (proj1 (translateBlock_filters ∅ "Minecraft:Piston_Head[facing=up]" movingTable)).
    vm_compute. reflexivity.
  - apply (proj1 (proj2 (translateBlock_filters ∅ "minecraft:foo[a=b]" movingTable))).
    vm_compute. reflexivity.
Defined.

(** ** The shared table is written to *)

(** C3 fails on the code: one call on [x[type=a]] leaves the additions
    and removals of leaf [a] in the shared entry, and a later call on
    [x[color=red,type=b]] is answered with them. *)
Theorem translateBlock_mutates_table :
  let T1 := snd (translateBlock "minecraft:x[type=a]" leafTable) in
  (Entry.additions <$> leafTable !! "minecraft:x"%string) = Some None /\
  (Entry.additions <$> T1 !! "minecraft:x"%string)
    = Some (Some [("lit"%string, Js.SBool true)]) /\
  (Entry.removals <$> T1 !! "minecraft:x"%string) = Some (Some ["type"%string]) /\
  T1 <> leafTable /\
  fst (translateBlock "minecraft:x[color=red,type=b]" leafTable)
    = Some ("minecraft:xd[" ++ dquote ++ "color" ++ dquote ++ "="
            ++ dquote ++ "red" ++ dquote ++ "]")%string /\
  fst (translateBlock "minecraft:x[color=red,type=b]" T1)
    = Some ("minecraft:xd[" ++ dquote ++ "color" ++ dquote ++ "="
            ++ dquote ++ "red" ++ dquote ++ ","
            ++ dquote ++ "lit" ++ dquote ++ "=true]")%string.
Proof.
  cbv zeta. repeat split; try (vm_compute; reflexivity).
  intros Heq.
  assert (H : Entry.removals <$>
              snd (translateBlock "minecraft:x[type=a]" leafTable) !! "minecraft:x"%string
              = Entry.removals <$> leafTable !! "minecraft:x"%string)
    by (rewrite Heq; reflexivity).
  vm_compute in H. discriminate.
Qed.

(** ** Two conversions in one process *)

(** C4 fails on the code: the same volume converted twice against the
    startup table gives two different streams. *)
Theorem second_conversion_differs :
  let run1 := dumpSetblockCommands ∅ leafVolume leafTable in
  let run2 := dumpSetblockCommands ∅ leafVolume (snd run1) in
  fst run1 = ("setblock ~1 ~1 ~1 xd[" ++ dquote ++ "color" ++ dquote ++ "="
              ++ dquote ++ "red" ++ dquote ++ ","
              ++ dquote ++ "lit" ++ dquote ++ "=true]" ++ newline)%string /\
  fst run2 = ("setblock ~1 ~1 ~1 xd[" ++ dquote ++ "lit" ++ dquote ++ "=true]"
              ++ newline)%string /\
  fst run1 <> fst run2.
Proof.
  cbv zeta. split; [vm_compute; reflexivity|].
  split; [vm_compute; reflexivity|].
  vm_compute. discriminate.
Qed.

(** ** Classic identifiers *)

Module ClassicFacts.
Import Classic.
Local Open Scope Z_scope.

Lemma lor_below (a b n : Z) :
  0 <= n -> 0 <= a < 2 ^ n -> 0 <= b < 2 ^ n -> 0 <= Z.lor a b < 2 ^ n.
Proof.
  intros Hn Ha Hb.
  assert (Heq : Z.lor a b = Z.lor a b mod 2 ^ n).
  { rewrite <- Z.land_ones by exact Hn. apply Z.bits_inj'. intros k Hk.
    rewrite Z.land_spec, Z.testbit_ones_nonneg by lia.
    destruct (Z.ltb_spec k n) as [Hlt|Hge]; [rewrite andb_true_r; reflexivity|].
    rewrite Z.lor_spec, (PackedFacts.entry_testbit a n k), (PackedFacts.entry_testbit b n k)
      by lia.
    reflexivity. }
  rewrite Heq. apply Z.mod_pos_bound. lia.
Qed.

(** With bytes in range, the stored value is
    [(addNibble << 8) | blocksByte]. *)
Lemma combinedId_value (add b : list Z) (i ab bb : Z) :
  0 <= i -> Classic.isByte ab -> Classic.isByte bb ->
  add !! Z.to_nat (i / 2) = Some ab ->
  b !! Z.to_nat i = Some bb ->
  combinedId add b i
  = Z.lor (Z.shiftl (if Z.even i then ab / 16 else ab mod 16) 8) bb.
Proof.
  intros Hi Hab Hbb Hadd Hb. unfold combinedId, Classic.isByte in *.
  assert (Hhalf : Z.shiftr i 1 = i / 2) by (rewrite Z.shiftr_div_pow2 by lia; reflexivity).
  assert (Hodd : Z.land i 1 = i mod 2)
    by (change 1 with (Z.ones 1); rewrite Z.land_ones by lia; reflexivity).
  assert (Hhigh : Z.shiftr ab 4 = ab / 16)
    by (rewrite Z.shiftr_div_pow2 by lia; reflexivity).
  assert (Hlow : Z.land ab 15 = ab mod 16)
    by (change 15 with (Z.ones 4); rewrite Z.land_ones by lia; reflexivity).
  assert (Hbyte : Z.land bb 255 = bb).
  { change 255 with (Z.ones 8). rewrite Z.land_ones by lia. apply Z.mod_small. lia. }
  rewrite Hhalf, Hadd, Hb. simpl default.
  rewrite Hodd, <- Zeven_mod, Hhigh, Hlow, Hbyte.
  set (nib := if Z.even i then ab / 16 else ab mod 16).
  assert (Hnib : 0 <= nib < 16).
  { unfold nib. destruct (Z.even i).
    - split; [apply Z.div_pos; lia|apply Z.div_lt_upper_bound; lia].
    - apply Z.mod_pos_bound. lia. }
  assert (Hmask : Z.land nib 15 = nib).
  { change 15 with (Z.ones 4). rewrite Z.land_ones by lia. apply Z.mod_small. exact Hnib. }
  rewrite Hmask. unfold toUint16. apply Z.mod_small.
  change 65536 with (2 ^ 16).
  apply lor_below; [lia| |lia].
  rewrite Z.shiftl_mul_pow2 by lia. lia.
Qed.

Lemma newTypedArray_zeros (allocates : Z -> Z -> bool) (size vol : Z) :
  0 <= vol -> allocates size vol = true ->
  newTypedArray allocates size vol = Returns (replicate (Z.to_nat vol) 0).
Proof.
  intros Hvol Hhost. unfold newTypedArray. rewrite Hhost.
  destruct (Z.ltb_spec vol 0); [lia|reflexivity].
Qed.

(** C8 (as amended): the add array is [AddBlocks] when that field is
    present, and [Add] otherwise.  When it is a byte array of at least
    ceil(volume / 2) bytes, the id of cell [i] is
    [(addNibble << 8) | blocksByte], the nibble being the high one of
    [add[i >> 1]] for even [i] and the low one for odd [i]; with no
    [Data], every cell's metadata is 0.  The host has to grant the two
    arrays of [vol] elements that the loader creates. *)
Theorem loadClassic_ids_and_data (allocates : Z -> Z -> bool) (vol : Z)
    (blocks : list Z) (Data AddBlocks Add : option RawArray) :
  0 <= vol ->
  Forall Classic.isByte blocks ->
  allocates 1 vol = true ->
  allocates 2 vol = true ->
  (forall add,
      AddBlocks = Some (RBuffer add) \/ (AddBlocks = None /\ Add = Some (RBuffer add)) ->
      Forall Classic.isByte add ->
      (vol + 1) / 2 <= Z.of_nat (length add) ->
      exists ids d,
        loadClassic allocates vol (Some (RBuffer blocks)) Data AddBlocks Add
        = Returns (ids, d) /\
        forall i ab bb,
          0 <= i < vol ->
          add !! Z.to_nat (i / 2) = Some ab ->
          blocks !! Z.to_nat i = Some bb ->
          ids !! Z.to_nat i
          = Some (Z.lor (Z.shiftl (if Z.even i then ab / 16 else ab mod 16) 8) bb)) /\
  (Data = None ->
   exists ids d,
     loadClassic allocates vol (Some (RBuffer blocks)) Data AddBlocks Add
     = Returns (ids, d) /\
     forall i, 0 <= i < vol -> d !! Z.to_nat i = Some 0).
Proof.
  intros Hvol Hblocks Hhost1 Hhost2.
  pose proof (newTypedArray_zeros allocates 1 vol Hvol Hhost1) as Hnew1.
  pose proof (newTypedArray_zeros allocates 2 vol Hvol Hhost2) as Hnew2.
  split.
  - intros add Hpresent Hbytes Hlen.
    assert (Hadd : orElse AddBlocks Add = Some (RBuffer add)).
    { destruct Hpresent as [->|[-> ->]]; reflexivity. }
    unfold loadClassic. rewrite Hadd.
    cbn [normalizeClassicArray]. change (255 =? 255) with true. cbv iota.
    assert (Hd : exists d, match normalizeClassicArray Data 15 with
                           | Some d => Returns d
                           | None => newTypedArray allocates 1 vol
                           end = Returns d).
    { destruct (normalizeClassicArray Data 15) as [d|]; [eauto|].
      rewrite Hnew1. eauto. }
    destruct Hd as [d ->].
    destruct (Z.leb_spec ((vol + 1) / 2) (Z.of_nat (length add))) as [_|Hgt]; [|lia].
    rewrite Hnew2. eexists _, d. split; [reflexivity|].
    intros i ab bb Hi Hab Hbb.
    rewrite list_lookup_imap, lookup_replicate_2 by lia. simpl.
    rewrite Z2Nat.id by lia. f_equal.
    rewrite Forall_forall in Hblocks, Hbytes.
    apply combinedId_value; try assumption; try lia.
    + apply Hbytes. eapply list_elem_of_lookup_2, Hab.
    + apply Hblocks. eapply list_elem_of_lookup_2, Hbb.
  - intros ->. unfold loadClassic. cbn [normalizeClassicArray].
    change (255 =? 255) with true. cbv iota.
    rewrite Hnew1.
    assert (Hzero : forall i, 0 <= i < vol ->
                              replicate (Z.to_nat vol) 0 !! Z.to_nat i = Some 0).
    { intros i Hi. apply lookup_replicate_2. lia. }
    destruct (normalizeClassicArray (orElse AddBlocks Add) 255) as [add|].
    + destruct ((vol + 1) / 2 <=? Z.of_nat (length add)).
      * rewrite Hnew2. eexists _, _; eauto.
      * eexists _, _; eauto.
    + eexists _, _; eauto.
Qed.

(** The witness reads the add array from [Add]: [AddBlocks] is absent. *)
Lemma loadClassic_ids_and_data_witness :
  exists d,
    loadClassic unlimited 3 (Some (RBuffer [1; 2; 255])) None None (Some (RBuffer [18; 48]))
    = Returns ([257; 514; 1023], d) /\
    d = [0; 0; 0].
Proof.
  destruct (loadClassic_ids_and_data unlimited 3 [1; 2; 255] None None
              (Some (RBuffer [18; 48])))
    as [Hids Hdata].
  - lia.
  - repeat constructor; unfold Classic.isByte; lia.
  - reflexivity.
  - reflexivity.
  - destruct (Hids [18; 48]) as (ids & d & Hload & _).
    + right. split; reflexivity.
    + repeat constructor; unfold Classic.isByte; lia.
    + apply Z.leb_le. reflexivity.
    + exists d. vm_compute in Hload. injection Hload as <- <-. split; reflexivity.
Defined.

(** C8 as stated fails when both fields are present: [Add] holds a
    byte array of ceil(volume / 2) bytes, but the [AddBlocks] field,
    which is too short, is the one the loader reads, and the ids are the
    bytes of [Blocks]. *)
Lemma loadClassic_add_shadowed_counterexample :
  let add := [18] in
  let blocks := [1; 2] in
  (2 + 1) / 2 <= Z.of_nat (length add) /\
  loadClassic unlimited 2 (Some (RBuffer blocks)) None
    (Some (RBuffer [])) (Some (RBuffer add))
  = Returns ([1; 2], [0; 0]) /\
  [1; 2] !! Z.to_nat 0 <> Some (Z.lor (Z.shiftl (18 / 16) 8) 1).
Proof. vm_compute. split; [discriminate|]. split; [reflexivity|discriminate]. Qed.
End ClassicFacts.

(** ** The classic fallback *)

Section ClassicFallback.
Variable legacyMap : LegacyMap.
Variable schem : Schem.t.

Local Abbreviation unmapped := (unmapped legacyMap schem).
Local Abbreviation airCached := (airCached legacyMap schem).

Lemma uint_no_colon (d : Decimal.uint) :
  Js.includes ":" (NilEmpty.string_of_uint d) = false.
Proof. induction d; simpl; auto. Qed.

Lemma decimal_no_colon (n : nat) : Js.includes ":" (Js.decimal (Z.of_nat n)) = false.
Proof.
  unfold Js.decimal. destruct (Z.of_nat n) as [|p|p] eqn:Hn; simpl.
  - reflexivity.
  - destruct (Pos.to_uint p); try apply uint_no_colon. reflexivity.
  - lia.
Qed.

Lemma before_colon (a b x y : string) :
  Js.includes ":" a = false -> Js.includes ":" b = false ->
  (a ++ ":" ++ x)%string = (b ++ ":" ++ y)%string -> a = b.
Proof.
  revert b. induction a as [|c a IH]; intros [|c' b] Ha Hb Heq; simpl in *.
  - reflexivity.
  - injection Heq as <- _. simpl in Hb. discriminate.
  - injection Heq as -> _. simpl in Ha. discriminate.
  - injection Heq as -> Heq.
    apply orb_false_iff in Ha as [_ Ha]. apply orb_false_iff in Hb as [_ Hb].
    f_equal. apply IH; assumption.
Qed.

Lemma classicKey_fallback (i j : nat) :
  classicKey schem i = classicKey schem j ->
  classicFallbackKey schem i = classicFallbackKey schem j.
Proof.
  unfold classicKey, classicFallbackKey. intros Heq.
  apply before_colon in Heq.
  - rewrite Heq. reflexivity.
  - destruct (Schem.legacyBlocks schem !! i); [apply decimal_no_colon|reflexivity].
  - destruct (Schem.legacyBlocks schem !! j); [apply decimal_no_colon|reflexivity].
Qed.

Lemma unmapped_air (j : nat) :
  unmapped j -> classicJavaName legacyMap schem j = "minecraft:air"%string.
Proof. intros [H1 H2]. unfold classicJavaName. rewrite H1, H2. reflexivity. Qed.

Lemma getKeyAt_airCached (i : nat) (st : GetterState) :
  airCached st -> airCached (snd (getKeyAt legacyMap schem i st)).
Proof.
  destruct st as [cache T]. unfold airCached, getKeyAt. simpl. intros Hinv.
  destruct (Schem.type schem).
  - destruct (classicToBedrock cache !! classicKey schem i) as [k|] eqn:Hhit;
      [exact Hinv|].
    assert (Hsame : forall j, unmapped j -> classicKey schem i = classicKey schem j ->
                              isAirName (classicJavaName legacyMap schem i) = true).
    { intros j [Hj1 Hj2] Hk.
      rewrite (unmapped_air i); [reflexivity|].
      split; [rewrite Hk; exact Hj1|].
      rewrite (classicKey_fallback i j Hk). exact Hj2. }
    destruct (isAirName (classicJavaName legacyMap schem i)) eqn:Hair.
    + simpl. intros j v Hj Hv.
      destruct (decide (classicKey schem i = classicKey schem j)) as [Hk|Hk].
      * rewrite <- Hk, lookup_insert_eq in Hv. congruence.
      * rewrite lookup_insert_ne in Hv by exact Hk. eapply Hinv; eassumption.
    + destruct (translateBlock (classicJavaName legacyMap schem i) T) as [br T'].
      simpl. intros j v Hj Hv.
      destruct (decide (classicKey schem i = classicKey schem j)) as [Hk|Hk].
      * discriminate (Hsame j Hj Hk).
      * rewrite lookup_insert_ne in Hv by exact Hk. eapply Hinv; eassumption.
  - destruct (paletteToBedrock cache !! paletteIndex schem i); [exact Hinv|].
    destruct (isAirName _); [exact Hinv|].
    destruct (translateBlock _ T). exact Hinv.
  - destruct (paletteToBedrock cache !! paletteIndex schem i); [exact Hinv|].
    destruct (isAirName _); [exact Hinv|].
    destruct (translateBlock _ T). exact Hinv.
  - destruct (paletteToBedrock cache !! paletteIndex schem i); [exact Hinv|].
    destruct (isAirName _); [exact Hinv|].
    destruct (translateBlock _ T). exact Hinv.
Qed.

Lemma mergeBoxes_airCached (T : Table) : airCached (snd (mergeBoxes legacyMap schem T)).
Proof.
  unfold mergeBoxes.
  destruct (mergeLoop (getKeyAt legacyMap schem)
              (Schem.width schem) (Schem.height schem) (Schem.length schem)
              (emptyCache, T)) as [[visited out] st] eqn:Hloop.
  simpl.
  apply (mergeLoop_invariant _ _ _ _ (cachedKey schem)
           (getKeyAt_cached legacyMap schem) (getKeyAt_mono legacyMap schem))
    in Hloop as [_ Hreach].
  eapply (reach_invariant (getKeyAt legacyMap schem) airCached);
    [apply getKeyAt_airCached|exact Hreach|].
  intros j v _ Hv. simpl in Hv. rewrite lookup_empty in Hv. discriminate.
Qed.

(** C10: in the classic dialect a cell whose ["id:data"] key is not in
    the legacy map is translated through the ["id:0"] entry; when that
    is missing too the cell is air: its key is null and no emitted box
    contains it. *)
Theorem classic_fallback (T : Table) (i : nat) :
  Schem.type schem = classic ->
  legacyMap !! classicKey schem i = None ->
  classicJavaName legacyMap schem i
  = default "minecraft:air"%string (legacyMap !! classicFallbackKey schem i) /\
  (forall cache T',
      classicToBedrock cache !! classicKey schem i = None ->
      fst (getKeyAt legacyMap schem i (cache, T'))
      = let javaName :=
          default "minecraft:air"%string (legacyMap !! classicFallbackKey schem i) in
        if isAirName javaName then None
        else keyOfTranslation (fst (translateBlock javaName T'))) /\
  (legacyMap !! classicFallbackKey schem i = None ->
   i < Schem.volume schem ->
   cachedKey schem (snd (mergeBoxes legacyMap schem T)) i = Some None /\
   forall b, b ∈ fst (mergeBoxes legacyMap schem T) ->
             ~ Box.contains b (i mod Schem.width schem)
                 (i / (Schem.width schem * Schem.length schem))
                 ((i / Schem.width schem) mod Schem.length schem)).
Proof.
  intros Hclassic Hkey.
  assert (Hname : classicJavaName legacyMap schem i
                  = default "minecraft:air"%string
                      (legacyMap !! classicFallbackKey schem i)).
  { unfold classicJavaName. rewrite Hkey.
    destruct (legacyMap !! classicFallbackKey schem i); reflexivity. }
  split; [exact Hname|]. split.
  - intros cache T' Hmiss. unfold getKeyAt. rewrite Hclassic, Hmiss, Hname. cbv zeta.
    destruct (isAirName _); [reflexivity|].
    destruct (translateBlock _ T') as [br T'']. reflexivity.
  - intros Hfallback Hi.
    pose proof (mergeBoxes_invariant legacyMap schem T) as Hinv.
    destruct Hinv as [_ Hbelow Hknown _ Hboxes _ _].
    assert (Hnull : cachedKey schem (snd (mergeBoxes legacyMap schem T)) i = Some None).
    { destruct (Hknown i (Hbelow i Hi)) as [k Hk]. rewrite Hk. f_equal.
      unfold cachedKey in Hk. rewrite Hclassic in Hk.
      eapply (mergeBoxes_airCached T i k); [split; assumption|exact Hk]. }
    split; [exact Hnull|].
    intros b Hb Hin. rewrite Forall_forall in Hboxes.
    destruct (Hboxes b Hb) as (_ & _ & Hcells).
    destruct (Hcells _ _ _ Hin) as [_ Hc].
    unfold Schem.volume in Hi.
    rewrite index_coords in Hc by exact Hi. congruence.
Qed.
End ClassicFallback.

Lemma classic_fallback_witness :
  let legacyMap : LegacyMap := {[ "1:0"%string := "minecraft:stone"%string ]} in
  let schem := Schem.mk 2 1 1 classic [1; 7] [3; 0] [] [] in
  classicJavaName legacyMap schem 0 = "minecraft:stone"%string /\
  fst (mergeBoxes legacyMap schem ∅) = [Box.mk 0 0 0 0 0 0 "stone"] /\
  cachedKey schem (snd (mergeBoxes legacyMap schem ∅)) 1 = Some None.
Proof.
  intros legacyMap schem.
  destruct (classic_fallback legacyMap schem ∅ 0) as (Hname & _ & _);
    [reflexivity|vm_compute; reflexivity|].
  destruct (classic_fallback legacyMap schem ∅ 1) as (_ & _ & Hnone);
    [reflexivity|vm_compute; reflexivity|].
  destruct Hnone as [Hnull _]; [vm_compute; reflexivity|vm_compute; lia|].
  split; [rewrite Hname; vm_compute; reflexivity|].
  split; [vm_compute; reflexivity|exact Hnull].
Defined.

Lemma findOrigin_minimal_witness :
  let schem := Schem.mk 3 1 1 modern [] [] [0; 1; 0]
                 ["minecraft:air"; "minecraft:stone"]%string in
  fst (findOrigin ∅ schem ∅) = Origin.mk 1 0 0 /\
  lexLe (fst (findOrigin ∅ schem ∅)) (cellOrigin 1 3 1 1).
Proof.
  intros schem.
  destruct (findOrigin_minimal ∅ schem ∅) as [_ Hsome].
  destruct Hsome as [_ Hmin].
  - exists 1. split; [vm_compute; lia|vm_compute; reflexivity].
  - split; [vm_compute; reflexivity|].
    apply (Hmin 1); [vm_compute; lia|vm_compute; reflexivity].
Defined.

Lemma merge_volume_conservation_witness :
  let schem := Schem.mk 3 1 1 modern [] [] [0; 1; 0]
                 ["minecraft:air"; "minecraft:stone"]%string in
  totalCells (fst (mergeBoxes ∅ schem ∅)) = 1 /\
  emptyCells (cachedKey schem) (snd (mergeBoxes ∅ schem ∅)) 3 = 2.
Proof.
  intros schem.
  destruct (merge_volume_conservation ∅ schem ∅) as (_ & _ & Hsum).
  assert (Hone : totalCells (fst (mergeBoxes ∅ schem ∅)) = 1) by (vm_compute; reflexivity).
  split; [exact Hone|].
  change (Schem.volume schem) with 3 in Hsum. rewrite Hone in Hsum. lia.
Defined.

(** ** The literal scenarios of the spec *)

Section Scenarios.
Let legacy : LegacyMap := {[ "1:0"%string := "minecraft:stone"%string ]}.
Let oakTable : Table :=
  {[ "minecraft:oak_log"%string :=
       Entry.mk None None None None None None
         (Some [("axis", "pillar_axis")]%string) None None ]}.

Example scenario_single_stone :
  fst (dumpSetblockCommands legacy (Schem.mk 1 1 1 classic [1] [0] [] []) ∅)
  = ("setblock ~1 ~1 ~1 stone" ++ newline)%string.
Proof. vm_compute. reflexivity. Qed.

Example scenario_stone_run :
  fst (dumpSetblockCommands legacy (Schem.mk 2 1 1 classic [1; 1] [0; 0] [] []) ∅)
  = ("fill ~1 ~1 ~1 ~2 ~1 ~1 stone" ++ newline)%string.
Proof. vm_compute. reflexivity. Qed.

Example scenario_air_sandwich :
  fst (dumpSetblockCommands legacy
         (Schem.mk 3 1 1 modern [] [] [0; 1; 0]
            ["minecraft:air"; "minecraft:stone"]%string) ∅)
  = ("setblock ~1 ~1 ~1 stone" ++ newline)%string.
Proof. vm_compute. reflexivity. Qed.

Example scenario_homogeneous_cube :
  fst (dumpSetblockCommands legacy
         (Schem.mk 2 2 2 modern [] [] [0; 0; 0; 0; 0; 0; 0; 0]
            ["minecraft:stone"%string]) ∅)
  = ("fill ~1 ~1 ~1 ~2 ~2 ~2 stone" ++ newline)%string.
Proof. vm_compute. reflexivity. Qed.

Example scenario_state_translation :
  fst (dumpSetblockCommands legacy
         (Schem.mk 1 1 1 modern [] [] [0] ["minecraft:oak_log[axis=y]"%string])
         oakTable)
  = ("setblock ~1 ~1 ~1 oak_log[" ++ dquote ++ "pillar_axis" ++ dquote ++ "="
     ++ dquote ++ "y" ++ dquote ++ "]" ++ newline)%string.
Proof. vm_compute. reflexivity. Qed.
End Scenarios.

(** * Further properties of the code *)

(** ** Coordinates *)

(** [coordsXZY] and [indexXZY] are inverse to each other on the cells of
    a volume. *)
Theorem coordsXZY_indexXZY_inverse (w h l : nat) :
  (forall x y z, x < w -> z < l ->
     coordsXZY (indexXZY x y z w h l) w h l = (x, y, z)) /\
  (forall i, i < w * h * l ->
     exists x y z, coordsXZY i w h l = (x, y, z) /\
                   x < w /\ y < h /\ z < l /\ indexXZY x y z w h l = i).
Proof.
  split.
  - intros x y z Hx Hz. apply coords_index; assumption.
  - intros i Hi. unfold coordsXZY.
    destruct (coords_bounds w h l i Hi) as (Hx & Hy & Hz).
    eexists _, _, _. split; [reflexivity|].
    repeat split; try assumption. apply index_coords, Hi.
Qed.

(** ** More on the merge pass *)

Section CoverageFacts.
Context {St : Type}.
Variable getKey : nat -> St -> option string * St.
Variables w h l : nat.
Variable cached : St -> nat -> option (option string).
Hypothesis get_cached :
  forall i s, cached (snd (getKey i s)) i = Some (fst (getKey i s)).
Hypothesis get_mono :
  forall i s j kj, cached s j = Some kj -> cached (snd (getKey i s)) j = Some kj.

Lemma growBox_start (visited : list bool) (i : nat) (k0 : string) (s : St)
    (b : Box.t) (s' : St) :
  growBox getKey w h l visited i k0 s = (b, s') ->
  Box.x0 b = i mod w /\ Box.y0 b = i / (w * l) /\ Box.z0 b = (i / w) mod l.
Proof.
  unfold growBox, coordsXZY.
  destruct (expandX _ _ _ _ _ _ _ _ _ _) as [x1 s1].
  destruct (expandZ _ _ _ _ _ _ _ _ _ _ _) as [z1 s2].
  destruct (expandY _ _ _ _ _ _ _ _ _ _ _ _) as [y1 s3].
  intros [= <- _]. simpl. auto.
Qed.

Lemma falsyCached_reach (s s' : St) (j : nat) :
  reach getKey s s' -> (exists k, cached s j = Some k) ->
  falsyCached cached s j = true -> falsyCached cached s' j = true.
Proof.
  intros Hr [k Hk]. unfold falsyCached.
  rewrite Hk, (reach_cached getKey cached get_mono _ _ _ _ Hr Hk). auto.
Qed.

Lemma coverage_init (s : St) : coverage w h l cached 0 (replicate (w * h * l) false) [] s.
Proof.
  constructor.
  - intros j Hj. unfold isVisited in Hj.
    destruct (replicate (w * h * l) false !! j) as [b|] eqn:Hb; [|discriminate].
    apply lookup_replicate in Hb as [-> _]. discriminate.
  - intros b Hb. inversion Hb.
  - intros m n b1 b2 _ Hm. rewrite lookup_nil in Hm. discriminate.
Qed.

Lemma coverage_step (i : nat) (visited : list bool) (out : list Box.t) (s : St)
    (visited' : list bool) (out' : list Box.t) (s' : St) :
  i < w * h * l ->
  invariant w h l cached i visited out s ->
  coverage w h l cached i visited out s ->
  mergeStep getKey w h l (visited, out, s) i = (visited', out', s') ->
  coverage w h l cached (S i) visited' out' s'.
Proof.
  intros Hi [Hlen Hbelow Hknown Habove Hboxes Hdisj Hcount] [Hcells Hstart Horder].
  assert (Hkeep : forall s1, reach getKey s s1 ->
            forall j, isVisited visited j = true ->
              falsyCached cached s1 j = true \/
              exists b x y z, b ∈ out /\ Box.contains b x y z /\
                              j = indexXZY x y z w h l).
  { intros s1 Hr j Hj. destruct (Hcells j Hj) as [Hf|Hb]; [left|right; exact Hb].
    eapply falsyCached_reach; [exact Hr|apply Hknown, Hj|exact Hf]. }
  unfold mergeStep. destruct (isVisited visited i) eqn:Hvi.
  - intros [= <- <- <-]. constructor; [exact Hcells| |exact Horder].
    intros b Hb. specialize (Hstart b Hb). lia.
  - pose proof (get_cached i s) as Hci.
    pose proof (reach_get getKey i s) as Hr1.
    destruct (getKey i s) as [k0 s1]. simpl in Hci, Hr1.
    assert (Hskip : truthyKey k0 = false ->
                    coverage w h l cached (S i) (<[i := true]> visited) out s1).
    { intros Hfalsy. constructor; [| |exact Horder].
      - intros j Hj. rewrite isVisited_insert in Hj by lia.
        apply orb_true_iff in Hj as [Hj|Hj]; [apply Hkeep; assumption|].
        apply bool_decide_eq_true in Hj as ->. left.
        unfold falsyCached. rewrite Hci, Hfalsy. reflexivity.
      - intros b Hb. specialize (Hstart b Hb). lia. }
    destruct k0 as [k|]; [|intros [= <- <- <-]; apply Hskip; reflexivity].
    destruct (Js.nonEmpty k) eqn:Hk; [|intros [= <- <- <-]; apply Hskip; exact Hk].
    clear Hskip.
    destruct (growBox getKey w h l visited i k s1) as [b s2] eqn:Hgrow.
    intros [= <- <- <-].
    pose proof (growBox_start _ _ _ _ _ _ Hgrow) as (Hx0 & Hy0 & Hz0).
    apply (growBox_spec getKey w h l cached get_cached get_mono) in Hgrow
      as (Hr2 & Hb & Hkey & Hstartcell & Hfree); [|exact Hi|split; assumption].
    assert (Hbs : boxStart w h l b = i).
    { unfold boxStart. rewrite Hx0, Hy0, Hz0. apply index_coords, Hi. }
    constructor.
    + intros j Hj. rewrite markVisited_markAll in Hj.
      apply markAll_visited in Hj.
      2:{ intros j' Hj'. rewrite Hlen. eapply boxIndices_lt; eassumption. }
      destruct Hj as [Hj|Hj].
      * destruct (Hkeep s2 (reach_trans getKey _ _ _ Hr1 Hr2) j Hj)
          as [Hf|(b' & x & y & z & Hb' & Hc & ->)]; [left; exact Hf|].
        right. exists b', x, y, z. split; [|auto]. apply elem_of_app. left. exact Hb'.
      * apply (elem_of_boxIndices w h l b j Hb) in Hj as (x & y & z & Hc & ->).
        right. exists b, x, y, z. split; [|auto].
        apply elem_of_app. right. apply list_elem_of_singleton. reflexivity.
    + intros b' Hb'. apply elem_of_app in Hb' as [Hb'|Hb'].
      * specialize (Hstart b' Hb'). lia.
      * apply list_elem_of_singleton in Hb' as ->. lia.
    + intros m n b1 b2 Hmn Hm Hn.
      apply lookup_app_Some in Hn as [Hn|[Hln Hn]].
      * apply lookup_app_Some in Hm as [Hm|[Hlm _]].
        -- eapply Horder; eassumption.
        -- apply lookup_lt_Some in Hn. lia.
      * apply list_lookup_singleton_Some in Hn as [Hn <-].
        apply lookup_app_Some in Hm as [Hm|[Hlm _]]; [|lia].
        rewrite Hbs. apply Hstart. eapply list_elem_of_lookup_2, Hm.
Qed.

Lemma coverage_loop (n i : nat) (visited : list bool) (out : list Box.t) (s : St)
    (visited' : list bool) (out' : list Box.t) (s' : St) :
  i + n <= w * h * l ->
  invariant w h l cached i visited out s ->
  coverage w h l cached i visited out s ->
  fold_left (mergeStep getKey w h l) (seq i n) (visited, out, s) = (visited', out', s') ->
  coverage w h l cached (i + n) visited' out' s'.
Proof.
  revert i visited out s.
  induction n as [|n IH]; intros i visited out s Hle Hinv Hcov; cbn [seq fold_left].
  - intros [= <- <- <-]. rewrite Nat.add_0_r. exact Hcov.
  - destruct (mergeStep getKey w h l (visited, out, s) i) as [[v1 o1] s1] eqn:Hstep.
    assert (Hi : i < w * h * l) by lia.
    pose proof (coverage_step i visited out s v1 o1 s1 Hi Hinv Hcov Hstep) as Hcov1.
    apply (invariant_step getKey w h l cached get_cached get_mono) in Hstep
      as [Hinv1 _]; [|lia|exact Hinv].
    intros Hrest. replace (i + S n) with (S i + n) by lia.
    apply (IH (S i) v1 o1 s1); [lia|exact Hinv1|exact Hcov1|exact Hrest].
Qed.

Lemma mergeLoop_coverage (s : St) (visited : list bool) (out : list Box.t) (s' : St) :
  mergeLoop getKey w h l s = (visited, out, s') ->
  coverage w h l cached (w * h * l) visited out s'.
Proof.
  unfold mergeLoop. rewrite length_replicate. intros Hloop.
  apply (coverage_loop (w * h * l) 0) in Hloop;
    [exact Hloop|lia|apply invariant_init|apply coverage_init].
Qed.
End CoverageFacts.

Section MergeBoxesFacts.
Variable legacyMap : LegacyMap.
Variable schem : Schem.t.
Variable T : Table.

Let w := Schem.width schem.
Let h := Schem.height schem.
Let l := Schem.length schem.

Lemma mergeBoxes_coverage :
  exists visited,
    invariant w h l (cachedKey schem) (w * h * l) visited
      (fst (mergeBoxes legacyMap schem T)) (snd (mergeBoxes legacyMap schem T)) /\
    coverage w h l (cachedKey schem) (w * h * l) visited
      (fst (mergeBoxes legacyMap schem T)) (snd (mergeBoxes legacyMap schem T)).
Proof.
  unfold mergeBoxes. fold w h l.
  destruct (mergeLoop (getKeyAt legacyMap schem) w h l (emptyCache, T))
    as [[visited out] st] eqn:Hloop.
  exists visited. simpl. split.
  - apply (mergeLoop_invariant _ _ _ _ (cachedKey schem)
             (getKeyAt_cached legacyMap schem) (getKeyAt_mono legacyMap schem))
      in Hloop as [Hinv _].
    exact Hinv.
  - apply (mergeLoop_coverage _ _ _ _ (cachedKey schem)
             (getKeyAt_cached legacyMap schem) (getKeyAt_mono legacyMap schem)) in Hloop.
    exact Hloop.
Qed.
End MergeBoxesFacts.

(** Key consistency: every cell inside an emitted box has the key of
    the box, and that key is a non-empty string. *)
Theorem merge_key_consistency (legacyMap : LegacyMap) (schem : Schem.t) (T : Table)
    (b : Box.t) (x y z : nat) :
  b ∈ fst (mergeBoxes legacyMap schem T) ->
  Box.contains b x y z ->
  cachedKey schem (snd (mergeBoxes legacyMap schem T))
    (indexXZY x y z (Schem.width schem) (Schem.height schem) (Schem.length schem))
  = Some (Some (Box.key b)) /\
  Js.nonEmpty (Box.key b) = true.
Proof.
  intros Hb Hc.
  destruct (mergeBoxes_coverage legacyMap schem T) as (visited & Hinv & _).
  destruct Hinv as [_ _ _ _ Hboxes _ _]. rewrite Forall_forall in Hboxes.
  destruct (Hboxes b Hb) as (_ & Hk & Hcells).
  destruct (Hcells x y z Hc) as [_ Hkey]. split; assumption.
Qed.

Lemma merge_key_consistency_witness :
  cachedKey mixedVolume (snd (mergeBoxes ∅ mixedVolume ∅)) (indexXZY 2 1 1 3 2 2)
  = Some (Some "dirt"%string).
Proof.
  apply (merge_key_consistency ∅ mixedVolume ∅ (Box.mk 2 0 1 2 1 1 "dirt") 2 1 1).
  - vm_compute. apply list_elem_of_In. simpl. auto.
  - vm_compute. lia.
Defined.

(** Coverage: every cell whose key is a non-empty string lies in exactly
    one emitted box. *)
Theorem merge_covers_keyed_cells (legacyMap : LegacyMap) (schem : Schem.t) (T : Table)
    (i : nat) :
  let w := Schem.width schem in
  let h := Schem.height schem in
  let l := Schem.length schem in
  i < w * h * l ->
  truthyCached (cachedKey schem) (snd (mergeBoxes legacyMap schem T)) i = true ->
  exists m b,
    fst (mergeBoxes legacyMap schem T) !! m = Some b /\
    Box.contains b (i mod w) (i / (w * l)) ((i / w) mod l) /\
    forall n b',
      fst (mergeBoxes legacyMap schem T) !! n = Some b' ->
      Box.contains b' (i mod w) (i / (w * l)) ((i / w) mod l) -> n = m.
Proof.
  intros w h l Hi Htruthy.
  destruct (mergeBoxes_coverage legacyMap schem T) as (visited & Hinv & Hcov).
  fold w h l in Hinv, Hcov.
  destruct Hinv as [_ Hbelow _ _ Hboxes Hdisj _]. destruct Hcov as [Hcells _ _].
  destruct (Hcells i (Hbelow i Hi)) as [Hf|(b & x & y & z & Hb & Hc & Hidx)].
  { unfold falsyCached in Hf. unfold truthyCached in Htruthy.
    destruct (cachedKey schem _ i) as [k|]; [|discriminate].
    rewrite Htruthy in Hf. discriminate. }
  rewrite Forall_forall in Hboxes. destruct (Hboxes b Hb) as ((Hbx & Hby & Hbz) & _).
  assert (Hco : coordsXZY i w h l = (x, y, z)).
  { rewrite Hidx. destruct Hc as (? & ? & ?). apply coords_index; lia. }
  unfold coordsXZY in Hco. injection Hco as Hx Hy Hz. rewrite Hx, Hy, Hz.
  apply list_elem_of_lookup in Hb as [m Hm].
  exists m, b. split; [exact Hm|]. split; [exact Hc|].
  intros n b' Hn Hc'. destruct (decide (n = m)) as [|Hne]; [assumption|].
  exfalso. apply (Hdisj n m b' b Hne Hn Hm x y z). split; assumption.
Qed.

Lemma merge_covers_keyed_cells_witness :
  exists m b,
    fst (mergeBoxes ∅ mixedVolume ∅) !! m = Some b /\
    Box.contains b (11 mod 3) (11 / (3 * 2)) ((11 / 3) mod 2).
Proof.
  destruct (merge_covers_keyed_cells ∅ mixedVolume ∅ 11) as (m & b & Hm & Hc & _).
  - vm_compute. lia.
  - vm_compute. reflexivity.
  - exists m, b. split; assumption.
Defined.

(** Scan order: the boxes are emitted in strictly increasing order of
    their first cell, which is their least cell in XZY order. *)
Theorem merge_scan_order (legacyMap : LegacyMap) (schem : Schem.t) (T : Table)
    (m n : nat) (b1 b2 : Box.t) :
  let w := Schem.width schem in
  let h := Schem.height schem in
  let l := Schem.length schem in
  m < n ->
  fst (mergeBoxes legacyMap schem T) !! m = Some b1 ->
  fst (mergeBoxes legacyMap schem T) !! n = Some b2 ->
  boxStart w h l b1 < boxStart w h l b2 /\
  forall x y z, Box.contains b2 x y z -> boxStart w h l b2 <= indexXZY x y z w h l.
Proof.
  intros w h l Hmn Hm Hn.
  destruct (mergeBoxes_coverage legacyMap schem T) as (visited & _ & Hcov).
  fold w h l in Hcov. destruct Hcov as [_ _ Horder].
  split; [exact (Horder m n b1 b2 Hmn Hm Hn)|].
  intros x y z (Hx & Hy & Hz). unfold boxStart, indexXZY.
  assert (Box.z0 b2 * w <= z * w) by (apply Nat.mul_le_mono_r; lia).
  assert (Box.y0 b2 * w * l <= y * w * l) by (repeat apply Nat.mul_le_mono_r; lia).
  lia.
Qed.

Lemma merge_scan_order_witness :
  boxStart 3 2 2 (Box.mk 0 0 0 1 1 1 "stone") < boxStart 3 2 2 (Box.mk 2 0 1 2 1 1 "dirt").
Proof.
  apply (merge_scan_order ∅ mixedVolume ∅ 0 1
           (Box.mk 0 0 0 1 1 1 "stone") (Box.mk 2 0 1 2 1 1 "dirt")).
  - lia.
  - vm_compute. reflexivity.
  - vm_compute. reflexivity.
Defined.

(** ** Greedy growth *)

Section GreedyFacts.
Context {St : Type}.
Variable getKey : nat -> St -> option string * St.
Variables w h l : nat.
Variable cached : St -> nat -> option (option string).
Hypothesis get_cached :
  forall i s, cached (snd (getKey i s)) i = Some (fst (getKey i s)).
Hypothesis get_mono :
  forall i s j kj, cached s j = Some kj -> cached (snd (getKey i s)) j = Some kj.

Local Abbreviation reach := (reach getKey).
Local Abbreviation stopsAt := (stopsAt cached).
Local Abbreviation obstacle := (obstacle w h l cached).
Local Abbreviation maximal := (maximal w h l cached).
Local Abbreviation greedy := (greedy w h l cached).

Lemma stopsAt_reach (visited : list bool) (s s' : St) (k : string) (j : nat) :
  reach s s' -> stopsAt visited s k j -> stopsAt visited s' k j.
Proof.
  intros Hr [Hv|(k1 & Hk1 & Hne)]; [left; exact Hv|right].
  exists k1. split; [|exact Hne].
  eapply (reach_cached getKey cached get_mono); eassumption.
Qed.

Lemma get_known (i : nat) (s : St) (k : option string) :
  cached s i = Some k -> fst (getKey i s) = k.
Proof.
  intros Hk. apply (get_mono i) in Hk. rewrite get_cached in Hk. congruence.
Qed.

Lemma sameKey_false (i j : nat) (s s' : St) (k0 : string) :
  sameKey getKey i j s = (false, s') ->
  cached s i = Some (Some k0) -> Js.nonEmpty k0 = true ->
  exists k1, cached s' j = Some k1 /\ k1 <> Some k0.
Proof.
  unfold sameKey. intros Hsame Hk0 Hne.
  pose proof (get_known i s _ Hk0) as Hfst.
  destruct (getKey i s) as [k s1]. simpl in Hfst. subst k.
  cbn [truthyKey] in Hsame. rewrite Hne in Hsame. cbn [negb] in Hsame.
  pose proof (get_cached j s1) as Hcj.
  destruct (getKey j s1) as [k1 s2]. simpl in Hcj.
  injection Hsame as Heq <-. exists k1. split; [exact Hcj|].
  intros ->. simpl in Heq. rewrite String.eqb_refl in Heq. discriminate.
Qed.

Lemma blocked_stop (visited : list bool) (i j : nat) (s s' : St) (k0 : string) :
  blocked getKey visited i j s = (true, s') ->
  cached s i = Some (Some k0) -> Js.nonEmpty k0 = true ->
  stopsAt visited s' k0 j.
Proof.
  unfold blocked. destruct (isVisited visited j) eqn:Hv.
  - intros _ _ _. left. exact Hv.
  - destruct (sameKey getKey i j s) as [same s1] eqn:Hs.
    intros [= Hsame <-] Hk0 Hne. apply negb_true_iff in Hsame. subst same.
    right. eapply sameKey_false; eassumption.
Qed.

Lemma expandX_stop (visited : list bool) (i y0 z0 : nat) (k0 : string)
    (room x1 : nat) (s : St) (x1' : nat) (s' : St) :
  expandX getKey w h l visited i y0 z0 room x1 s = (x1', s') ->
  cached s i = Some (Some k0) -> Js.nonEmpty k0 = true ->
  x1' = x1 + room \/ stopsAt visited s' k0 (indexXZY (x1' + 1) y0 z0 w h l).
Proof.
  revert x1 s. induction room as [|room IH]; intros x1 s; simpl.
  - intros [= <- <-] _ _. left. lia.
  - destruct (blocked getKey visited i (indexXZY (x1 + 1) y0 z0 w h l) s)
      as [stop s1] eqn:Hb.
    pose proof (blocked_spec getKey cached get_cached get_mono _ _ _ _ _ _ Hb)
      as [Hr _].
    destruct stop.
    + intros [= <- <-] Hk0 Hne. right. eapply blocked_stop; eassumption.
    + intros Hrec Hk0 Hne.
      apply IH in Hrec; [|eapply (reach_cached getKey cached get_mono); eassumption
                         |exact Hne].
      destruct Hrec as [->|Hstop]; [left; lia|right; exact Hstop].
Qed.

Lemma scanRow_stop (visited : list bool) (i yy zz : nat) (k0 : string)
    (n xi : nat) (s : St) (s' : St) :
  scanRow getKey w h l visited i yy zz n xi s = (false, s') ->
  cached s i = Some (Some k0) -> Js.nonEmpty k0 = true ->
  exists x, xi <= x < xi + n /\ stopsAt visited s' k0 (indexXZY x yy zz w h l).
Proof.
  revert xi s. induction n as [|n IH]; intros xi s; simpl; [discriminate|].
  destruct (blocked getKey visited i (indexXZY xi yy zz w h l) s) as [stop s1] eqn:Hb.
  pose proof (blocked_spec getKey cached get_cached get_mono _ _ _ _ _ _ Hb) as [Hr _].
  destruct stop.
  - intros [= <-] Hk0 Hne. exists xi. split; [lia|]. eapply blocked_stop; eassumption.
  - intros Hrec Hk0 Hne.
    apply IH in Hrec; [|eapply (reach_cached getKey cached get_mono); eassumption
                       |exact Hne].
    destruct Hrec as (x & Hx & Hstop). exists x. split; [lia|exact Hstop].
Qed.

Lemma expandZ_stop (visited : list bool) (i x0 x1 y0 : nat) (k0 : string)
    (room z1 : nat) (s : St) (z1' : nat) (s' : St) :
  expandZ getKey w h l visited i x0 x1 y0 room z1 s = (z1', s') ->
  cached s i = Some (Some k0) -> Js.nonEmpty k0 = true ->
  z1' = z1 + room \/
  exists x, x0 <= x < x0 + (x1 + 1 - x0) /\
            stopsAt visited s' k0 (indexXZY x y0 (z1' + 1) w h l).
Proof.
  revert z1 s. induction room as [|room IH]; intros z1 s; simpl.
  - intros [= <- <-] _ _. left. lia.
  - destruct (scanRow getKey w h l visited i y0 (z1 + 1) (x1 + 1 - x0) x0 s)
      as [ok s1] eqn:Hrow.
    pose proof (scanRow_spec getKey w h l cached get_cached get_mono
                  _ _ _ _ k0 _ _ _ _ _ Hrow) as Hspec.
    destruct ok.
    + intros Hrec Hk0 Hne. destruct (Hspec Hk0) as [Hr _].
      apply IH in Hrec; [|eapply (reach_cached getKey cached get_mono); eassumption
                         |exact Hne].
      destruct Hrec as [->|Hstop]; [left; lia|right; exact Hstop].
    + intros [= <- <-] Hk0 Hne. right. eapply scanRow_stop; eassumption.
Qed.

Lemma scanSlab_stop (visited : list bool) (i x0 x1 yy : nat) (k0 : string)
    (n zi : nat) (s : St) (s' : St) :
  scanSlab getKey w h l visited i x0 x1 yy n zi s = (false, s') ->
  cached s i = Some (Some k0) -> Js.nonEmpty k0 = true ->
  exists x z, x0 <= x < x0 + (x1 + 1 - x0) /\ zi <= z < zi + n /\
              stopsAt visited s' k0 (indexXZY x yy z w h l).
Proof.
  revert zi s. induction n as [|n IH]; intros zi s; simpl; [discriminate|].
  destruct (scanRow getKey w h l visited i yy zi (x1 + 1 - x0) x0 s)
    as [ok s1] eqn:Hrow.
  pose proof (scanRow_spec getKey w h l cached get_cached get_mono
                _ _ _ _ k0 _ _ _ _ _ Hrow) as Hspec.
  destruct ok.
  - intros Hrec Hk0 Hne. destruct (Hspec Hk0) as [Hr _].
    apply IH in Hrec; [|eapply (reach_cached getKey cached get_mono); eassumption
                       |exact Hne].
    destruct Hrec as (x & z & Hx & Hz & Hstop). exists x, z.
    split; [exact Hx|]. split; [lia|exact Hstop].
  - intros [= <-] Hk0 Hne.
    destruct (scanRow_stop _ _ _ _ _ _ _ _ _ Hrow Hk0 Hne) as (x & Hx & Hstop).
    exists x, zi. split; [exact Hx|]. split; [lia|exact Hstop].
Qed.

Lemma expandY_stop (visited : list bool) (i x0 x1 z0 z1 : nat) (k0 : string)
    (room y1 : nat) (s : St) (y1' : nat) (s' : St) :
  expandY getKey w h l visited i x0 x1 z0 z1 room y1 s = (y1', s') ->
  cached s i = Some (Some k0) -> Js.nonEmpty k0 = true ->
  y1' = y1 + room \/
  exists x z, x0 <= x < x0 + (x1 + 1 - x0) /\ z0 <= z < z0 + (z1 + 1 - z0) /\
              stopsAt visited s' k0 (indexXZY x (y1' + 1) z w h l).
Proof.
  revert y1 s. induction room as [|room IH]; intros y1 s; simpl.
  - intros [= <- <-] _ _. left. lia.
  - destruct (scanSlab getKey w h l visited i x0 x1 (y1 + 1) (z1 + 1 - z0) z0 s)
      as [ok s1] eqn:Hslab.
    pose proof (scanSlab_spec getKey w h l cached get_cached get_mono
                  _ _ _ _ _ k0 _ _ _ _ _ Hslab) as Hspec.
    destruct ok.
    + intros Hrec Hk0 Hne. destruct (Hspec Hk0) as [Hr _].
      apply IH in Hrec; [|eapply (reach_cached getKey cached get_mono); eassumption
                         |exact Hne].
      destruct Hrec as [->|Hstop]; [left; lia|right; exact Hstop].
    + intros [= <- <-] Hk0 Hne. right. eapply scanSlab_stop; eassumption.
Qed.

(** Each of the three expansions of [growBox] ends at the border of
    the volume or at a cell that stops it. *)
Lemma growBox_stops (visited : list bool) (i : nat) (k0 : string) (s : St)
    (b : Box.t) (s' : St) :
  growBox getKey w h l visited i k0 s = (b, s') ->
  i < w * h * l ->
  cached s i = Some (Some k0) -> Js.nonEmpty k0 = true ->
  (Box.x1 b + 1 = w \/
   stopsAt visited s' k0 (indexXZY (Box.x1 b + 1) (Box.y0 b) (Box.z0 b) w h l)) /\
  (Box.z1 b + 1 = l \/
   exists x, Box.x0 b <= x <= Box.x1 b /\
             stopsAt visited s' k0 (indexXZY x (Box.y0 b) (Box.z1 b + 1) w h l)) /\
  (Box.y1 b + 1 = h \/
   exists x z, Box.x0 b <= x <= Box.x1 b /\ Box.z0 b <= z <= Box.z1 b /\
               stopsAt visited s' k0 (indexXZY x (Box.y1 b + 1) z w h l)).
Proof.
  intros Hgrow Hi Hk0 Hne. unfold growBox, coordsXZY in Hgrow.
  destruct (coords_bounds w h l i Hi) as (Hx0 & Hy0 & Hz0).
  set (x0 := i mod w) in *. set (y0 := i / (w * l)) in *. set (z0 := (i / w) mod l) in *.
  destruct (expandX getKey w h l visited i y0 z0 (w - (x0 + 1)) x0 s) as [x1 s1] eqn:HX.
  destruct (expandZ getKey w h l visited i x0 x1 y0 (l - (z0 + 1)) z0 s1) as [z1 s2] eqn:HZ.
  destruct (expandY getKey w h l visited i x0 x1 z0 z1 (h - (y0 + 1)) y0 s2)
    as [y1 s3] eqn:HY.
  injection Hgrow as <- <-. cbn [Box.x0 Box.x1 Box.y0 Box.y1 Box.z0 Box.z1].
  pose proof (expandX_spec getKey w h l cached get_cached get_mono
                _ _ _ _ k0 _ _ _ _ _ HX Hk0) as (Hr1 & Hx1 & _).
  pose proof (reach_cached getKey cached get_mono _ _ _ _ Hr1 Hk0) as Hk1.
  pose proof (expandZ_spec getKey w h l cached get_cached get_mono
                _ _ _ _ _ k0 _ _ _ _ _ HZ Hk1) as (Hr2 & Hz1 & _).
  pose proof (reach_cached getKey cached get_mono _ _ _ _ Hr2 Hk1) as Hk2.
  pose proof (expandY_spec getKey w h l cached get_cached get_mono
                _ _ _ _ _ _ k0 _ _ _ _ _ HY Hk2) as (Hr3 & Hy1 & _).
  apply expandX_stop with (k0 := k0) in HX; [|assumption|assumption].
  apply expandZ_stop with (k0 := k0) in HZ; [|assumption|assumption].
  apply expandY_stop with (k0 := k0) in HY; [|assumption|assumption].
  split; [|split].
  - destruct HX as [->|Hstop]; [left; lia|right].
    eapply stopsAt_reach; [|exact Hstop].
    eapply (reach_trans getKey); eassumption.
  - destruct HZ as [->|(x & Hx & Hstop)]; [left; lia|right].
    exists x. split; [lia|]. eapply stopsAt_reach; eassumption.
  - destruct HY as [->|(x & z & Hx & Hz & Hstop)]; [left; lia|right].
    exists x, z. split; [lia|]. split; [lia|exact Hstop].
Qed.

Lemma obstacle_keep (out extra : list Box.t) (s s' : St) (m : nat) (k : string)
    (x y z : nat) :
  reach s s' -> obstacle out s m k x y z -> obstacle (out ++ extra) s' m k x y z.
Proof.
  intros Hr [(k1 & Hk1 & Hne)|(m' & b' & Hm & Hb & Hc)]; [left|right].
  - exists k1. split; [|exact Hne].
    eapply (reach_cached getKey cached get_mono); eassumption.
  - exists m', b'. split; [exact Hm|]. split; [|exact Hc].
    apply lookup_app_l_Some. exact Hb.
Qed.

Lemma maximal_keep (out extra : list Box.t) (s s' : St) (m : nat) (b : Box.t) :
  reach s s' -> maximal out s m b -> maximal (out ++ extra) s' m b.
Proof.
  intros Hr (HX & HZ & HY). split; [|split].
  - destruct HX as [HX|HX]; [left; exact HX|right]. eapply obstacle_keep; eassumption.
  - destruct HZ as [HZ|(x & Hx & HZ)]; [left; exact HZ|right].
    exists x. split; [exact Hx|]. eapply obstacle_keep; eassumption.
  - destruct HY as [HY|(x & z & Hx & Hz & HY)]; [left; exact HY|right].
    exists x, z. split; [exact Hx|]. split; [exact Hz|].
    eapply obstacle_keep; eassumption.
Qed.

Lemma greedy_keep (out : list Box.t) (s s' : St) :
  reach s s' -> greedy out s -> greedy out s'.
Proof.
  intros Hr Hg m b Hm. specialize (Hg m b Hm).
  apply (maximal_keep out [] s s' m b Hr) in Hg. rewrite app_nil_r in Hg. exact Hg.
Qed.

Lemma greedy_step (i : nat) (visited : list bool) (out : list Box.t) (s : St)
    (visited' : list bool) (out' : list Box.t) (s' : St) :
  i < w * h * l ->
  invariant w h l cached i visited out s ->
  coverage w h l cached i visited out s ->
  greedy out s ->
  mergeStep getKey w h l (visited, out, s) i = (visited', out', s') ->
  greedy out' s'.
Proof.
  intros Hi [Hlen Hbelow Hknown Habove Hboxes Hdisj Hcount] [Hcells Hstart Horder] Hg.
  unfold mergeStep. destruct (isVisited visited i) eqn:Hvi.
  - intros [= <- <- <-]. exact Hg.
  - pose proof (get_cached i s) as Hci.
    pose proof (reach_get getKey i s) as Hr1.
    destruct (getKey i s) as [k0 s1]. simpl in Hci, Hr1.
    destruct k0 as [k|]; [|intros [= <- <- <-]; eapply greedy_keep; eassumption].
    destruct (Js.nonEmpty k) eqn:Hk;
      [|intros [= <- <- <-]; eapply greedy_keep; eassumption].
    destruct (growBox getKey w h l visited i k s1) as [b s2] eqn:Hgrow.
    intros [= <- <- <-].
    pose proof (growBox_stops _ _ _ _ _ _ Hgrow Hi Hci Hk) as Hstops.
    apply (growBox_spec getKey w h l cached get_cached get_mono) in Hgrow
      as (Hr2 & Hb & Hkey & _ & _); [|exact Hi|split; assumption].
    assert (Hr : reach s s2) by (eapply (reach_trans getKey); eassumption).
    (* a cell that stopped the growth is an obstacle once the box is out *)
    assert (Hturn : forall x y z, x < w -> z < l ->
              stopsAt visited s2 k (indexXZY x y z w h l) ->
              obstacle (out ++ [b]) s2 (length out) k x y z).
    { intros x y z Hx Hz [Hv|Hdiff]; [|left; exact Hdiff].
      destruct (Hcells _ Hv) as [Hf|(b' & x' & y' & z' & Hb' & Hc & Hidx)].
      - left. unfold falsyCached in Hf.
        destruct (cached s (indexXZY x y z w h l)) as [k1|] eqn:Hk1; [|discriminate].
        exists k1. split.
        + eapply (reach_cached getKey cached get_mono); eassumption.
        + intros ->. cbn [truthyKey] in Hf. rewrite Hk in Hf. discriminate.
      - right. rewrite Forall_forall in Hboxes.
        destruct (Hboxes b' Hb') as ((Hbx & Hby & Hbz) & _).
        destruct Hc as (Hcx & Hcy & Hcz).
        apply index_inj in Hidx as (-> & -> & ->); [|lia..].
        apply list_elem_of_lookup in Hb' as [m' Hm'].
        exists m', b'. split; [eapply lookup_lt_Some, Hm'|].
        split; [apply lookup_app_l_Some, Hm'|]. repeat split; lia. }
    destruct Hb as (Hbx & Hby & Hbz).
    intros m b0 Hm. apply lookup_app_Some in Hm as [Hm|[Hlm Hm]].
    + apply (maximal_keep out [b] s s2); [exact Hr|]. apply Hg, Hm.
    + apply list_lookup_singleton_Some in Hm as [Hm <-].
      replace m with (length out) by lia. red. rewrite Hkey.
      destruct Hstops as (HX & HZ & HY). split; [|split].
      * destruct (decide (Box.x1 b + 1 = w)) as [He|Hn]; [left; exact He|right].
        destruct HX as [HX|HX]; [contradiction|]. apply Hturn; [lia|lia|exact HX].
      * destruct (decide (Box.z1 b + 1 = l)) as [He|Hn]; [left; exact He|right].
        destruct HZ as [HZ|(x & Hx & HZ)]; [contradiction|].
        exists x. split; [exact Hx|]. apply Hturn; [lia|lia|exact HZ].
      * destruct HY as [HY|(x & z & Hx & Hz & HY)]; [left; exact HY|right].
        exists x, z. split; [exact Hx|]. split; [exact Hz|].
        apply Hturn; [lia|lia|exact HY].
Qed.

Lemma greedy_loop (n i : nat) (visited : list bool) (out : list Box.t) (s : St)
    (visited' : list bool) (out' : list Box.t) (s' : St) :
  i + n <= w * h * l ->
  invariant w h l cached i visited out s ->
  coverage w h l cached i visited out s ->
  greedy out s ->
  fold_left (mergeStep getKey w h l) (seq i n) (visited, out, s) = (visited', out', s') ->
  greedy out' s'.
Proof.
  revert i visited out s.
  induction n as [|n IH]; intros i visited out s Hle Hinv Hcov Hg; cbn [seq fold_left].
  - intros [= <- <- <-]. exact Hg.
  - destruct (mergeStep getKey w h l (visited, out, s) i) as [[v1 o1] s1] eqn:Hstep.
    assert (Hi : i < w * h * l) by lia.
    pose proof (greedy_step i visited out s v1 o1 s1 Hi Hinv Hcov Hg Hstep) as Hg1.
    pose proof (coverage_step getKey w h l cached get_cached get_mono
                  i visited out s v1 o1 s1 Hi Hinv Hcov Hstep) as Hcov1.
    apply (invariant_step getKey w h l cached get_cached get_mono) in Hstep
      as [Hinv1 _]; [|lia|exact Hinv].
    apply (IH (S i) v1 o1 s1); [lia|exact Hinv1|exact Hcov1|exact Hg1].
Qed.

Lemma mergeLoop_greedy (s : St) (visited : list bool) (out : list Box.t) (s' : St) :
  mergeLoop getKey w h l s = (visited, out, s') -> greedy out s'.
Proof.
  unfold mergeLoop. rewrite length_replicate. intros Hloop.
  apply (greedy_loop (w * h * l) 0) in Hloop; [exact Hloop|lia| | |].
  - apply invariant_init.
  - apply coverage_init.
  - intros m b Hm. rewrite lookup_nil in Hm. discriminate.
Qed.
End GreedyFacts.

(** Every emitted box is a region of the volume: its corners are
    ordered and inside the bounds. *)
Theorem merge_boxes_in_bounds (legacyMap : LegacyMap) (schem : Schem.t) (T : Table)
    (b : Box.t) :
  b ∈ fst (mergeBoxes legacyMap schem T) ->
  inBounds (Schem.width schem) (Schem.height schem) (Schem.length schem) b.
Proof.
  intros Hb.
  destruct (mergeBoxes_coverage legacyMap schem T) as (visited & Hinv & _).
  destruct Hinv as [_ _ _ _ Hboxes _ _]. rewrite Forall_forall in Hboxes.
  destruct (Hboxes b Hb) as (Hin & _). exact Hin.
Qed.

Lemma merge_boxes_in_bounds_witness :
  inBounds 3 2 2 (Box.mk 2 0 1 2 1 1 "dirt").
Proof.
  apply (merge_boxes_in_bounds ∅ mixedVolume ∅ (Box.mk 2 0 1 2 1 1 "dirt")).
  vm_compute. apply list_elem_of_In. simpl. auto.
Defined.

(** Greedy growth: a box stops along x only at the border of the volume
    or before a cell that has another key or lies in an earlier box;
    likewise a row of its first layer stops it along z, and a cell of
    the next layer stops it along y. *)
Theorem merge_boxes_maximal (legacyMap : LegacyMap) (schem : Schem.t) (T : Table)
    (m : nat) (b : Box.t) :
  fst (mergeBoxes legacyMap schem T) !! m = Some b ->
  maximal (Schem.width schem) (Schem.height schem) (Schem.length schem)
    (cachedKey schem) (fst (mergeBoxes legacyMap schem T))
    (snd (mergeBoxes legacyMap schem T)) m b.
Proof.
  unfold mergeBoxes.
  destruct (mergeLoop (getKeyAt legacyMap schem) _ _ _ (emptyCache, T))
    as [[visited out] st] eqn:Hloop.
  cbn [fst snd]. intros Hm.
  apply (mergeLoop_greedy _ _ _ _ (cachedKey schem)
           (getKeyAt_cached legacyMap schem) (getKeyAt_mono legacyMap schem)) in Hloop.
  apply Hloop, Hm.
Qed.

Lemma merge_boxes_maximal_witness :
  maximal 3 2 2 (cachedKey mixedVolume) (fst (mergeBoxes ∅ mixedVolume ∅))
    (snd (mergeBoxes ∅ mixedVolume ∅)) 1 (Box.mk 2 0 1 2 1 1 "dirt").
Proof.
  apply (merge_boxes_maximal ∅ mixedVolume ∅ 1 (Box.mk 2 0 1 2 1 1 "dirt")).
  vm_compute. reflexivity.
Defined.

(** ** Names *)

Lemma lowerChar_idempotent (c : ascii) : Js.lowerChar (Js.lowerChar c) = Js.lowerChar c.
Proof. destruct c as [[] [] [] [] [] [] [] []]; reflexivity. Qed.

Lemma lowerChar_eqb (c d : ascii) :
  d = ":"%char \/ d = "["%char ->
  Ascii.eqb (Js.lowerChar c) d = Ascii.eqb c d.
Proof.
  intros [->| ->]; destruct c as [[] [] [] [] [] [] [] []]; reflexivity.
Qed.

Lemma toLowerCase_idempotent (s : string) :
  Js.toLowerCase (Js.toLowerCase s) = Js.toLowerCase s.
Proof.
  induction s as [|c s IH]; simpl; [reflexivity|].
  rewrite lowerChar_idempotent, IH. reflexivity.
Qed.

Lemma includes_toLowerCase (d : ascii) (s : string) :
  d = ":"%char \/ d = "["%char ->
  Js.includes d (Js.toLowerCase s) = Js.includes d s.
Proof.
  intros Hd. induction s as [|c s IH]; simpl; [reflexivity|].
  rewrite lowerChar_eqb, IH by exact Hd. reflexivity.
Qed.

Lemma normalizeNamespace_fixed (r : string) :
  Js.toLowerCase r = r -> Js.includes ":" r = true -> normalizeNamespace r = r.
Proof.
  intros Hlow Hcolon. unfold normalizeNamespace.
  destruct r as [|c r]; [reflexivity|].
  change (String.eqb (String c r) "") with false. cbv iota.
  rewrite Hlow, Hcolon. reflexivity.
Qed.

Lemma normalizeNamespace_shape (n : string) :
  normalizeNamespace n = ""%string \/
  (Js.toLowerCase (normalizeNamespace n) = normalizeNamespace n /\
   Js.includes ":" (normalizeNamespace n) = true).
Proof.
  unfold normalizeNamespace. destruct (String.eqb n "") eqn:Hn; [left; reflexivity|].
  right. destruct (Js.includes ":" (Js.toLowerCase n)) eqn:Hc.
  - split; [apply toLowerCase_idempotent|exact Hc].
  - split; [|reflexivity].
    change (Js.toLowerCase ("minecraft:" ++ Js.toLowerCase n))
      with ("minecraft:" ++ Js.toLowerCase (Js.toLowerCase n))%string.
    rewrite toLowerCase_idempotent. reflexivity.
Qed.

Lemma normalizeNamespace_twice (n : string) :
  normalizeNamespace (normalizeNamespace n) = normalizeNamespace n.
Proof.
  destruct (normalizeNamespace_shape n) as [He|[Hlow Hcolon]].
  - rewrite He. reflexivity.
  - apply normalizeNamespace_fixed; assumption.
Qed.

(** [normalizeNamespace] is idempotent, and its result is empty or a
    lower-case name with a namespace. *)
Theorem normalizeNamespace_idempotent (n : string) :
  normalizeNamespace (normalizeNamespace n) = normalizeNamespace n /\
  (normalizeNamespace n = ""%string \/
   (Js.includes ":" (normalizeNamespace n) = true /\
    Js.toLowerCase (normalizeNamespace n) = normalizeNamespace n)).
Proof.
  destruct (normalizeNamespace_shape n) as [He|[Hlow Hcolon]].
  - rewrite He. split; [reflexivity|left; reflexivity].
  - split; [apply normalizeNamespace_fixed; assumption|right; split; assumption].
Qed.

(** ** What [translateBlock] leaves alone *)

Lemma split_without (sep : ascii) (s : string) :
  Js.includes sep s = false -> Js.split sep s = [s].
Proof.
  induction s as [|c s IH]; simpl; [reflexivity|].
  rewrite Ascii.eqb_sym. intros Hinc. apply orb_false_iff in Hinc as [Hc Hs].
  rewrite Ascii.eqb_sym in Hc. rewrite Ascii.eqb_sym, Hc. rewrite (IH Hs). reflexivity.
Qed.

Lemma sameFixedFields_refl (e : Entry.t) : sameFixedFields e e.
Proof.
  unfold sameFixedFields. repeat split. exists []. rewrite app_nil_r. reflexivity.
Qed.

Lemma mergeLeaf_fixed (e : Entry.t) (leaf : Node) : sameFixedFields e (mergeLeaf e leaf).
Proof.
  destruct leaf as [s|branches name additions removals renames remaps|f];
    [apply sameFixedFields_refl| |apply sameFixedFields_refl].
  unfold sameFixedFields.
  destruct additions, removals, renames, remaps; simpl; repeat split;
    first [exists []; rewrite app_nil_r; reflexivity | eexists; reflexivity].
Qed.

Lemma dispatch_entry (e : Entry.t) (javaStates : Js.object (option string)) :
  snd (fst (dispatch e javaStates)) = e \/
  exists leaf,
    Entry.mapping e <> None /\ identifierTruthy (Entry.identifier e) = true /\
    snd (fst (dispatch e javaStates)) = mergeLeaf e leaf.
Proof.
  unfold dispatch. destruct (Entry.mapping e) as [m|] eqn:Hm; [|left; reflexivity].
  destruct (nodeTruthy m); [|left; reflexivity].
  destruct (identifierTruthy (Entry.identifier e)) eqn:Hid; [|left; reflexivity].
  simpl.
  destruct (walk _ javaStates m) as [node|]; [|left; reflexivity].
  destruct (nodeTruthy node); [|left; reflexivity].
  right. exists node. repeat split. discriminate.
Qed.

(** The entry found is an own entry of the table under the key it was
    read under, or an inherited member, which has no [mapping]. *)
Lemma lookupEntry_own (T : Table) (blockName key : string) (e : Entry.t) :
  lookupEntry T blockName = Some (key, e) ->
  T !! key = Some e \/ (T !! key = None /\ Entry.mapping e = None).
Proof.
  assert (Hread : forall k e0, readEntry T k = Some e0 ->
                    T !! k = Some e0 \/ (T !! k = None /\ Entry.mapping e0 = None)).
  { intros k e0. unfold readEntry, inheritedEntry.
    destruct (T !! k) as [e1|]; [intros [= <-]; left; reflexivity|].
    destruct (Js.objectPrototype k) as [[name|]|]; [| |discriminate];
      intros [= <-]; right; split; reflexivity. }
  unfold lookupEntry.
  destruct (readEntry T blockName) as [e0|] eqn:H0.
  - intros [= <- <-]. apply Hread, H0.
  - destruct (readEntry T (stripNamespace blockName)) as [e1|] eqn:H1; [|discriminate].
    intros [= <- <-]. apply Hread, H1.
Qed.

Lemma translateCore_table (blockName : string) (stateStr : option string) (T : Table) :
  snd (translateCore blockName stateStr T) = T \/
  exists key e leaf,
    lookupEntry T blockName = Some (key, e) /\ T !! key = Some e /\
    Entry.mapping e <> None /\ identifierTruthy (Entry.identifier e) = true /\
    snd (translateCore blockName stateStr T) = <[key := mergeLeaf e leaf]> T.
Proof.
  unfold translateCore.
  destruct (lookupEntry T blockName) as [[key e]|] eqn:Hfound; [|left; reflexivity].
  pose proof (lookupEntry_own T blockName key e Hfound) as Hkey.
  match goal with
  | |- context [dispatch e ?js] =>
      pose proof (dispatch_entry e js) as Hd; destruct (dispatch e js) as [[bn e'] js']
  end.
  simpl in Hd |- *.
  destruct (T !! key) as [e0|] eqn:Hown; [|left; reflexivity].
  destruct Hkey as [Hkey|[Hkey _]]; [|discriminate]. injection Hkey as ->.
  destruct Hd as [->|(leaf & Hm & Hid & ->)].
  - left. apply insert_id. exact Hown.
  - right. exists key, e, leaf. auto.
Qed.

Lemma translateBlock_table (javaBlock : string) (T : Table) :
  snd (translateBlock javaBlock T) = T \/
  exists key e leaf,
    lookupEntry T (normalizeNamespace (nth 0 (Js.split "[" javaBlock) ""%string))
    = Some (key, e) /\
    T !! key = Some e /\
    Entry.mapping e <> None /\ identifierTruthy (Entry.identifier e) = true /\
    snd (translateBlock javaBlock T) = <[key := mergeLeaf e leaf]> T.
Proof.
  unfold translateBlock.
  destruct (negb (Js.nonEmpty javaBlock)); [left; reflexivity|].
  destruct (isAir _ || INVALID_BLOCKS _); [left; reflexivity|].
  match goal with
  | |- context [translateCore ?bn ?st T] =>
      pose proof (translateCore_table bn st T) as Hc;
      destruct (translateCore bn st T) as [[name states] T']
  end.
  simpl in Hc.
  destruct (isAir _ || INVALID_BLOCKS _); simpl; exact Hc.
Qed.

(** Frame: a call never adds or removes a table key and never touches
    the entry of another block; in the entry of the block itself it
    leaves [name], [identifier], [mapping], [defaults] and [tile_extra]
    as they are and only appends to [removals]. *)
Theorem translateBlock_frame (javaBlock : string) (T : Table) (k : string) :
  let T' := snd (translateBlock javaBlock T) in
  (T' !! k = None <-> T !! k = None) /\
  (forall e e', T !! k = Some e -> T' !! k = Some e' -> sameFixedFields e e') /\
  (T' !! k <> T !! k ->
   fst <$> lookupEntry T (normalizeNamespace (nth 0 (Js.split "[" javaBlock) ""%string))
   = Some k).
Proof.
  cbv zeta.
  destruct (translateBlock_table javaBlock T)
    as [->|(key & e & leaf & Hfound & Hkey & _ & _ & ->)].
  - split; [tauto|]. split; [|congruence].
    intros e e' He He'. rewrite He in He'. injection He' as <-.
    apply sameFixedFields_refl.
  - destruct (decide (key = k)) as [->|Hne].
    + rewrite lookup_insert_eq. split; [split; congruence|].
      split; [|intros _; rewrite Hfound; reflexivity].
      intros e0 e' He0 [= <-]. rewrite Hkey in He0. injection He0 as <-.
      apply mergeLeaf_fixed.
    + rewrite lookup_insert_ne by exact Hne. split; [tauto|].
      split; [|congruence].
      intros e0 e' He0 He'. rewrite He0 in He'. injection He' as <-.
      apply sameFixedFields_refl.
Qed.

(** Without an object leaf nothing is written: the table is unchanged
    when the block has no entry, or its entry has no [mapping] or no
    [identifier]. *)
Theorem translateBlock_pure_without_dispatch (javaBlock : string) (T : Table) :
  match lookupEntry T (normalizeNamespace (nth 0 (Js.split "[" javaBlock) ""%string)) with
  | None => True
  | Some (_, e) =>
      Entry.mapping e = None \/ identifierTruthy (Entry.identifier e) = false
  end ->
  snd (translateBlock javaBlock T) = T.
Proof.
  intros Hpure.
  destruct (translateBlock_table javaBlock T)
    as [->|(key & e & leaf & Hfound & _ & Hm & Hid & _)]; [reflexivity|].
  rewrite Hfound in Hpure. destruct Hpure as [Hnone|Hfalse]; congruence.
Qed.

Lemma translateBlock_pure_without_dispatch_witness :
  snd (translateBlock "minecraft:foo[a=b]" movingTable) = movingTable.
Proof.
  apply (translateBlock_pure_without_dispatch "minecraft:foo[a=b]" movingTable).
  vm_compute. left. reflexivity.
Defined.

(** ** What [translateBlock] returns *)

Lemma entries_nil {A} : Js.entries (@nil (string * A)) = [].
Proof. reflexivity. Qed.

(** Pass-through: a descriptor without a state list whose block has no
    table entry is returned as its normalised name, and the table is
    not touched. *)
Theorem translateBlock_unknown_passthrough (javaBlock : string) (T : Table) :
  Js.nonEmpty javaBlock = true ->
  Js.includes "[" javaBlock = false ->
  isAir (normalizeNamespace javaBlock) || INVALID_BLOCKS (normalizeNamespace javaBlock)
  = false ->
  lookupEntry T (normalizeNamespace javaBlock) = None ->
  translateBlock javaBlock T = (Some (normalizeNamespace javaBlock), T).
Proof.
  intros Hne Hnb Hok Hnone. unfold translateBlock.
  rewrite Hne, (split_without "[" javaBlock Hnb). simpl negb. cbv iota.
  change (nth 0 [javaBlock] ""%string) with javaBlock.
  change ([javaBlock] !! 1) with (@None string).
  rewrite Hok. unfold translateCore. rewrite Hnone. simpl.
  assert (Hbn : Js.includes "[" (normalizeNamespace javaBlock) = false).
  { unfold normalizeNamespace. destruct (String.eqb javaBlock ""); [reflexivity|].
    destruct (Js.includes ":" (Js.toLowerCase javaBlock)).
    - rewrite includes_toLowerCase by auto. exact Hnb.
    - change (Js.includes "[" ("minecraft:" ++ Js.toLowerCase javaBlock))
        with (Js.includes "[" (Js.toLowerCase javaBlock)).
      rewrite includes_toLowerCase by auto. exact Hnb. }
  unfold chooseName. simpl.
  rewrite (split_without "[" _ Hbn). simpl nth.
  rewrite normalizeNamespace_twice.
  rewrite Hok. reflexivity.
Qed.

Lemma translateBlock_unknown_passthrough_witness :
  translateBlock "Stone" movingTable = (Some "minecraft:stone"%string, movingTable).
Proof.
  apply (translateBlock_unknown_passthrough "Stone" movingTable);
    vm_compute; reflexivity.
Defined.

Lemma isAir_literal (s : string) :
  isAir s = true ->
  normalizeNamespace (nth 0 (Js.split "[" s) ""%string) = s.
Proof.
  unfold isAir. rewrite !orb_true_iff, !String.eqb_eq.
  intros [[->| ->]| ->]; reflexivity.
Qed.

(** The getter's second air test is dead: a descriptor that
    [translateBlock] returns never has an air or invalid name, so the
    key is [sanitize] of the result. *)
Theorem translateBlock_result_not_air (javaBlock : string) (T : Table) :
  (forall s, fst (translateBlock javaBlock T) = Some s ->
     isAir (normalizeNamespace (nth 0 (Js.split "[" s) ""%string))
     || INVALID_BLOCKS (normalizeNamespace (nth 0 (Js.split "[" s) ""%string)) = false) /\
  keyOfTranslation (fst (translateBlock javaBlock T))
  = sanitize (fst (translateBlock javaBlock T)).
Proof.
  assert (Hres : forall s, fst (translateBlock javaBlock T) = Some s ->
            isAir (normalizeNamespace (nth 0 (Js.split "[" s) ""%string))
            || INVALID_BLOCKS (normalizeNamespace (nth 0 (Js.split "[" s) ""%string))
            = false).
  { intros s. unfold translateBlock.
    destruct (negb (Js.nonEmpty javaBlock)); [discriminate|].
    destruct (isAir _ || INVALID_BLOCKS _); [discriminate|].
    destruct (translateCore _ _ T) as [[name states] T'].
    destruct (isAir _ || INVALID_BLOCKS _) eqn:Hout; [discriminate|].
    simpl. intros [= <-]. exact Hout. }
  split; [exact Hres|].
  unfold keyOfTranslation.
  destruct (fst (translateBlock javaBlock T)) as [s|] eqn:Hs; [|reflexivity].
  simpl default. destruct (isAir s) eqn:Hair; [|reflexivity].
  specialize (Hres s eq_refl). rewrite (isAir_literal s Hair), Hair in Hres.
  discriminate.
Qed.

(** ** The memo of the key getter *)

(** A cell whose memo slot is filled is answered from the memo, with
    the memo maps and the shared table left as they are; so asking for
    the same cell twice gives the same key and changes nothing the
    second time. *)
Theorem getKeyAt_memo_hit (legacyMap : LegacyMap) (schem : Schem.t) (st : GetterState) :
  (forall j k, cachedKey schem st j = Some k ->
               getKeyAt legacyMap schem j st = (k, st)) /\
  (forall i,
     getKeyAt legacyMap schem i (snd (getKeyAt legacyMap schem i st))
     = (fst (getKeyAt legacyMap schem i st), snd (getKeyAt legacyMap schem i st))).
Proof.
  assert (Hhit : forall st j k, cachedKey schem st j = Some k ->
                                getKeyAt legacyMap schem j st = (k, st)).
  { intros [cache T0] j k. unfold cachedKey, getKeyAt. simpl.
    destruct (Schem.type schem); intros ->; reflexivity. }
  split; [apply Hhit|].
  intros i. apply Hhit, getKeyAt_cached.
Qed.

(** ** More on the packed decoder *)

Module PackedMore.
Import Packed.
Local Open Scope Z_scope.

Lemma masked_below (v bpe : Z) :
  0 <= bpe -> 0 <= Z.land v (Z.shiftl 1 bpe - 1) < 2 ^ bpe.
Proof.
  intros Hb. rewrite PackedFacts.ones_shiftl, Z.land_ones by exact Hb.
  apply Z.mod_pos_bound. lia.
Qed.

Lemma toUint32_small (v bpe : Z) :
  0 <= bpe <= 32 -> 0 <= v < 2 ^ bpe -> toUint32 v = v.
Proof.
  intros Hb Hv. unfold toUint32. apply Z.mod_small. split; [lia|].
  apply Z.lt_le_trans with (2 ^ bpe); [lia|]. apply Z.pow_le_mono_r; lia.
Qed.

Lemma decodeEntry_below (longArr : list Z) (bpe : Z) (i : nat) (v : Z) :
  0 <= bpe <= 32 -> decodeEntry longArr bpe i = Some v -> 0 <= v < 2 ^ bpe.
Proof.
  intros Hb. unfold decodeEntry.
  set (li := Z.shiftr (Z.of_nat i * bpe) 6).
  destruct (longArr !! Z.to_nat li) as [b|]; simpl; [|discriminate].
  match goal with |- context [if ?c then _ else _] => destruct c end.
  - destruct (longArr !! Z.to_nat (li + 1)) as [nb|]; simpl; [|discriminate].
    intros [= <-].
    match goal with
    | |- _ <= toUint32 ?x < _ =>
        assert (Hx : 0 <= x < 2 ^ bpe)
          by (apply ClassicFacts.lor_below; [lia| |]; apply masked_below; lia)
    end.
    rewrite (toUint32_small _ bpe) by assumption. exact Hx.
  - intros [= <-].
    rewrite (toUint32_small _ bpe) by (try apply masked_below; lia).
    apply masked_below. lia.
Qed.

(** The decoder returns [count] entries, each below [2^bitsPerEntry]. *)
Theorem decodePacked_entries_below (longArr : list Z) (count : nat) (bpe : Z)
    (out : list Z) :
  0 <= bpe <= 32 ->
  decodePackedBlockStates longArr count bpe = Some out ->
  length out = count /\ Forall (fun v => 0 <= v < 2 ^ bpe) out.
Proof.
  intros Hb Hdec. unfold decodePackedBlockStates in Hdec. split.
  - apply length_mapM in Hdec. rewrite length_seq in Hdec. congruence.
  - apply mapM_Some_1 in Hdec. apply Forall_forall. intros v Hv.
    apply list_elem_of_lookup in Hv as [k Hk].
    destruct (Forall2_lookup_r _ _ _ _ _ Hdec Hk) as (i & _ & Hi).
    eapply decodeEntry_below; eassumption.
Qed.

Lemma decodePacked_entries_below_witness :
  length [1; 2; 3; 4; 5; 6; 7; 8; 9; 10; 11; 12; 31; 17] = 14%nat /\
  Forall (fun v => 0 <= v < 2 ^ 5) [1; 2; 3; 4; 5; 6; 7; 8; 9; 10; 11; 12; 31; 17].
Proof.
  apply (decodePacked_entries_below
           (encodePacked [1; 2; 3; 4; 5; 6; 7; 8; 9; 10; 11; 12; 31; 17] 5) 14 5).
  - lia.
  - vm_compute. reflexivity.
Defined.

Lemma decodeEntry_is_Some (longArr : list Z) (bpe : Z) (i : nat) :
  0 <= bpe ->
  is_Some (decodeEntry longArr bpe i) <->
  (Z.of_nat i * bpe / 64 < Z.of_nat (length longArr) /\
   (64 < (Z.of_nat i * bpe) mod 64 + bpe ->
    Z.of_nat i * bpe / 64 + 1 < Z.of_nat (length longArr))).
Proof.
  intros Hb. unfold decodeEntry.
  rewrite Z.shiftr_div_pow2 by lia.
  change 63 with (Z.ones 6). rewrite Z.land_ones by lia. change (2 ^ 6) with 64.
  set (li := Z.of_nat i * bpe / 64). set (sb := (Z.of_nat i * bpe) mod 64).
  assert (Hli : 0 <= li) by (unfold li; apply Z.div_pos; lia).
  assert (Hlook : forall k, 0 <= k ->
            (is_Some (longArr !! Z.to_nat k) <-> k < Z.of_nat (length longArr))).
  { intros k Hk. rewrite lookup_lt_is_Some. lia. }
  destruct (longArr !! Z.to_nat li) as [b|] eqn:Hb0.
  - assert (H1 : li < Z.of_nat (length longArr)) by (apply Hlook; [lia|eauto]).
    simpl. destruct (Z.ltb_spec 64 (sb + bpe)) as [Hs|Hs].
    + destruct (longArr !! Z.to_nat (li + 1)) as [nb|] eqn:Hb1; simpl.
      * assert (li + 1 < Z.of_nat (length longArr)) by (apply Hlook; [lia|eauto]).
        split; [auto|eauto].
      * split; [intros [x Hx]; discriminate|]. intros [_ H2].
        specialize (H2 Hs). apply Hlook in H2; [|lia].
        rewrite Hb1 in H2. destruct H2 as [x Hx]. discriminate.
    + split; [intros _; split; [exact H1|lia]|eauto].
  - simpl. split; [intros [x Hx]; discriminate|]. intros [H1 _].
    apply Hlook in H1; [|lia]. rewrite Hb0 in H1. destruct H1 as [x Hx]. discriminate.
Qed.

(** The decoder returns exactly when the array holds the
    [ceil(count * bitsPerEntry / 64)] longs the entries occupy; with
    fewer it throws. *)
Theorem decodePacked_returns_iff (longArr : list Z) (count : nat) (bpe : Z) :
  0 < bpe <= 64 ->
  (0 < count)%nat ->
  is_Some (decodePackedBlockStates longArr count bpe) <->
  (longCount count bpe <= length longArr)%nat.
Proof.
  intros Hb Hc. unfold decodePackedBlockStates, longCount.
  rewrite mapM_is_Some, Forall_forall.
  set (N := Z.of_nat count * bpe).
  assert (HL : 0 <= (N + 63) / 64) by (apply Z.div_pos; unfold N; nia).
  split.
  - intros Hall.
    assert (Hlast : is_Some (decodeEntry longArr bpe (count - 1))).
    { apply (Hall (count - 1)%nat). apply elem_of_seq. lia. }
    apply decodeEntry_is_Some in Hlast as [H1 H2]; [|lia].
    assert (HN : N = Z.of_nat (count - 1) * bpe + bpe) by (unfold N; nia).
    set (bi := Z.of_nat (count - 1) * bpe) in *.
    assert (Hbi : 0 <= bi) by (unfold bi; nia).
    pose proof (Z.div_mod bi 64 ltac:(lia)) as Hdm.
    pose proof (Z.mod_pos_bound bi 64 ltac:(lia)) as Hmod.
    apply Nat2Z.inj_le. rewrite Z2Nat.id by exact HL.
    destruct (Z.lt_ge_cases 64 (bi mod 64 + bpe)) as [Hs|Hs].
    + specialize (H2 Hs).
      assert ((N + 63) / 64 <= bi / 64 + 2); [|lia].
      apply Z.lt_succ_r. apply Z.div_lt_upper_bound; lia.
    + assert ((N + 63) / 64 <= bi / 64 + 1); [|lia].
      apply Z.lt_succ_r. apply Z.div_lt_upper_bound; lia.
  - intros Hlen i Hi. apply elem_of_seq in Hi. simpl.
    apply decodeEntry_is_Some; [lia|].
    apply Nat2Z.inj_le in Hlen. rewrite Z2Nat.id in Hlen by exact HL.
    set (bi := Z.of_nat i * bpe).
    assert (Hbi : 0 <= bi) by (unfold bi; nia).
    assert (Htot : bi + bpe <= N) by (unfold bi, N; nia).
    pose proof (Z.div_mod bi 64 ltac:(lia)) as Hdm.
    pose proof (Z.mod_pos_bound bi 64 ltac:(lia)) as Hmod.
    assert (Hk : forall k, 64 * k < bi + bpe -> k < (N + 63) / 64).
    { intros k Hk. apply Z.lt_le_trans with (k + 1); [lia|].
      apply Z.div_le_lower_bound; lia. }
    split.
    + apply Z.lt_le_trans with ((N + 63) / 64); [apply Hk; lia|exact Hlen].
    + intros Hs. apply Z.lt_le_trans with ((N + 63) / 64); [|exact Hlen].
      apply Hk. lia.
Qed.

Lemma decodePacked_returns_iff_witness :
  (longCount 14 5 <= length [0; 0])%nat /\
  decodePackedBlockStates [0] 14 5 = None.
Proof.
  split.
  - apply (decodePacked_returns_iff [0; 0] 14 5); [lia|lia|].
    vm_compute. eauto.
  - destruct (decodePackedBlockStates [0] 14 5) as [out|] eqn:Hd; [|reflexivity].
    exfalso.
    assert (Hs : is_Some (decodePackedBlockStates [0] 14 5)) by (rewrite Hd; eauto).
    apply (decodePacked_returns_iff [0] 14 5) in Hs; [|lia|lia].
    vm_compute in Hs. lia.
Defined.
End PackedMore.

(** ** The classic loader: failure and ranges *)

Module ClassicMore.
Import Classic.
Local Open Scope Z_scope.

Lemma masked_byte (x mask n : Z) :
  0 <= n <= 8 -> mask = Z.ones n -> 0 <= toUint8 (Z.land x mask) < 2 ^ n.
Proof.
  intros Hn ->. rewrite Z.land_ones by lia.
  pose proof (Z.mod_pos_bound x (2 ^ n) ltac:(lia)) as Hm.
  assert (Hle : 2 ^ n <= 2 ^ 8) by (apply Z.pow_le_mono_r; lia).
  unfold toUint8. rewrite Z.mod_small; lia.
Qed.

Lemma masked_number (x mask n : Z) :
  0 <= n <= 8 -> mask = Z.ones n -> 0 <= toUint8 (numberAnd x mask) < 2 ^ n.
Proof.
  intros Hn Hmask. unfold numberAnd. destruct (toDouble x) as [v|].
  - apply masked_byte; assumption.
  - unfold toUint8. rewrite Z.mod_0_l by lia.
    split; [lia|]. apply Z.pow_pos_nonneg; lia.
Qed.

Lemma normalize_below (input : option RawArray) (mask n : Z) (out : list Z) :
  0 <= n <= 8 -> mask = Z.ones n -> mask <> 255 ->
  normalizeClassicArray input mask = Some out -> Forall (fun v => 0 <= v < 2 ^ n) out.
Proof.
  intros Hn Hmask Hne.
  assert (Hmap : forall xs, Forall (fun v => 0 <= v < 2 ^ n)
                              (map (fun x => toUint8 (Z.land x mask)) xs)).
  { intros xs. apply Forall_forall. intros v Hv.
    apply list_elem_of_fmap in Hv as (x & -> & _).
    apply (masked_byte x mask n); assumption. }
  assert (Hnum : forall xs, Forall (fun v => 0 <= v < 2 ^ n)
                              (map (fun x => toUint8 (numberAnd x mask)) xs)).
  { intros xs. apply Forall_forall. intros v Hv.
    apply list_elem_of_fmap in Hv as (x & -> & _).
    apply (masked_number x mask n); assumption. }
  destruct input as [[bytes|ints|numbers|]|]; simpl; intros H; try discriminate.
  - destruct (Z.eqb_spec mask 255); [contradiction|]. injection H as <-. apply Hmap.
  - injection H as <-. apply Hmap.
  - injection H as <-. apply Hnum.
Qed.

Lemma normalize_nibbles (input : option RawArray) (d : list Z) :
  normalizeClassicArray input 15 = Some d -> Forall (fun v => 0 <= v < 16) d.
Proof. apply (normalize_below input 15 4); [lia|reflexivity|lia]. Qed.

Lemma normalize_bytes (input : option RawArray) (b : list Z) :
  (forall bytes, input = Some (RBuffer bytes) -> Forall isByte bytes) ->
  normalizeClassicArray input 255 = Some b -> Forall isByte b.
Proof.
  assert (Hmap : forall xs, Forall isByte (map (fun x => toUint8 (Z.land x 255)) xs)).
  { intros xs. apply Forall_forall. intros v Hv.
    apply list_elem_of_fmap in Hv as (x & -> & _).
    apply (masked_byte x 255 8); [lia|reflexivity]. }
  assert (Hnum : forall xs, Forall isByte (map (fun x => toUint8 (numberAnd x 255)) xs)).
  { intros xs. apply Forall_forall. intros v Hv.
    apply list_elem_of_fmap in Hv as (x & -> & _).
    apply (masked_number x 255 8); [lia|reflexivity]. }
  intros Hbuf.
  destruct input as [[bytes|ints|numbers|]|]; simpl; intros H;
    try discriminate; injection H as <-; [|apply Hmap|apply Hnum].
  apply Hbuf. reflexivity.
Qed.

Lemma combinedId_below (add b : list Z) (i : Z) : 0 <= combinedId add b i < 4096.
Proof.
  unfold combinedId.
  set (hi4 := if Z.land i 1 =? 0 then _ else _).
  set (lo := default 0 (b !! Z.to_nat i)).
  assert (Hhi : 0 <= Z.land hi4 15 < 16).
  { change 15 with (Z.ones 4). rewrite Z.land_ones by lia. apply Z.mod_pos_bound. lia. }
  assert (Hlo : 0 <= Z.land lo 255 < 256).
  { change 255 with (Z.ones 8). rewrite Z.land_ones by lia. apply Z.mod_pos_bound. lia. }
  assert (Hor : 0 <= Z.lor (Z.shiftl (Z.land hi4 15) 8) (Z.land lo 255) < 2 ^ 12).
  { apply ClassicFacts.lor_below; [lia| |lia].
    rewrite Z.shiftl_mul_pow2 by lia. lia. }
  unfold toUint16. rewrite Z.mod_small; lia.
Qed.

(** Every block id the classic loader returns is below 4096 and every
    metadata value is below 16, whatever the add array and the data
    array hold, provided a [Blocks] buffer holds bytes. *)
Theorem loadClassic_ranges (allocates : Z -> Z -> bool) (vol : Z)
    (Blocks Data AddBlocks Add : option RawArray) (ids d : list Z) :
  (forall bytes, Blocks = Some (RBuffer bytes) -> Forall isByte bytes) ->
  loadClassic allocates vol Blocks Data AddBlocks Add = Returns (ids, d) ->
  Forall (fun v => 0 <= v < 4096) ids /\ Forall (fun v => 0 <= v < 16) d.
Proof.
  intros Hbuf. unfold loadClassic.
  assert (Hd : forall d',
             match normalizeClassicArray Data 15 with
             | Some d => Returns d
             | None => newTypedArray allocates 1 vol
             end = Returns d' -> Forall (fun v => 0 <= v < 16) d').
  { intros d'. destruct (normalizeClassicArray Data 15) as [d0|] eqn:HD.
    - intros H. injection H as <-. eapply normalize_nibbles, HD.
    - unfold newTypedArray. destruct (vol <? 0); [discriminate|].
      destruct (allocates 1 vol); [|discriminate].
      intros H. injection H as <-. apply Forall_forall. intros v Hv.
      apply elem_of_replicate in Hv as [-> _]. lia. }
  destruct (match normalizeClassicArray Data 15 with
            | Some d => Returns d
            | None => newTypedArray allocates 1 vol
            end) as [d'|] eqn:HdOrNew; [|discriminate].
  specialize (Hd d' eq_refl).
  destruct (normalizeClassicArray Blocks 255) as [b|] eqn:HB; [|discriminate].
  assert (Hb : Forall (fun v => 0 <= v < 4096) b).
  { eapply Forall_impl; [eapply normalize_bytes; eassumption|].
    unfold isByte. intros v Hv. simpl in Hv. lia. }
  destruct (normalizeClassicArray (orElse AddBlocks Add) 255) as [add|].
  - destruct ((vol + 1) / 2 <=? Z.of_nat (length add)).
    + destruct (newTypedArray allocates 2 vol) as [out|]; [|discriminate].
      intros H. injection H as <- <-. split; [|exact Hd].
      apply Forall_forall. intros v Hv.
      apply list_elem_of_lookup in Hv as [i Hi].
      rewrite list_lookup_imap in Hi.
      destruct (out !! i); [|discriminate]. simpl in Hi. injection Hi as <-.
      apply combinedId_below.
    + intros H. injection H as <- <-. split; assumption.
  - intros H. injection H as <- <-. split; assumption.
Qed.

Lemma loadClassic_ranges_witness :
  Forall (fun v => 0 <= v < 4096) [3841; 3842] /\
  Forall (fun v => 0 <= v < 16) [15; 1].
Proof.
  apply (loadClassic_ranges unlimited 2 (Some (RArray [257; 258]))
           (Some (RIntArray [-1; 17])) (Some (RIntArray [-1])) None).
  - intros bytes H. discriminate H.
  - vm_compute. reflexivity.
Defined.


(** When the add array is absent, unusable or shorter than
    ceil(volume / 2), the ids are the normalised [Blocks] array itself,
    whatever its length; when the add array is used, there are exactly
    [vol] ids, whatever the length of [Blocks]. *)
Theorem loadClassic_ids_length (allocates : Z -> Z -> bool) (vol : Z)
    (Blocks Data AddBlocks Add : option RawArray) (ids d : list Z) :
  loadClassic allocates vol Blocks Data AddBlocks Add = Returns (ids, d) ->
  match normalizeClassicArray (orElse AddBlocks Add) 255 with
  | Some add =>
      if (vol + 1) / 2 <=? Z.of_nat (length add)
      then Z.of_nat (length ids) = vol
      else normalizeClassicArray Blocks 255 = Some ids
  | None => normalizeClassicArray Blocks 255 = Some ids
  end.
Proof.
  unfold loadClassic, newTypedArray.
  destruct (normalizeClassicArray Data 15) as [d0|];
    destruct (normalizeClassicArray Blocks 255) as [b|];
    destruct (normalizeClassicArray (orElse AddBlocks Add) 255) as [add|];
    destruct (Z.ltb_spec vol 0) as [Hneg|Hpos];
    try destruct (allocates 1 vol);
    try destruct (allocates 2 vol);
    try destruct ((vol + 1) / 2 <=? Z.of_nat (length add));
    intros H; try discriminate; injection H as <- <-; try reflexivity.
  all: rewrite length_imap, length_replicate; lia.
Qed.

Lemma loadClassic_ids_length_witness :
  normalizeClassicArray (Some (RBuffer [7; 8; 9])) 255 = Some [7; 8; 9].
Proof.
  apply (loadClassic_ids_length unlimited 4 (Some (RBuffer [7; 8; 9])) None
           (Some (RBuffer [1])) None [7; 8; 9] [0; 0; 0; 0]).
  vm_compute. reflexivity.
Defined.
End ClassicMore.

(** ** The varint decoder *)

Module VarintFacts.
Import Varint.
Local Open Scope Z_scope.

Lemma toUint32_toInt32 (v : Z) : toUint32 (toInt32 v) = toUint32 v.
Proof.
  unfold toUint32, toInt32. rewrite Zminus_mod_idemp_l. f_equal. lia.
Qed.

Lemma toInt32_small (v : Z) : - 2 ^ 31 <= v < 2 ^ 31 -> toInt32 v = v.
Proof. intros Hv. unfold toInt32. rewrite Z.mod_small; lia. Qed.

Lemma toUint32_or32 (a b : Z) :
  toUint32 (or32 a b) = Z.lor (toUint32 a) (toUint32 b).
Proof.
  unfold or32. rewrite toUint32_toInt32. unfold toUint32.
  rewrite <- !Z.land_ones by lia. rewrite Z.land_lor_distr_l.
  rewrite !Z.land_ones by lia. fold (toUint32 (toInt32 a)). fold (toUint32 (toInt32 b)).
  rewrite !toUint32_toInt32. reflexivity.
Qed.

(** The two masks on a byte. *)
Lemma byte_masks (b : Z) :
  0 <= b < 256 -> and32 b 127 = b mod 128 /\ (and32 b 128 =? 0) = (b <? 128).
Proof.
  intros Hb.
  assert (Hall : forallb (fun k => let b := Z.of_nat k in
                            (and32 b 127 =? b mod 128) &&
                            Bool.eqb (and32 b 128 =? 0) (b <? 128))
                         (seq 0 256) = true) by (vm_compute; reflexivity).
  rewrite forallb_forall in Hall. specialize (Hall (Z.to_nat b)).
  rewrite Z2Nat.id in Hall by lia.
  assert (Hin : In (Z.to_nat b) (seq 0 256)) by (apply in_seq; lia).
  apply Hall in Hin. apply andb_true_iff in Hin as [H1 H2].
  split; [apply Z.eqb_eq, H1|apply Bool.eqb_prop, H2].
Qed.

Lemma toUint32_shl32 (a s : Z) :
  0 <= a < 128 -> 0 <= s < 32 -> toUint32 (shl32 a s) = (a * 2 ^ s) mod 2 ^ 32.
Proof.
  intros Ha Hs. unfold shl32. rewrite toUint32_toInt32, toInt32_small by lia.
  change 31 with (Z.ones 5). rewrite Z.land_ones by lia.
  change (2 ^ 5) with 32. rewrite Z.mod_small by lia.
  rewrite Z.shiftl_mul_pow2 by lia. reflexivity.
Qed.

Lemma lor_disjoint (u a s : Z) :
  0 <= s -> 0 <= u < 2 ^ s -> 0 <= a -> Z.lor u (a * 2 ^ s) = u + a * 2 ^ s.
Proof.
  intros Hs Hu Ha.
  assert (Hland : Z.land u (a * 2 ^ s) = 0).
  { apply Z.bits_inj'. intros k Hk. rewrite Z.land_spec, Z.bits_0.
    destruct (Z.lt_ge_cases k s) as [Hlt|Hge].
    - rewrite Z.mul_pow2_bits_low by lia. apply andb_false_r.
    - rewrite (PackedFacts.entry_testbit u s k) by lia. reflexivity. }
  rewrite <- Z.lxor_lor by exact Hland. symmetry. apply Z.add_nocarry_lxor. exact Hland.
Qed.

Lemma pow_shift (s : Z) : 0 <= s -> 2 ^ (s + 7) = 128 * 2 ^ s.
Proof. intros Hs. rewrite Z.pow_add_r by lia. change (2 ^ 7) with 128. lia. Qed.

(** One group is added to the value read so far. *)
Lemma group_added (r a s : Z) :
  0 <= a < 128 -> 0 <= s < 32 -> a * 2 ^ s < 2 ^ 32 -> 0 <= toUint32 r < 2 ^ s ->
  toUint32 (or32 r (shl32 a s)) = toUint32 r + a * 2 ^ s.
Proof.
  intros Ha Hs Hfit Hr.
  rewrite toUint32_or32, toUint32_shl32 by lia.
  assert (Hp : 0 < 2 ^ s) by (apply Z.pow_pos_nonneg; lia).
  rewrite Z.mod_small by nia. apply lor_disjoint; lia.
Qed.

(** The decoder reads back what the reference encoder wrote, and stops
    behind it. *)
Lemma readVarint_encodeGroups (n : nat) :
  forall x s r rest,
    (0 < n)%nat ->
    0 <= x < 128 ^ Z.of_nat n -> 0 <= s < 32 -> x * 2 ^ s < 2 ^ 32 ->
    0 <= toUint32 r < 2 ^ s ->
    exists r', readVarint (encodeGroups n x ++ rest) r s = Returns (r', rest) /\
               toUint32 r' = toUint32 r + x * 2 ^ s.
Proof.
  induction n as [|n IH]; intros x s r rest Hn Hx Hs Hfit Hr.
  - lia.
  - assert (Hp : 0 < 2 ^ s) by (apply Z.pow_pos_nonneg; lia).
    cbn [encodeGroups]. destruct (Z.ltb_spec x 128) as [Hlt|Hge].
    + cbn [app readVarint].
      destruct (byte_masks x ltac:(lia)) as [Hlow Hhigh].
      rewrite Hlow, Hhigh, Z.mod_small by lia.
      destruct (Z.ltb_spec x 128); [|lia].
      eexists. split; [reflexivity|]. apply group_added; lia.
    + cbn [app readVarint].
      pose proof (Z.mod_pos_bound x 128 ltac:(lia)) as Hmod.
      pose proof (Z.div_mod x 128 ltac:(lia)) as Hdm.
      destruct (byte_masks (x mod 128 + 128) ltac:(lia)) as [Hlow Hhigh].
      rewrite Hlow, Hhigh.
      assert (Hm : (x mod 128 + 128) mod 128 = x mod 128).
      { rewrite <- (Z.mul_1_l 128) at 2. rewrite Z.mod_add by lia.
        apply Z.mod_mod. lia. }
      rewrite Hm. destruct (Z.ltb_spec (x mod 128 + 128) 128); [lia|].
      assert (Hs7 : s + 7 < 32).
      { apply (Z.pow_lt_mono_r_iff 2); [lia|lia|]. rewrite pow_shift by lia. nia. }
      destruct (Z.ltb_spec 35 (s + 7)); [lia|].
      assert (Hq : 0 <= x / 128) by (apply Z.div_pos; lia).
      set (r1 := or32 r (shl32 (x mod 128) s)).
      assert (Hr1 : toUint32 r1 = toUint32 r + x mod 128 * 2 ^ s).
      { apply group_added; first [lia|nia]. }
      destruct (IH (x / 128) (s + 7) r1 rest) as (r' & Hread & Hval).
      * destruct n; [simpl in Hx; lia|lia].
      * split; [exact Hq|]. apply Z.div_lt_upper_bound; [lia|].
        rewrite Nat2Z.inj_succ, Z.pow_succ_r in Hx by lia. lia.
      * lia.
      * rewrite pow_shift by lia. nia.
      * rewrite pow_shift by lia. nia.
      * exists r'. split; [exact Hread|]. rewrite Hval, Hr1, pow_shift by lia. nia.
Qed.

Lemma encodeVarint_nonempty (x : Z) : encodeVarint x <> [].
Proof. unfold encodeVarint. cbn [encodeGroups]. destruct (x <? 128); discriminate. Qed.

(** After the values of [xs] the loop goes on with what follows them. *)
Lemma decodeLoop_encode (xs : list Z) :
  forall k w pre mid post rest,
    Forall (fun x => 0 <= x < 2 ^ 32) xs ->
    length pre = w -> length mid = length xs ->
    decodeLoop (length xs + k) (encodeLEB128 xs ++ rest) w (pre ++ mid ++ post)
    = decodeLoop k rest (w + length xs) (pre ++ xs ++ post).
Proof.
  induction xs as [|x xs IH]; intros k w pre mid post rest Hxs Hpre Hmid.
  - destruct mid; [|discriminate]. simpl. rewrite Nat.add_0_r. reflexivity.
  - destruct mid as [|m mid]; [discriminate|].
    apply Forall_cons in Hxs as [Hx Hxs].
    unfold encodeLEB128. cbn [map concat length Nat.add decodeLoop].
    rewrite <- app_assoc.
    destruct (encodeVarint x ++ concat (map encodeVarint xs) ++ rest) as [|b bs] eqn:Hbytes.
    { apply app_eq_nil in Hbytes as [Hnil _]. destruct (encodeVarint_nonempty x Hnil). }
    rewrite <- Hbytes.
    assert (Hzero : toUint32 0 = 0) by reflexivity.
    destruct (readVarint_encodeGroups 5 x 0 (toUint32 0)
                (concat (map encodeVarint xs) ++ rest)) as (r' & Hread & Hval).
    + lia.
    + change (128 ^ Z.of_nat 5) with (2 ^ 35). lia.
    + lia.
    + change (2 ^ 0) with 1. lia.
    + rewrite !Hzero. change (2 ^ 0) with 1. lia.
    + unfold encodeVarint at 1. rewrite Hread.
      rewrite !Hzero in Hval. change (2 ^ 0) with 1 in Hval.
      assert (Hstore : toUint32 (toUint32 r') = x).
      { rewrite Hval. unfold toUint32. rewrite Z.mod_small; lia. }
      rewrite Hstore.
      assert (Hins : <[w := x]> (pre ++ (m :: mid) ++ post) = (pre ++ [x]) ++ mid ++ post).
      { rewrite insert_app_r_alt by lia. rewrite Hpre, Nat.sub_diag. simpl.
        rewrite <- app_assoc. reflexivity. }
      rewrite Hins.
      fold (encodeLEB128 xs).
      rewrite (IH k (S w) (pre ++ [x]) mid post rest).
      * rewrite <- app_assoc. simpl. f_equal. lia.
      * exact Hxs.
      * rewrite length_app. simpl. lia.
      * simpl in Hmid. lia.
Qed.

Lemma readVarint_app (bytes extra : list Z) :
  forall r s r' rest,
    readVarint bytes r s = Returns (r', rest) ->
    readVarint (bytes ++ extra) r s = Returns (r', rest ++ extra).
Proof.
  induction bytes as [|b bytes IH]; intros r s r' rest; cbn [app readVarint].
  - discriminate.
  - destruct (and32 b 128 =? 0).
    + intros H. injection H as <- <-. reflexivity.
    + destruct (35 <? s + 7); [discriminate|]. apply IH.
Qed.

Lemma decodeLoop_app (extra : list Z) (todo : nat) :
  forall bytes w out out',
    decodeLoop todo bytes w out = Returns ((w + todo)%nat, out') ->
    decodeLoop todo (bytes ++ extra) w out = Returns ((w + todo)%nat, out').
Proof.
  induction todo as [|todo IH]; intros bytes w out out'; cbn [decodeLoop].
  - intros H. exact H.
  - destruct bytes as [|b bytes].
    + intros H. injection H as Hw _. lia.
    + destruct (readVarint (b :: bytes) (toUint32 0) 0) as [[r rest]|] eqn:Hread;
        [|discriminate].
      apply readVarint_app with (extra := extra) in Hread.
      cbn [app] in Hread |- *. rewrite Hread.
      replace (w + S todo)%nat with (S w + todo)%nat by lia. apply IH.
Qed.

Lemma readVarint_terminators (bytes : list Z) :
  forall r s r' rest,
    readVarint bytes r s = Returns (r', rest) ->
    terminators bytes = S (terminators rest).
Proof.
  unfold terminators.
  induction bytes as [|b bytes IH]; intros r s r' rest; cbn [readVarint List.filter].
  - discriminate.
  - destruct (and32 b 128 =? 0).
    + intros H. injection H as _ <-. reflexivity.
    + destruct (35 <? s + 7); [discriminate|]. apply IH.
Qed.

Lemma decodeLoop_terminators (todo : nat) :
  forall bytes w out w' out',
    decodeLoop todo bytes w out = Returns (w', out') ->
    (w' <= w + terminators bytes)%nat /\ length out' = length out.
Proof.
  induction todo as [|todo IH]; intros bytes w out w' out'; cbn [decodeLoop].
  - intros H. injection H as <- <-. split; [lia|reflexivity].
  - destruct bytes as [|b bytes].
    + intros H. injection H as <- <-. split; [lia|reflexivity].
    + destruct (readVarint (b :: bytes) (toUint32 0) 0) as [[r rest]|] eqn:Hread;
        [|discriminate].
      apply readVarint_terminators in Hread. intros Hloop.
      apply IH in Hloop as [Hw Hlen]. rewrite length_insert in Hlen.
      split; [lia|exact Hlen].
Qed.

(** A group of continuation bytes that is never terminated, or that
    is six bytes long, makes the inner loop throw. *)
Lemma readVarint_unterminated (c : list Z) :
  forall r s,
    Forall (fun b => (and32 b 128 =? 0) = false) c ->
    readVarint c r s = Throws.
Proof.
  induction c as [|b c IH]; intros r s Hc; cbn [readVarint]; [reflexivity|].
  apply Forall_cons in Hc as [-> Hc].
  destruct (35 <? s + 7); [reflexivity|]. apply IH, Hc.
Qed.

Lemma readVarint_overlong (c : list Z) :
  forall r s rest,
    Forall (fun b => (and32 b 128 =? 0) = false) c ->
    s <= 35 -> 35 < s + 7 * Z.of_nat (length c) ->
    readVarint (c ++ rest) r s = Throws.
Proof.
  induction c as [|b c IH]; intros r s rest Hc Hs Hlen.
  - simpl in Hlen. lia.
  - apply Forall_cons in Hc as [Hb Hc]. cbn [app readVarint]. rewrite Hb.
    destruct (Z.ltb_spec 35 (s + 7)) as [_|Hle]; [reflexivity|].
    apply IH; [exact Hc|lia|]. cbn [length] in Hlen. lia.
Qed.

Lemma encodeLEB128_small (bytes : list Z) :
  Forall (fun b => 0 <= b < 128) bytes -> encodeLEB128 bytes = bytes.
Proof.
  unfold encodeLEB128.
  induction 1 as [|b bytes Hb _ IH]; cbn [map concat]; [reflexivity|].
  rewrite IH. unfold encodeVarint. cbn [encodeGroups].
  destruct (Z.ltb_spec b 128); [reflexivity|lia].
Qed.

(** LEB128 round trip: the decoder returns the values the reference
    encoder wrote, for any list of 32-bit values. *)
Theorem decodeLEB128_roundtrip (xs : list Z) :
  Forall (fun x => 0 <= x < 2 ^ 32) xs ->
  decodeLEB128Varints (encodeLEB128 xs) (Z.of_nat (length xs)) = Returns xs.
Proof.
  intros Hxs. unfold decodeLEB128Varints, Classic.newTypedArray, Classic.unlimited.
  destruct (Z.ltb_spec (Z.of_nat (length xs)) 0); [lia|].
  rewrite Nat2Z.id.
  pose proof (decodeLoop_encode xs 0%nat 0%nat [] (replicate (length xs) 0) [] [] Hxs
                eq_refl (length_replicate _ _)) as Hloop.
  rewrite !app_nil_r, Nat.add_0_r in Hloop. simpl in Hloop. rewrite Hloop.
  rewrite Z.eqb_refl. reflexivity.
Qed.

(** The shortcut for a byte array whose length is the volume agrees
    with the varint decoder when every byte is below 128: read as
    varints, such an array decodes to itself. *)
Theorem blocksFromBytes_small (arr : list Z) (vol : Z) :
  Forall (fun b => 0 <= b < 128) arr ->
  blocksFromBytes arr vol = decodeLEB128Varints arr vol /\
  (Z.of_nat (length arr) = vol -> blocksFromBytes arr vol = Returns arr).
Proof.
  intros Hsmall. unfold blocksFromBytes.
  assert (Hmap : map toUint32 arr = arr).
  { clear vol. induction Hsmall as [|b bs Hb _ IH]; cbn [map]; [reflexivity|].
    rewrite IH. unfold toUint32. rewrite Z.mod_small by lia. reflexivity. }
  destruct (Z.eqb_spec (Z.of_nat (length arr)) vol) as [Hlen|Hlen].
  - split; [|intros _; rewrite Hmap; reflexivity].
    rewrite Hmap, <- Hlen. unfold decodeLEB128Varints, Classic.newTypedArray, Classic.unlimited.
    destruct (Z.ltb_spec (Z.of_nat (length arr)) 0); [lia|].
    rewrite Nat2Z.id.
    assert (Hfit : Forall (fun x => 0 <= x < 2 ^ 32) arr).
    { eapply Forall_impl; [exact Hsmall|]. intros b Hb. simpl in Hb. lia. }
    pose proof (decodeLoop_encode arr 0%nat 0%nat [] (replicate (length arr) 0) [] []
                  Hfit eq_refl (length_replicate _ _)) as Hloop.
    rewrite (encodeLEB128_small arr Hsmall) in Hloop.
    rewrite !app_nil_r, Nat.add_0_r in Hloop. simpl in Hloop. rewrite Hloop.
    rewrite Z.eqb_refl. reflexivity.
  - split; [reflexivity|]. intros Habs. contradiction.
Qed.

Lemma blocksFromBytes_small_witness :
  blocksFromBytes [1; 0; 127] 3 = decodeLEB128Varints [1; 0; 127] 3 /\
  (Z.of_nat (length [1; 0; 127]) = 3 -> blocksFromBytes [1; 0; 127] 3 = Returns [1; 0; 127]).
Proof.
  apply (blocksFromBytes_small [1; 0; 127] 3).
  repeat constructor; lia.
Defined.

Lemma decodeLEB128_roundtrip_witness :
  decodeLEB128Varints [0; 172; 2; 255; 255; 255; 255; 15] 3 = Returns [0; 300; 4294967295].
Proof.
  apply (decodeLEB128_roundtrip [0; 300; 4294967295]).
  repeat constructor; lia.
Defined.

(** Bytes behind the last expected value are never read: what the
    decoder returns for an input it returns for every extension of
    it. *)
Theorem decodeLEB128_trailing_ignored (bytes extra : list Z) (n : Z) (out : list Z) :
  decodeLEB128Varints bytes n = Returns out ->
  decodeLEB128Varints (bytes ++ extra) n = Returns out.
Proof.
  unfold decodeLEB128Varints.
  destruct (Classic.newTypedArray Classic.unlimited 4 n) as [out0|]; [|discriminate].
  destruct (decodeLoop (Z.to_nat n) bytes 0 out0) as [[w out1]|] eqn:Hloop; [|discriminate].
  destruct (Z.eqb_spec (Z.of_nat w) n) as [Hw|Hw]; [|discriminate].
  intros H. injection H as <-.
  assert (Hwn : w = (0 + Z.to_nat n)%nat) by lia.
  rewrite Hwn in Hloop. apply decodeLoop_app with (extra := extra) in Hloop.
  rewrite Hloop, <- Hwn. destruct (Z.eqb_spec (Z.of_nat w) n); [reflexivity|contradiction].
Qed.

Lemma decodeLEB128_trailing_ignored_witness :
  decodeLEB128Varints ([172; 2; 5] ++ [255; 255]) 2 = Returns [300; 5].
Proof.
  apply (decodeLEB128_trailing_ignored [172; 2; 5] [255; 255] 2 [300; 5]).
  vm_compute. reflexivity.
Defined.

(** When the decoder returns, it returns exactly [expectedCount]
    values, and the input holds at least that many bytes without the
    continuation bit. *)
Theorem decodeLEB128_returns_count (bytes : list Z) (n : Z) (out : list Z) :
  decodeLEB128Varints bytes n = Returns out ->
  Z.of_nat (length out) = n /\ n <= Z.of_nat (terminators bytes).
Proof.
  unfold decodeLEB128Varints, Classic.newTypedArray, Classic.unlimited.
  destruct (Z.ltb_spec n 0) as [Hneg|Hpos]; [discriminate|].
  destruct (decodeLoop (Z.to_nat n) bytes 0 (replicate (Z.to_nat n) 0))
    as [[w out1]|] eqn:Hloop; [|discriminate].
  destruct (Z.eqb_spec (Z.of_nat w) n) as [Hw|Hw]; [|discriminate].
  intros H. injection H as <-.
  apply decodeLoop_terminators in Hloop as [Hle Hlen].
  rewrite length_replicate in Hlen. lia.
Qed.

Lemma decodeLEB128_returns_count_witness :
  Z.of_nat (length [300; 5]) = 2 /\ 2 <= Z.of_nat (terminators [172; 2; 5]).
Proof.
  apply (decodeLEB128_returns_count [172; 2; 5] 2 [300; 5]).
  vm_compute. reflexivity.
Defined.

(** A stream that holds fewer values than expected and then ends, or
    goes on with a group that is not terminated or that has six
    continuation bytes, is rejected. *)
Theorem decodeLEB128_malformed_throws (xs c rest : list Z) (n : Z) :
  Forall (fun x => 0 <= x < 2 ^ 32) xs ->
  Z.of_nat (length xs) < n ->
  Forall (fun b => (and32 b 128 =? 0) = false) c ->
  rest = [] \/ (6 <= length c)%nat ->
  decodeLEB128Varints (encodeLEB128 xs ++ c ++ rest) n = Throws.
Proof.
  intros Hxs Hn Hc Hshape. unfold decodeLEB128Varints, Classic.newTypedArray, Classic.unlimited.
  destruct (Z.ltb_spec n 0) as [Hneg|Hpos]; [reflexivity|].
  set (k := (Z.to_nat n - length xs)%nat).
  assert (Hk : Z.to_nat n = (length xs + k)%nat) by lia.
  assert (Hout : replicate (Z.to_nat n) 0
                 = [] ++ replicate (length xs) 0 ++ replicate k 0).
  { rewrite Hk, replicate_add. reflexivity. }
  rewrite Hout, Hk.
  rewrite (decodeLoop_encode xs k 0%nat [] (replicate (length xs) 0) (replicate k 0)
             (c ++ rest) Hxs eq_refl (length_replicate _ _)).
  destruct k as [|k]; [lia|]. cbn [decodeLoop].
  destruct (c ++ rest) as [|b bs] eqn:Hbytes.
  - destruct (Z.eqb_spec (Z.of_nat (0 + length xs)) n); [lia|reflexivity].
  - rewrite <- Hbytes.
    assert (Hread : readVarint (c ++ rest) (toUint32 0) 0 = Throws).
    { destruct Hshape as [->|Hlong].
      - rewrite app_nil_r. apply readVarint_unterminated, Hc.
      - apply readVarint_overlong; [exact Hc|lia|lia]. }
    rewrite Hread. reflexivity.
Qed.

Lemma decodeLEB128_malformed_throws_witness :
  decodeLEB128Varints ([172; 2] ++ [128; 128; 128; 128; 128; 128] ++ [1]) 2 = Throws.
Proof.
  apply (decodeLEB128_malformed_throws [300] [128; 128; 128; 128; 128; 128] [1] 2).
  - repeat constructor; lia.
  - vm_compute. reflexivity.
  - repeat constructor.
  - right. vm_compute. lia.
Defined.

(** A sixth byte is accepted: its payload is shifted by 35, which the
    32-bit shift takes modulo 32, so that after five empty groups the
    value read is eight times the sixth byte. *)
Theorem decodeLEB128_sixth_group (a : Z) (rest : list Z) :
  0 <= a < 128 ->
  decodeLEB128Varints ([128; 128; 128; 128; 128; a] ++ rest) 1 = Returns [8 * a].
Proof.
  intros Ha. unfold decodeLEB128Varints.
  change (Classic.newTypedArray Classic.unlimited 4 1) with (Returns [0]).
  change (Z.to_nat 1) with 1%nat. cbn [app decodeLoop readVarint].
  change (and32 128 128 =? 0) with false. cbv iota.
  change (35 <? 0 + 7) with false. change (35 <? 0 + 7 + 7) with false.
  change (35 <? 0 + 7 + 7 + 7) with false. change (35 <? 0 + 7 + 7 + 7 + 7) with false.
  change (35 <? 0 + 7 + 7 + 7 + 7 + 7) with false. cbv iota.
  destruct (byte_masks a ltac:(lia)) as [Hlow Hhigh].
  rewrite Hlow, Hhigh, Z.mod_small by lia.
  destruct (Z.ltb_spec a 128); [|lia].
  set (r5 := or32 _ (shl32 (and32 128 127) (0 + 7 + 7 + 7 + 7))).
  assert (Hr5 : r5 = 0) by (vm_compute; reflexivity).
  rewrite Hr5.
  assert (Hsh : shl32 a (0 + 7 + 7 + 7 + 7 + 7) = 8 * a).
  { unfold shl32. rewrite (toInt32_small a) by lia.
    change (Z.land (0 + 7 + 7 + 7 + 7 + 7) 31) with 3.
    rewrite Z.shiftl_mul_pow2 by lia. change (2 ^ 3) with 8.
    rewrite toInt32_small by lia. lia. }
  rewrite Hsh.
  assert (Hor : or32 0 (8 * a) = 8 * a).
  { unfold or32. rewrite (toInt32_small (8 * a)) by lia.
    change (toInt32 0) with 0. rewrite Z.lor_0_l. apply toInt32_small. lia. }
  rewrite Hor. cbn [decodeLoop]. cbn [insert list_insert].
  unfold toUint32. rewrite Z.mod_mod by lia. rewrite Z.mod_small by lia.
  reflexivity.
Qed.

Lemma decodeLEB128_sixth_group_witness :
  decodeLEB128Varints ([128; 128; 128; 128; 128; 1] ++ []) 1 = Returns [8 * 1].
Proof. apply (decodeLEB128_sixth_group 1 []). lia. Defined.
End VarintFacts.

(** ** Function files *)

Module PackFacts.
Import Pack.

Lemma nonEmptyLines_snoc (seen : list string) (line : string) :
  nonEmptyLines (seen ++ [line])
  = nonEmptyLines seen ++ (if isEmpty line then [] else [line]).
Proof.
  unfold nonEmptyLines. rewrite List.filter_app. simpl.
  destruct (isEmpty line); reflexivity.
Qed.

Lemma chunked_init (max : nat) : 0 < max -> chunked max [] (mkState 0 [] []).
Proof. intros Hmax. split; simpl; [reflexivity|constructor|reflexivity|exact Hmax]. Qed.

Lemma chunked_push (max : nat) (seen : list string) (st : State) (line : string) :
  chunked max seen st -> chunked max (seen ++ [line]) (pushLine max st line).
Proof.
  intros [Hcat Hfull Hnames Hbuf]. unfold pushLine.
  destruct (isEmpty line) eqn:Hline.
  - split; try assumption. rewrite nonEmptyLines_snoc, Hline, app_nil_r. exact Hcat.
  - cbn [buffer fileCount files].
    destruct (Nat.eqb_spec (length (buffer st ++ [line])) max) as [Hlen|Hlen].
    + unfold flush. cbn [buffer fileCount files]. split; cbn [buffer fileCount files].
      * rewrite map_app, concat_app. simpl. rewrite !app_nil_r.
        rewrite nonEmptyLines_snoc, Hline, <- Hcat, app_assoc. reflexivity.
      * rewrite map_app. apply Forall_app. split; [exact Hfull|].
        simpl. constructor; [exact Hlen|constructor].
      * rewrite map_app, Hnames. cbn [map fst]. rewrite seq_S. reflexivity.
      * cbn [length]. lia.
    + split; cbn [buffer fileCount files].
      * rewrite nonEmptyLines_snoc, Hline, <- Hcat, app_assoc. reflexivity.
      * exact Hfull.
      * exact Hnames.
      * rewrite length_app in *. simpl in *. lia.
Qed.

Lemma chunked_loop (max : nat) (lines : list string) :
  forall seen st,
    chunked max seen st ->
    chunked max (seen ++ lines) (fold_left (pushLine max) lines st).
Proof.
  induction lines as [|line lines IH]; intros seen st Hst; simpl.
  - rewrite app_nil_r. exact Hst.
  - replace (seen ++ line :: lines) with ((seen ++ [line]) ++ lines)
      by (rewrite <- app_assoc; reflexivity).
    apply IH, chunked_push, Hst.
Qed.

Lemma full_chunks_length (max : nat) (cs : list (list string)) :
  Forall (fun c => length c = max) cs -> length (concat cs) = length cs * max.
Proof.
  induction 1 as [|c cs Hc _ IH]; simpl; [reflexivity|].
  rewrite length_app, IH, Hc. reflexivity.
Qed.

(** The files of a run: full chunks of the non-empty lines in their
    order, then one chunk with what is left, numbered from 1. *)
Lemma splitInto_chunks (max : nat) (lines : list string) :
  0 < max ->
  let st := splitInto max lines in
  let kept := nonEmptyLines lines in
  concat (map snd (files st)) = kept /\
  map fst (files st) = seq 1 (fileCount st) /\
  fileCount st = (length kept + max - 1) / max /\
  forall j c, map snd (files st) !! j = Some c ->
              (1 <= length c <= max) /\ (S j < fileCount st -> length c = max).
Proof.
  intros Hmax. unfold splitInto.
  pose proof (chunked_loop max lines [] _ (chunked_init max Hmax)) as Hinv.
  simpl in Hinv.
  set (st := fold_left (pushLine max) lines (mkState 0 [] [])) in *.
  destruct Hinv as [Hcat Hfull Hnames Hbuf].
  assert (Hcount : length (files st) = fileCount st).
  { rewrite <- (length_map fst), Hnames, length_seq. reflexivity. }
  assert (Hlen : length (nonEmptyLines lines) = fileCount st * max + length (buffer st)).
  { rewrite <- Hcat, length_app, (full_chunks_length max) by exact Hfull.
    rewrite length_map, Hcount. reflexivity. }
  assert (Hsizes : forall j c, map snd (files st) !! j = Some c -> length c = max).
  { intros j c Hj. rewrite Forall_forall in Hfull. apply Hfull.
    eapply list_elem_of_lookup_2, Hj. }
  destruct (buffer st) as [|line buf] eqn:Hbuffer; cbv zeta.
  - rewrite app_nil_r in Hcat. simpl in Hlen.
    split; [exact Hcat|]. split; [exact Hnames|]. split.
    + apply (Nat.div_unique _ max _ (max - 1)); lia.
    + intros j c Hj. rewrite (Hsizes j c Hj). lia.
  - unfold flush. cbn [files fileCount]. rewrite Hbuffer.
    rewrite !map_app. cbn [map fst snd]. split; [|split; [|split]].
    + rewrite concat_app. simpl. rewrite app_nil_r. exact Hcat.
    + rewrite Hnames, seq_S. reflexivity.
    + apply (Nat.div_unique _ max _ (length buf)).
      * simpl in Hbuf. lia.
      * rewrite Hlen. simpl. lia.
    + intros j c Hj.
      destruct (decide (j < length (map snd (files st)))) as [Hlt|Hge].
      * rewrite lookup_app_l in Hj by exact Hlt.
        rewrite (Hsizes j c Hj). lia.
      * rewrite lookup_app_r in Hj by lia.
        rewrite length_map, Hcount in Hj, Hge.
        destruct (j - fileCount st) as [|d] eqn:Hd; [|discriminate].
        simpl in Hj. injection Hj as <-. simpl in *. split; [lia|]. intros Habs. lia.
Qed.

(** The function files, read in the order of their numbers, hold
    exactly the non-empty lines of the command file, in their order. *)
Theorem splitLines_preserves_lines (lines : list string) :
  concat (map snd (files (splitLines lines))) = nonEmptyLines lines.
Proof.
  apply (splitInto_chunks MAX_LINES lines). unfold MAX_LINES. lia.
Qed.

(** No function file is empty or longer than [MAX_LINES], and every
    file but the last holds exactly [MAX_LINES] lines. *)
Theorem splitLines_chunk_sizes (lines : list string) (j : nat) (c : list string) :
  map snd (files (splitLines lines)) !! j = Some c ->
  (1 <= length c <= MAX_LINES) /\
  (S j < fileCount (splitLines lines) -> length c = MAX_LINES).
Proof.
  apply (splitInto_chunks MAX_LINES lines). unfold MAX_LINES. lia.
Qed.

Lemma splitLines_chunk_sizes_witness :
  (1 <= length ["a"; "b"]%string <= MAX_LINES) /\
  (1 < fileCount (splitLines ["a"; ""; "b"]%string) ->
   length ["a"; "b"]%string = MAX_LINES).
Proof.
  apply (splitLines_chunk_sizes ["a"; ""; "b"]%string 0 ["a"; "b"]%string).
  vm_compute. reflexivity.
Defined.

(** The files are numbered 1, 2, ... without a gap, and their number,
    which is written into the builder script, is the number of
    non-empty lines divided by [MAX_LINES], rounded up. *)
Theorem splitLines_file_count (lines : list string) :
  map fst (files (splitLines lines)) = seq 1 (fileCount (splitLines lines)) /\
  fileCount (splitLines lines)
  = (length (nonEmptyLines lines) + MAX_LINES - 1) / MAX_LINES.
Proof.
  destruct (splitInto_chunks MAX_LINES lines) as (_ & Hnames & Hcount & _).
  - unfold MAX_LINES. lia.
  - split; [exact Hnames|exact Hcount].
Qed.
End PackFacts.

(** ** The origin and the boxes *)

Section OriginAndBoxes.
Variable legacyMap : LegacyMap.
Variable schem : Schem.t.
Variable T : Table.
Hypothesis T_stable : stable T.

Let w := Schem.width schem.
Let h := Schem.height schem.
Let l := Schem.length schem.

Lemma classicJavaName_key (i j : nat) :
  classicKey schem i = classicKey schem j ->
  classicJavaName legacyMap schem j = classicJavaName legacyMap schem i.
Proof.
  intros Hk. unfold classicJavaName.
  rewrite (classicKey_fallback schem i j Hk), Hk. reflexivity.
Qed.

Lemma pureKey_classic (i : nat) :
  Schem.type schem = classic ->
  pureKey legacyMap schem T i
  = if isAirName (classicJavaName legacyMap schem i) then None
    else keyOfTranslation (fst (translateBlock (classicJavaName legacyMap schem i) T)).
Proof.
  intros Hty. unfold pureKey, getKeyAt. rewrite Hty. cbn [emptyCache classicToBedrock].
  rewrite lookup_empty.
  destruct (isAirName _); [reflexivity|].
  destruct (translateBlock _ T) as [br T']. reflexivity.
Qed.

Lemma pureKey_palette (i : nat) :
  Schem.type schem <> classic ->
  pureKey legacyMap schem T i
  = if isAirName (paletteJavaName schem (paletteIndex schem i)) then None
    else keyOfTranslation
           (fst (translateBlock (paletteJavaName schem (paletteIndex schem i)) T)).
Proof.
  intros Hty. unfold pureKey, getKeyAt.
  destruct (Schem.type schem); [contradiction| | |];
    cbn [emptyCache paletteToBedrock]; rewrite lookup_empty;
    (destruct (isAirName _); [reflexivity|]);
    destruct (translateBlock _ T) as [br T']; reflexivity.
Qed.

(** With a stable table every getter call keeps the table and fills
    the memo with the key a fresh getter would give. *)
Lemma getKeyAt_agrees (i : nat) (st : GetterState) :
  agrees legacyMap schem T st ->
  agrees legacyMap schem T (snd (getKeyAt legacyMap schem i st)).
Proof.
  destruct st as [cache T0]. intros [HT Hag]. simpl in HT. subst T0.
  assert (Hdec : Schem.type schem = classic \/ Schem.type schem <> classic)
    by (destruct (Schem.type schem); [left; reflexivity|right; discriminate..]).
  destruct Hdec as [Hty|Hty].
  - pose proof (pureKey_classic i Hty) as Hpi.
    assert (Hsame : forall j, classicKey schem i = classicKey schem j ->
                              pureKey legacyMap schem T j = pureKey legacyMap schem T i).
    { intros j Hk. rewrite (pureKey_classic j Hty), (pureKey_classic i Hty).
      rewrite (classicJavaName_key i j Hk). reflexivity. }
    unfold agrees, cachedKey in *. unfold getKeyAt. rewrite Hty in *.
    destruct (classicToBedrock cache !! classicKey schem i) as [k|] eqn:Hhit;
      [split; [reflexivity|exact Hag]|].
    pose proof (T_stable (classicJavaName legacyMap schem i)) as HT'.
    destruct (isAirName (classicJavaName legacyMap schem i)).
    + split; [reflexivity|]. intros j k. cbn [fst snd classicToBedrock].
      destruct (decide (classicKey schem i = classicKey schem j)) as [Hk|Hk].
      * rewrite <- Hk, lookup_insert_eq. intros [= <-]. rewrite (Hsame j Hk), Hpi.
        reflexivity.
      * rewrite lookup_insert_ne by exact Hk. apply Hag.
    + destruct (translateBlock (classicJavaName legacyMap schem i) T) as [br T'].
      simpl in HT'. subst T'. split; [reflexivity|].
      intros j k. cbn [fst snd classicToBedrock].
      destruct (decide (classicKey schem i = classicKey schem j)) as [Hk|Hk].
      * rewrite <- Hk, lookup_insert_eq. intros [= <-]. rewrite (Hsame j Hk), Hpi.
        reflexivity.
      * rewrite lookup_insert_ne by exact Hk. apply Hag.
  - pose proof (pureKey_palette i Hty) as Hpi.
    assert (Hsame : forall j, paletteIndex schem i = paletteIndex schem j ->
                              pureKey legacyMap schem T j = pureKey legacyMap schem T i).
    { intros j Hk. rewrite (pureKey_palette j Hty), (pureKey_palette i Hty), Hk.
      reflexivity. }
    assert (Hview : forall st j,
              cachedKey schem st j = paletteToBedrock (fst st) !! paletteIndex schem j).
    { intros st j. unfold cachedKey. destruct (Schem.type schem); [contradiction|..];
        reflexivity. }
    assert (Hget : getKeyAt legacyMap schem i (cache, T)
                   = match paletteToBedrock cache !! paletteIndex schem i with
                     | Some k => (k, (cache, T))
                     | None =>
                         (pureKey legacyMap schem T i,
                          (mkCache (<[paletteIndex schem i := pureKey legacyMap schem T i]>
                                      (paletteToBedrock cache))
                                   (classicToBedrock cache), T))
                     end).
    { rewrite Hpi. unfold getKeyAt.
      pose proof (T_stable (paletteJavaName schem (paletteIndex schem i))) as HT'.
      destruct (Schem.type schem); [contradiction|..];
        (destruct (paletteToBedrock cache !! paletteIndex schem i); [reflexivity|]);
        (destruct (isAirName _); [reflexivity|]);
        destruct (translateBlock _ T) as [br T']; simpl in HT'; subst T'; reflexivity. }
    rewrite Hget. unfold agrees in *.
    destruct (paletteToBedrock cache !! paletteIndex schem i) as [k|] eqn:Hhit;
      [split; [reflexivity|exact Hag]|].
    split; [reflexivity|]. intros j k. rewrite Hview. cbn [fst snd paletteToBedrock].
    destruct (decide (paletteIndex schem i = paletteIndex schem j)) as [Hk|Hk].
    + rewrite <- Hk, lookup_insert_eq. intros [= <-]. rewrite (Hsame j Hk). reflexivity.
    + rewrite lookup_insert_ne by exact Hk. intros Hj. apply Hag. rewrite Hview. exact Hj.
Qed.

Lemma agrees_fresh : agrees legacyMap schem T (emptyCache, T).
Proof.
  split; [reflexivity|]. intros j k. unfold cachedKey.
  destruct (Schem.type schem); cbn [fst emptyCache classicToBedrock paletteToBedrock];
    rewrite lookup_empty; discriminate.
Qed.

Lemma agrees_reach (st : GetterState) :
  reach (getKeyAt legacyMap schem) (emptyCache, T) st -> agrees legacyMap schem T st.
Proof.
  intros Hr.
  apply (reach_invariant (getKeyAt legacyMap schem) (agrees legacyMap schem T)
           (emptyCache, T) st); [|exact Hr|exact agrees_fresh].
  intros i s. apply getKeyAt_agrees.
Qed.

(** A table that the origin pass leaves alone is the table the merge
    pass starts from. *)
Lemma findOrigin_stable : snd (findOrigin legacyMap schem T) = T.
Proof.
  unfold findOrigin, originPass.
  pose proof (originLoop_invariant (getKeyAt legacyMap schem) w h l (cachedKey schem)
                (getKeyAt_cached legacyMap schem) (getKeyAt_mono legacyMap schem)
                (emptyCache, T)) as [_ Hr].
  fold w h l.
  destruct (originLoop (getKeyAt legacyMap schem) w h l (emptyCache, T))
    as [[[[origin minZ] minX] minY] st].
  simpl in Hr |- *. apply agrees_reach in Hr as [HT _]. exact HT.
Qed.

(** The first corner of every box comes after the origin in (z, x, y)
    order. *)
Lemma origin_before_box (b : Box.t) :
  b ∈ fst (mergeBoxes legacyMap schem T) ->
  lexLe (fst (findOrigin legacyMap schem T))
        (Origin.mk (Box.x0 b) (Box.y0 b) (Box.z0 b)).
Proof.
  intros Hb.
  (* the start cell of the box has the key of the box in the merge pass *)
  assert (Hstart : boxStart w h l b < w * h * l /\
                   inBounds w h l b /\
                   pureKey legacyMap schem T (boxStart w h l b) = Some (Box.key b) /\
                   Js.nonEmpty (Box.key b) = true).
  { unfold mergeBoxes in Hb. fold w h l in Hb.
    destruct (mergeLoop (getKeyAt legacyMap schem) w h l (emptyCache, T))
      as [[visited out] st] eqn:Hloop.
    cbn [fst] in Hb.
    pose proof (mergeLoop_coverage _ _ _ _ (cachedKey schem)
                  (getKeyAt_cached legacyMap schem) (getKeyAt_mono legacyMap schem)
                  _ _ _ _ Hloop) as [_ Hcs _].
    apply (mergeLoop_invariant _ _ _ _ (cachedKey schem)
             (getKeyAt_cached legacyMap schem) (getKeyAt_mono legacyMap schem))
      in Hloop as [[_ _ _ _ Hboxes _ _] Hr].
    rewrite Forall_forall in Hboxes.
    destruct (Hboxes b Hb) as (Hin & Hne & Hcells).
    destruct Hin as (Hx & Hy & Hz).
    destruct (Hcells (Box.x0 b) (Box.y0 b) (Box.z0 b)) as [_ Hkey];
      [unfold Box.contains; lia|].
    apply agrees_reach in Hr as [_ Hag]. apply Hag in Hkey.
    split; [apply Hcs, Hb|]. split; [repeat split; lia|]. split; [symmetry; exact Hkey|].
    exact Hne. }
  destruct Hstart as (Hlt & (Hx & Hy & Hz) & Hkey & Hne).
  unfold findOrigin, originPass.
  pose proof (originLoop_invariant (getKeyAt legacyMap schem) w h l (cachedKey schem)
                (getKeyAt_cached legacyMap schem) (getKeyAt_mono legacyMap schem)
                (emptyCache, T)) as [Hinv Hr].
  fold w h l.
  destruct (originLoop (getKeyAt legacyMap schem) w h l (emptyCache, T))
    as [[[[origin minZ] minX] minY] st].
  simpl in Hr. apply agrees_reach in Hr as [_ Hag].
  destruct Hinv as [Hknown Hshape]. cbn [fst].
  assert (Htruthy : truthyCached (cachedKey schem) st (boxStart w h l b) = true).
  { destruct (Hknown _ Hlt) as [k Hk]. unfold truthyCached. rewrite Hk.
    apply Hag in Hk. rewrite Hkey in Hk. subst k. exact Hne. }
  assert (Hcell : cellOrigin (boxStart w h l b) w h l
                  = Origin.mk (Box.x0 b) (Box.y0 b) (Box.z0 b)).
  { unfold cellOrigin, boxStart. rewrite coords_index by lia. reflexivity. }
  destruct origin as [o|]; simpl in Hshape |- *.
  - destruct Hshape as (_ & _ & _ & _ & Hmin). rewrite <- Hcell. apply Hmin; assumption.
  - destruct Hshape as (_ & _ & _ & Hnone). rewrite Hnone in Htruthy by exact Hlt.
    discriminate.
Qed.
End OriginAndBoxes.

(** With a table that no translation changes, the merge pass sees the
    keys the origin pass saw: no box starts before the origin in
    (z, x, y) order, so the z offset in every command is at least 1. *)
Theorem commands_behind_origin (legacyMap : LegacyMap) (schem : Schem.t) (T : Table)
    (b : Box.t) :
  stable T ->
  let origin := fst (findOrigin legacyMap schem T) in
  b ∈ fst (mergeBoxes legacyMap schem (snd (findOrigin legacyMap schem T))) ->
  lexLe origin (Origin.mk (Box.x0 b) (Box.y0 b) (Box.z0 b)) /\
  (1 <= relative (Box.z0 b) (Origin.z origin))%Z.
Proof.
  intros Hst origin Hb. rewrite (findOrigin_stable legacyMap schem T Hst) in Hb.
  pose proof (origin_before_box legacyMap schem T Hst b Hb) as Hle.
  split; [exact Hle|]. unfold lexLe in Hle. cbn [Origin.x Origin.y Origin.z] in Hle.
  unfold relative. fold origin in Hle. lia.
Qed.

Lemma stable_empty : stable ∅.
Proof.
  intros javaBlock.
  destruct (translateBlock_table javaBlock ∅)
    as [Heq|(key & e & leaf & _ & Hkey & _)]; [exact Heq|].
  rewrite lookup_empty in Hkey. discriminate.
Qed.

Lemma commands_behind_origin_witness :
  lexLe (fst (findOrigin ∅ mixedVolume ∅)) (Origin.mk 2 0 1) /\
  (1 <= relative 1 (Origin.z (fst (findOrigin ∅ mixedVolume ∅))))%Z.
Proof.
  apply (commands_behind_origin ∅ mixedVolume ∅ (Box.mk 2 0 1 2 1 1 "dirt")).
  - exact stable_empty.
  - vm_compute. apply list_elem_of_In. simpl. auto.
Defined.

(** ** The name of the pack file *)

Module PackNameFacts.
Import Pack.

Lemma includes_underscoreRuns (c : ascii) (s : string) :
  forall inRun,
    Js.includes c (underscoreRuns inRun s) = true ->
    c = "_"%char \/ (Js.includes c s = true /\ Js.isSpace c = false).
Proof.
  induction s as [|d s IH]; intros inRun; cbn [underscoreRuns Js.includes];
    [discriminate|].
  destruct (Js.isSpace d) eqn:Hd.
  - destruct inRun; cbn [Js.includes].
    + intros H. apply IH in H as [H|[H1 H2]]; [left; exact H|right].
      rewrite H1, orb_true_r. auto.
    + intros H. apply orb_true_iff in H as [H|H].
      * left. apply Ascii.eqb_eq in H. congruence.
      * apply IH in H as [H|[H1 H2]]; [left; exact H|right].
        rewrite H1, orb_true_r. auto.
  - intros H. apply orb_true_iff in H as [H|H].
    + right. apply Ascii.eqb_eq in H. subst d.
      rewrite Ascii.eqb_refl. auto.
    + apply IH in H as [H|[H1 H2]]; [left; exact H|right].
      rewrite H1, orb_true_r. auto.
Qed.

Lemma includes_dropOthers (c : ascii) (s : string) :
  Js.includes c (dropOthers s) = true ->
  isWord c || Js.isSpace c || Ascii.eqb c "-" = true.
Proof.
  induction s as [|d s IH]; cbn [dropOthers Js.includes]; [discriminate|].
  destruct (isWord d || Js.isSpace d || Ascii.eqb d "-") eqn:Hd; [|exact IH].
  cbn [Js.includes]. intros H. apply orb_true_iff in H as [H|H]; [|apply IH, H].
  apply Ascii.eqb_eq in H. subst d. exact Hd.
Qed.

Lemma underscoreRuns_clean (s : string) :
  (forall c, Js.includes c s = true -> Js.isSpace c = false) ->
  forall inRun, underscoreRuns inRun s = s.
Proof.
  induction s as [|d s IH]; intros Hs inRun; cbn [underscoreRuns]; [reflexivity|].
  rewrite (Hs d) by (cbn [Js.includes]; rewrite Ascii.eqb_refl; reflexivity).
  rewrite IH; [reflexivity|].
  intros c Hc. apply Hs. cbn [Js.includes]. rewrite Hc. apply orb_true_r.
Qed.

Lemma dropOthers_clean (s : string) :
  (forall c, Js.includes c s = true -> isWord c || Ascii.eqb c "-" = true) ->
  dropOthers s = s.
Proof.
  induction s as [|d s IH]; intros Hs; cbn [dropOthers]; [reflexivity|].
  assert (Hd : isWord d || Ascii.eqb d "-" = true)
    by (apply Hs; cbn [Js.includes]; rewrite Ascii.eqb_refl; reflexivity).
  assert (Hkeep : isWord d || Js.isSpace d || Ascii.eqb d "-" = true).
  { apply orb_true_iff in Hd as [Hw|He]; [rewrite Hw|rewrite He, orb_true_r]; reflexivity. }
  rewrite Hkeep, IH; [reflexivity|].
  intros c Hc. apply Hs. cbn [Js.includes]. rewrite Hc. apply orb_true_r.
Qed.

Lemma sanitized_chars (packName : string) (c : ascii) :
  Js.includes c (sanitizedPackName packName) = true ->
  (isWord c || Ascii.eqb c "-" = true) /\ Js.isSpace c = false.
Proof.
  unfold sanitizedPackName. intros H.
  apply includes_underscoreRuns in H as [->|[H Hsp]]; [split; reflexivity|].
  apply includes_dropOthers in H. rewrite Hsp, orb_false_r in H. auto.
Qed.

(** The file name of the pack holds only letters, digits, [_] and
    [-]: no path separator, no dot and no white space of the pack name
    survives. *)
Theorem sanitizedPackName_safe (packName : string) (c : ascii) :
  Js.includes c (sanitizedPackName packName) = true ->
  isWord c || Ascii.eqb c "-" = true.
Proof.
  unfold sanitizedPackName. intros H.
  apply includes_underscoreRuns in H as [->|[H Hsp]]; [reflexivity|].
  apply includes_dropOthers in H. rewrite Hsp, orb_false_r in H. exact H.
Qed.

Lemma sanitizedPackName_safe_witness :
  isWord "_" || Ascii.eqb "_" "-" = true.
Proof.
  apply (sanitizedPackName_safe "../my  pack!" "_").
  vm_compute. reflexivity.
Defined.

(** Sanitising a pack name twice changes nothing more. *)
Theorem sanitizedPackName_idempotent (packName : string) :
  sanitizedPackName (sanitizedPackName packName) = sanitizedPackName packName.
Proof.
  unfold sanitizedPackName at 1.
  rewrite dropOthers_clean, underscoreRuns_clean; [reflexivity| |].
  - intros c Hc. apply (sanitized_chars packName c Hc).
  - intros c Hc. apply (sanitized_chars packName c Hc).
Qed.
End PackNameFacts.
